(** * Tensorscope web client: layout engine, store, connection manager and
      parameter controls, embedded from the TypeScript sources.

    Every definition follows one function of the client:
    - [Layout]: [calculateLayout] of the operator graph component;
    - [Store]: the zustand store actions on [tensors] and scenarios;
    - [Connection]: the [useWebSocket] hook with its reconnection timer;
    - [Slider]: the debounced [handleChange] of [ParameterSlider];
    - [Select]: [handleChange] of [ParameterSelect] with [parseFloat];
    - [StoreActions]: the other actions of the store and all its requests;
    - [App]: [handleParameterChange] and [onMessage] of the page, with
      [send] of the hook;
    - [SliderTrace]: the slider over any sequence of changes and pauses,
      and its clean-up;
    - [LayoutRuns]: [calculateLayout] with the sort left to the engine;
    - [Handshake]: the hook with the closing handshake of the server. *)

From Stdlib Require Import QArith Ascii String Sorted.
From stdpp Require Import gmap strings list fin_maps pretty.

Set Warnings "-clear-no-such-hyp".

(** What a call of a JavaScript function can do: return, throw, or (in the
    model only) exhaust the fuel given to its [while] loop. *)
Inductive outcome (A : Type) : Type :=
  | Ok (a : A)
  | Throws
  | OutOfFuel.
Arguments Ok {A} a.
Arguments Throws {A}.
Arguments OutOfFuel {A}.

Definition obind {A B} (m : outcome A) (k : A → outcome B) : outcome B :=
  match m with
  | Ok a => k a
  | Throws => Throws
  | OutOfFuel => OutOfFuel
  end.

(* ===================================================================== *)
(** * The layered layout engine                                           *)
(* ===================================================================== *)
Module Layout.
Local Open Scope string_scope.
Local Open Scope list_scope.

(** [GraphNode] and [GraphEdge] of [types/index.ts]. *)
Record GraphNode := {
  id : string;
  name : string;
  inputs : list string;
  outputs : list string;
  tags : list string
}.

Record GraphEdge := {
  from_node : string;
  from_output : string;
  to_node : string;
  to_input : string
}.

Record Position := { x : Z; y : Z }.

Definition HORIZONTAL_SPACING : Z := 280.
Definition VERTICAL_SPACING : Z := 100.

(** ** Adjacency lists

    [inDegree], [outEdges] and [inEdges] are JavaScript [Map]s keyed by node
    id. *)
Record Adjacency := {
  inDegree : gmap string Z;
  outEdges : gmap string (list string);
  inEdges : gmap string (list string)
}.

(** [nodes.forEach (node => { inDegree.set(node.id, 0); ... })] *)
Definition initNode (a : Adjacency) (n : GraphNode) : Adjacency :=
  {| inDegree := <[id n := 0%Z]> (inDegree a);
     outEdges := <[id n := []]> (outEdges a);
     inEdges := <[id n := []]> (inEdges a) |}.

(** [m.get(k)?.push(v)]: pushes when the key is present, does nothing
    otherwise. *)
Definition pushAt (k v : string) (m : gmap string (list string))
  : gmap string (list string) :=
  match m !! k with
  | Some l => <[k := l ++ [v]]> m
  | None => m
  end.

(** The body of [edges.forEach]. [inDegree.get(..) || 0] makes an entry for
    a [to_node] that is not a declared node. *)
Definition addEdge (a : Adjacency) (e : GraphEdge) : Adjacency :=
  {| inDegree :=
       <[to_node e := (default 0 (inDegree a !! to_node e) + 1)%Z]> (inDegree a);
     outEdges := pushAt (from_node e) (to_node e) (outEdges a);
     inEdges := pushAt (to_node e) (from_node e) (inEdges a) |}.

Definition emptyAdjacency : Adjacency :=
  {| inDegree := ∅; outEdges := ∅; inEdges := ∅ |}.

Definition buildAdjacency (nodes : list GraphNode) (edges : list GraphEdge)
  : Adjacency :=
  foldl addEdge (foldl initNode emptyAdjacency nodes) edges.

(** ** Layering by the breadth-first sweep *)
Record Sweep := {
  layers : list (list string);
  nodeLayer : gmap string nat;
  visited : gset string;
  degree : gmap string Z
}.

(** [currentLayer.forEach (nodeId => { nodeLayer.set(nodeId, k);
    visited.add(nodeId) })] with [k = layers.length - 1]. *)
Definition markNodes (k : nat) (s : Sweep) (currentLayer : list string) : Sweep :=
  foldl (λ s nodeId,
           {| layers := layers s;
              nodeLayer := <[nodeId := k]> (nodeLayer s);
              visited := {[nodeId]} ∪ visited s;
              degree := degree s |})
        s currentLayer.

(** [layers.push(currentLayer)] followed by the marking of its nodes. *)
Definition markLayer (s : Sweep) (currentLayer : list string) : Sweep :=
  let ls := layers s ++ [currentLayer] in
  markNodes (length ls - 1)
    {| layers := ls; nodeLayer := nodeLayer s;
       visited := visited s; degree := degree s |}
    currentLayer.

(** The body of [outEdges.get(nodeId)?.forEach (targetId => ...)]: the
    remaining in-degree of an unvisited target drops by one, and the target
    joins the next layer when it reaches zero. [inDegree.get(targetId)!]
    on a missing key is [undefined]; [undefined - 1] is [NaN], which is
    stored and is never [=== 0]: the model leaves the key absent. *)
Definition relax (vis : gset string) (acc : gmap string Z * list string)
  (targetId : string) : gmap string Z * list string :=
  if decide (targetId ∈ vis) then acc
  else
    match acc.1 !! targetId with
    | Some d =>
        let remaining := (d - 1)%Z in
        (<[targetId := remaining]> acc.1,
         if decide (remaining = 0%Z) then acc.2 ++ [targetId] else acc.2)
    | None => acc
    end.

Definition relaxNode (out : gmap string (list string)) (vis : gset string)
  (acc : gmap string Z * list string) (nodeId : string)
  : gmap string Z * list string :=
  foldl (relax vis) acc (default [] (out !! nodeId)).

(** One iteration of the [while (currentLayer.length > 0)] loop. *)
Definition sweepStep (out : gmap string (list string)) (s : Sweep)
  (currentLayer : list string) : Sweep * list string :=
  let s1 := markLayer s currentLayer in
  let r := foldl (relaxNode out (visited s1)) (degree s1, []) currentLayer in
  ({| layers := layers s1; nodeLayer := nodeLayer s1;
      visited := visited s1; degree := r.1 |}, r.2).

Fixpoint sweep (fuel : nat) (out : gmap string (list string)) (s : Sweep)
  (currentLayer : list string) : outcome Sweep :=
  match currentLayer with
  | [] => Ok s
  | _ :: _ =>
      match fuel with
      | O => OutOfFuel
      | S fuel' =>
          let '(s', nextLayer) := sweepStep out s currentLayer in
          sweep fuel' out s' nextLayer
      end
  end.

(** [nodes.filter (n => inDegree.get(n.id) === 0).map (n => n.id)] *)
Definition sources (deg : gmap string Z) (nodes : list GraphNode) : list string :=
  id <$> filter (λ n, deg !! id n = Some 0%Z) nodes.

(** ** The fall-back for nodes the sweep never reached

    The body of the second [nodes.forEach]. [lastLayer] is read from
    [layers.length] at every node; [layers[lastLayer].push] throws a
    [TypeError] when that slot is [undefined]. *)
Definition fallbackNode (acc : outcome (list (list string) * gmap string nat))
  (vis : gset string) (n : GraphNode)
  : outcome (list (list string) * gmap string nat) :=
  obind acc (λ '(ls, nl),
    if decide (id n ∈ vis) then Ok (ls, nl)
    else
      let lastLayer := length ls in
      let ls1 := match ls !! lastLayer with
                 | Some _ => ls
                 | None => ls ++ [[]]
                 end in
      match ls1 !! lastLayer with
      | Some l => Ok (<[lastLayer := l ++ [id n]]> ls1, <[id n := lastLayer]> nl)
      | None => Throws
      end).

Definition fallback (vis : gset string) (nodes : list GraphNode)
  (ls : list (list string)) (nl : gmap string nat)
  : outcome (list (list string) * gmap string nat) :=
  foldl (λ acc n, fallbackNode acc vis n) (Ok (ls, nl)) nodes.

(** The layering part of [calculateLayout]: sweep from the sources, then the
    fall-back. The result keeps the set of nodes the sweep visited. *)
Definition assignLayers (fuel : nat) (adj : Adjacency) (nodes : list GraphNode)
  : outcome (list (list string) * gmap string nat * gset string) :=
  obind (sweep fuel (outEdges adj)
           {| layers := []; nodeLayer := ∅; visited := ∅;
              degree := inDegree adj |}
           (sources (inDegree adj) nodes))
    (λ s, obind (fallback (visited s) nodes (layers s) (nodeLayer s))
            (λ '(ls, nl), Ok (ls, nl, visited s))).

(** ** Barycenter ordering

    [nodeYPosition] maps a node id to its index in its layer. A barycenter
    is a quotient of two small integers; it is kept as an exact rational,
    which orders such quotients as the doubles of the program do. *)
Definition yOf (ypos : gmap string nat) (p : string) : Z :=
  Z.of_nat (default 0%nat (ypos !! p)).

(** [ns.reduce ((sum, p) => sum + (nodeYPosition.get(p) || 0), 0) / ns.length] *)
Definition average (ypos : gmap string nat) (ns : list string) : Q :=
  (inject_Z (foldl (λ sum p, (sum + yOf ypos p)%Z) 0%Z ns)
   / inject_Z (Z.of_nat (length ns)))%Q.

Definition forwardBc (inE : gmap string (list string)) (ypos : gmap string nat)
  (nodeId : string) : Q :=
  let parents := default [] (inE !! nodeId) in
  if decide (0 < length parents)%nat then average ypos parents else 0%Q.

Definition backwardBc (outE : gmap string (list string)) (ypos : gmap string nat)
  (nodeId : string) : Q :=
  let children := default [] (outE !! nodeId) in
  if decide (0 < length children)%nat then average ypos children
  else inject_Z (yOf ypos nodeId).

(** [barycenters.sort ((a, b) => a.bc - b.bc)]: [Array.prototype.sort] is
    stable, so equal barycenters keep their order. *)
Fixpoint insertBc (b : string * Q) (l : list (string * Q)) : list (string * Q) :=
  match l with
  | [] => [b]
  | c :: l' =>
      if Qle_bool b.2 c.2 then b :: c :: l' else c :: insertBc b l'
  end.

Definition sortBc (l : list (string * Q)) : list (string * Q) :=
  foldr insertBc [] l.

(** [layer.forEach ((nodeId, index) => nodeYPosition.set(nodeId, index))] *)
Definition setPositions (ypos : gmap string nat) (layer : list string)
  : gmap string nat :=
  foldl (λ m p, <[p.2 := p.1]> m) ypos (imap pair layer).

(** The body of one pass at layer [i], for the barycenter function [bc]. *)
Definition orderLayer (bc : gmap string nat → string → Q)
  (st : list (list string) * gmap string nat) (i : nat)
  : list (list string) * gmap string nat :=
  match st.1 !! i with
  | Some layer =>
      let barycenters := (λ nodeId, (nodeId, bc st.2 nodeId)) <$> layer in
      let sorted := fst <$> sortBc barycenters in
      (<[i := sorted]> st.1, setPositions st.2 sorted)
  | None => st
  end.

(** [for (let i = 1; i < layers.length; i++)] *)
Definition forwardPass (inE : gmap string (list string))
  (st : list (list string) * gmap string nat)
  : list (list string) * gmap string nat :=
  foldl (orderLayer (forwardBc inE)) st (seq 1 (length st.1 - 1)).

(** [for (let i = layers.length - 2; i >= 0; i--)] *)
Definition backwardPass (outE : gmap string (list string))
  (st : list (list string) * gmap string nat)
  : list (list string) * gmap string nat :=
  foldl (orderLayer (backwardBc outE)) st (rev (seq 0 (length st.1 - 1))).

(** ** Coordinates *)

(** [Math.max (...layers.map (l => l.length))]; [layers] is not empty where
    this is used. *)
Definition maxLayerSize (ls : list (list string)) : nat :=
  max_list (length <$> ls).

(** The body of [layers.forEach]. [maxHeight - layerHeight] is a multiple of
    100, so its half is an integer. *)
Definition placeLayer (maxSize : nat) (positions : gmap string Position)
  (p : nat * list string) : gmap string Position :=
  let '(layerIndex, layer) := p in
  let layerHeight := (Z.of_nat (length layer) * VERTICAL_SPACING)%Z in
  let maxHeight := (Z.of_nat maxSize * VERTICAL_SPACING)%Z in
  let offsetY := ((maxHeight - layerHeight) / 2)%Z in
  foldl (λ m q,
           <[q.2 := {| x := (Z.of_nat layerIndex * HORIZONTAL_SPACING)%Z;
                       y := (offsetY + Z.of_nat q.1 * VERTICAL_SPACING)%Z |}]> m)
        positions (imap pair layer).

Definition finalPositions (ls : list (list string)) : gmap string Position :=
  foldl (placeLayer (maxLayerSize ls)) ∅ (imap pair ls).

(** The layers as they stand after the two passes. *)
Definition orderedLayers (adj : Adjacency) (ls : list (list string))
  : list (list string) :=
  let ypos0 := setPositions ∅ (default [] (ls !! 0%nat)) in
  (backwardPass (outEdges adj) (forwardPass (inEdges adj) (ls, ypos0))).1.

Definition calculateLayout (fuel : nat) (nodes : list GraphNode)
  (edges : list GraphEdge) : outcome (gmap string Position) :=
  match nodes with
  | [] => Ok ∅
  | _ :: _ =>
      let adj := buildAdjacency nodes edges in
      obind (assignLayers fuel adj nodes)
        (λ '(ls, _, _), Ok (finalPositions (orderedLayers adj ls)))
  end.

(** The loop of the sweep visits a new id on every turn, so this much fuel
    is never used up. *)
Definition enoughFuel (nodes : list GraphNode) (edges : list GraphEdge) : nat :=
  S (length nodes + length edges).

(** Graphs used in the examples. *)
Definition mkNode (i : string) : GraphNode :=
  {| id := i; name := i; inputs := []; outputs := []; tags := [] |}.
Definition mkEdge (a b : string) : GraphEdge :=
  {| from_node := a; from_output := "out"; to_node := b; to_input := "in" |}.

(** ** Notions used to state the facts about the engine *)

(** The set of declared node ids. *)
Definition declared (nodes : list GraphNode) : gset string :=
  list_to_set (id <$> nodes).

(** The state of the sweep before its first turn. *)
Definition initialSweep (adj : Adjacency) : Sweep :=
  {| layers := []; nodeLayer := ∅; visited := ∅; degree := inDegree adj |}.

(** The ids that occur in a list of layers. *)
Definition layerIds (ls : list (list string)) : gset string :=
  list_to_set (mjoin ls).

(** The ids, in input order, of the nodes the sweep left unvisited. *)
Definition unvisited (vis : gset string) (nodes : list GraphNode) : list string :=
  id <$> filter (λ n, id n ∉ vis) nodes.

(** The targets of the edges leaving [u], and the sources of the edges
    entering [v], in edge order. *)
Definition targetsOf (u : string) (edges : list GraphEdge) : list string :=
  to_node <$> filter (λ e, from_node e = u) edges.

Definition sourcesOf (v : string) (edges : list GraphEdge) : list string :=
  from_node <$> filter (λ e, to_node e = v) edges.

(** Ids the sweep can reach: declared nodes and targets of edges that leave
    a declared node. *)
Definition reachable (nodes : list GraphNode) (edges : list GraphEdge)
  : gset string :=
  declared nodes ∪
  list_to_set (to_node <$> filter (λ e, from_node e ∈ declared nodes) edges).

(** Occurrences of [v] in a list of ids. *)
Definition occ (v : string) (l : list string) : nat :=
  length (filter (λ t, t = v) l).

(** All targets relaxed while a layer is processed, in order. *)
Definition relaxed (out : gmap string (list string)) (cur : list string)
  : list string :=
  cur ≫= (λ u, default [] (out !! u)).

(** Ids already in the next layer have a remaining in-degree of at most
    zero, so none is pushed twice. *)
Definition nextOk (acc : gmap string Z * list string) : Prop :=
  NoDup acc.2 ∧ ∀ w, w ∈ acc.2 → ∃ d, acc.1 !! w = Some d ∧ (d ≤ 0)%Z.

(** The layer index [nodeLayer] records for a node. *)
Definition layerOf (fuel : nat) (nodes : list GraphNode) (edges : list GraphEdge)
  (v : string) : option nat :=
  match assignLayers fuel (buildAdjacency nodes edges) nodes with
  | Ok (_, nl, _) => nl !! v
  | _ => None
  end.

(** The set of ids the sweep resolved. *)
Definition resolved (fuel : nat) (nodes : list GraphNode) (edges : list GraphEdge)
  : gset string :=
  match assignLayers fuel (buildAdjacency nodes edges) nodes with
  | Ok (_, _, vis) => vis
  | _ => ∅
  end.

(** The diamond of the specification: A -> B, A -> C, B -> D, C -> D. *)
Definition diamondNodes : list GraphNode :=
  mkNode <$> ["A"; "B"; "C"; "D"]%string.

Definition diamondEdges : list GraphEdge :=
  [mkEdge "A" "B"; mkEdge "A" "C"; mkEdge "B" "D"; mkEdge "C" "D"]%string.

(** ** [convertToReactFlow]

    The node and edge objects handed to React Flow, with the fields that
    depend on the graph. *)
Record FlowNode := {
  fn_id : string;
  fn_position : Position;
  fn_label : string;
  operatorType : string;
  fn_inputs : list string;
  fn_outputs : list string;
  fn_tags : list string;
  fn_isSelected : bool
}.

Record FlowEdge := {
  fe_id : string;
  source : string;
  sourceHandle : string;
  target : string;
  targetHandle : string;
  animated : bool;
  stroke : string;
  strokeWidth : nat;
  fe_label : string;
  fe_tensorId : string
}.

(** [s.split('_')[0]]: the text before the first underscore. *)
Fixpoint beforeUnderscore (s : string) : string :=
  match s with
  | EmptyString => EmptyString
  | String c s' =>
      if Ascii.eqb c "_" then EmptyString else String c (beforeUnderscore s')
  end.

(** [node.id.split('_')[0] || node.id]: the empty string is falsy. *)
Definition operatorTypeOf (nodeId : string) : string :=
  match beforeUnderscore nodeId with
  | EmptyString => nodeId
  | head => head
  end.

(** The body of [graph.nodes.map]; [positions.get(node.id) || { x: 0, y: 0 }]. *)
Definition flowNode (positions : gmap string Position)
  (selectedNodeId : option string) (node : GraphNode) : FlowNode :=
  {| fn_id := id node;
     fn_position := default {| x := 0; y := 0 |} (positions !! id node);
     fn_label := name node;
     operatorType := operatorTypeOf (id node);
     fn_inputs := inputs node;
     fn_outputs := outputs node;
     fn_tags := tags node;
     fn_isSelected := bool_decide (Some (id node) = selectedNodeId) |}.

(** The body of [graph.edges.map]; the index is printed in decimal. *)
Definition flowEdge (selectedTensorId : option string) (index : nat)
  (edge : GraphEdge) : FlowEdge :=
  let tensorId := from_node edge +:+ ":" +:+ from_output edge in
  let isSelected :=
    bool_decide (Some tensorId = selectedTensorId)
    || bool_decide (Some (from_output edge) = selectedTensorId)
    || bool_decide (Some (to_input edge) = selectedTensorId) in
  {| fe_id := "edge-" +:+ pretty index;
     source := from_node edge;
     sourceHandle := from_output edge;
     target := to_node edge;
     targetHandle := to_input edge;
     animated := isSelected;
     stroke := if isSelected then "#4a90d9" else "#666";
     strokeWidth := if isSelected then 2 else 1;
     fe_label := from_output edge;
     fe_tensorId := from_output edge |}.

Definition convertToReactFlow (fuel : nat) (nodes : list GraphNode)
  (edges : list GraphEdge) (selectedNodeId selectedTensorId : option string)
  : outcome (list FlowNode * list FlowEdge) :=
  obind (calculateLayout fuel nodes edges)
    (λ positions,
       Ok (flowNode positions selectedNodeId <$> nodes,
           imap (flowEdge selectedTensorId) edges)).

(** No character of [s] is an underscore. *)
Definition noUnderscore (s : string) : Prop :=
  Forall (λ c, c ≠ "_"%char) (list_ascii_of_string s).

(** The place [calculateLayout] gives to the node at index [nodeIndex] of
    the layer [layer], itself at index [layerIndex], when the largest layer
    has [maxSize] nodes. *)
Definition placeOf (maxSize layerIndex : nat) (layer : list string)
  (nodeIndex : nat) : Position :=
  {| x := (Z.of_nat layerIndex * HORIZONTAL_SPACING)%Z;
     y := ((Z.of_nat maxSize * VERTICAL_SPACING
            - Z.of_nat (length layer) * VERTICAL_SPACING) / 2
           + Z.of_nat nodeIndex * VERTICAL_SPACING)%Z |}.

(** The layers of the drawing: those of [assignLayers], each in the order
    the two barycenter passes leave it in. *)
Definition drawnLayers (fuel : nat) (nodes : list GraphNode)
  (edges : list GraphEdge) : list (list string) :=
  match assignLayers fuel (buildAdjacency nodes edges) nodes with
  | Ok (ls, _, _) => orderedLayers (buildAdjacency nodes edges) ls
  | _ => []
  end.

End Layout.

(* ===================================================================== *)
(** * JavaScript values of parameters                                     *)
(* ===================================================================== *)

(** A JavaScript number as far as the client reads one from text: [NaN], an
    infinity, or the decimal [mantissa * 10 ^ exponent] with its sign. *)
Inductive JSNumber : Type :=
  | NaN
  | Infinity (negative : bool)
  | Finite (negative : bool) (mantissa : N) (exponent : Z).

(** [number | string] *)
Inductive ParamValue : Type :=
  | PNum (n : JSNumber)
  | PStr (s : string).

Global Instance JSNumber_eq_dec : EqDecision JSNumber.
Proof. solve_decision. Defined.

Global Instance ParamValue_eq_dec : EqDecision ParamValue.
Proof. solve_decision. Defined.

(* ===================================================================== *)
(** * The synchronization store                                           *)
(* ===================================================================== *)
Module Store.
Local Open Scope string_scope.
Local Open Scope list_scope.

Inductive TensorKind := vector | matrix | image | sparse_matrix | pointcloud.

Record TensorSummary := {
  ts_id : string;
  ts_name : string;
  kind : TensorKind;
  ts_tags : list string;
  shape : list Z;
  dtype : string;
  stats : list (string * string);
  recommended_views : list string
}.

(** [Parameter] of [types/index.ts]. *)
Record Param := {
  p_name : string;
  display_name : string;
  p_discrete : bool;
  p_default : ParamValue;
  p_description : string
}.

Record ScenarioInfo := {
  si_id : string;
  si_name : string;
  si_description : string
}.

Record ScenarioDetail := {
  sd_id : string;
  sd_name : string;
  sd_description : string;
  sd_parameters : list Param;
  sd_graph : option (list Layout.GraphNode * list Layout.GraphEdge)
}.

Record RunScenarioResponse := {
  scenario_id : string;
  r_parameters : gmap string ParamValue;
  r_tensors : gmap string TensorSummary
}.

Record Toast := {
  toast_id : string;
  toast_error : bool;
  message : string
}.

(** The data fields of [TensorscapeState]. *)
Record State := {
  scenarios : list ScenarioInfo;
  currentScenario : option ScenarioDetail;
  isLoadingScenarios : bool;
  isLoadingScenario : bool;
  isRunningScenario : bool;
  scenarioError : option string;
  tensors : gmap string TensorSummary;
  selectedTensorId : option string;
  parameters : gmap string ParamValue;
  isUpdatingParams : bool;
  toasts : list Toast;
  sidebarCollapsed : bool
}.

Definition initialState : State :=
  {| scenarios := []; currentScenario := None;
     isLoadingScenarios := false; isLoadingScenario := false;
     isRunningScenario := false; scenarioError := None;
     tensors := ∅; selectedTensorId := None; parameters := ∅;
     isUpdatingParams := false; toasts := []; sidebarCollapsed := false |}.

(** [set({ field: value })] for the fields the actions below write. *)
Definition set_currentScenario (v : option ScenarioDetail) (st : State) : State :=
  {| scenarios := scenarios st; currentScenario := v;
     isLoadingScenarios := isLoadingScenarios st;
     isLoadingScenario := isLoadingScenario st;
     isRunningScenario := isRunningScenario st;
     scenarioError := scenarioError st; tensors := tensors st;
     selectedTensorId := selectedTensorId st; parameters := parameters st;
     isUpdatingParams := isUpdatingParams st; toasts := toasts st;
     sidebarCollapsed := sidebarCollapsed st |}.

Definition set_isLoadingScenario (v : bool) (st : State) : State :=
  {| scenarios := scenarios st; currentScenario := currentScenario st;
     isLoadingScenarios := isLoadingScenarios st;
     isLoadingScenario := v;
     isRunningScenario := isRunningScenario st;
     scenarioError := scenarioError st; tensors := tensors st;
     selectedTensorId := selectedTensorId st; parameters := parameters st;
     isUpdatingParams := isUpdatingParams st; toasts := toasts st;
     sidebarCollapsed := sidebarCollapsed st |}.

Definition set_isRunningScenario (v : bool) (st : State) : State :=
  {| scenarios := scenarios st; currentScenario := currentScenario st;
     isLoadingScenarios := isLoadingScenarios st;
     isLoadingScenario := isLoadingScenario st;
     isRunningScenario := v;
     scenarioError := scenarioError st; tensors := tensors st;
     selectedTensorId := selectedTensorId st; parameters := parameters st;
     isUpdatingParams := isUpdatingParams st; toasts := toasts st;
     sidebarCollapsed := sidebarCollapsed st |}.

Definition set_scenarioError (v : option string) (st : State) : State :=
  {| scenarios := scenarios st; currentScenario := currentScenario st;
     isLoadingScenarios := isLoadingScenarios st;
     isLoadingScenario := isLoadingScenario st;
     isRunningScenario := isRunningScenario st;
     scenarioError := v; tensors := tensors st;
     selectedTensorId := selectedTensorId st; parameters := parameters st;
     isUpdatingParams := isUpdatingParams st; toasts := toasts st;
     sidebarCollapsed := sidebarCollapsed st |}.

Definition set_tensors (v : gmap string TensorSummary) (st : State) : State :=
  {| scenarios := scenarios st; currentScenario := currentScenario st;
     isLoadingScenarios := isLoadingScenarios st;
     isLoadingScenario := isLoadingScenario st;
     isRunningScenario := isRunningScenario st;
     scenarioError := scenarioError st; tensors := v;
     selectedTensorId := selectedTensorId st; parameters := parameters st;
     isUpdatingParams := isUpdatingParams st; toasts := toasts st;
     sidebarCollapsed := sidebarCollapsed st |}.

Definition set_selectedTensorId (v : option string) (st : State) : State :=
  {| scenarios := scenarios st; currentScenario := currentScenario st;
     isLoadingScenarios := isLoadingScenarios st;
     isLoadingScenario := isLoadingScenario st;
     isRunningScenario := isRunningScenario st;
     scenarioError := scenarioError st; tensors := tensors st;
     selectedTensorId := v; parameters := parameters st;
     isUpdatingParams := isUpdatingParams st; toasts := toasts st;
     sidebarCollapsed := sidebarCollapsed st |}.

Definition set_parameters (v : gmap string ParamValue) (st : State) : State :=
  {| scenarios := scenarios st; currentScenario := currentScenario st;
     isLoadingScenarios := isLoadingScenarios st;
     isLoadingScenario := isLoadingScenario st;
     isRunningScenario := isRunningScenario st;
     scenarioError := scenarioError st; tensors := tensors st;
     selectedTensorId := selectedTensorId st; parameters := v;
     isUpdatingParams := isUpdatingParams st; toasts := toasts st;
     sidebarCollapsed := sidebarCollapsed st |}.

Definition set_toasts (v : list Toast) (st : State) : State :=
  {| scenarios := scenarios st; currentScenario := currentScenario st;
     isLoadingScenarios := isLoadingScenarios st;
     isLoadingScenario := isLoadingScenario st;
     isRunningScenario := isRunningScenario st;
     scenarioError := scenarioError st; tensors := tensors st;
     selectedTensorId := selectedTensorId st; parameters := parameters st;
     isUpdatingParams := isUpdatingParams st; toasts := v;
     sidebarCollapsed := sidebarCollapsed st |}.

(** ** Synchronous actions *)

(** [set((state) => ({ tensors: { ...state.tensors, [id]: summary } }))] *)
Definition updateTensor (id : string) (summary : TensorSummary) (st : State)
  : State :=
  set_tensors (<[id := summary]> (tensors st)) st.

(** [set({ tensors })] *)
Definition setTensors (ts : gmap string TensorSummary) (st : State) : State :=
  set_tensors ts st.

Definition updateParameter (name : string) (value : ParamValue) (st : State)
  : State :=
  set_parameters (<[name := value]> (parameters st)) st.

Definition selectTensor (id : option string) (st : State) : State :=
  set_selectedTensorId id st.

Definition clearScenario (st : State) : State :=
  set_selectedTensorId None
    (set_tensors ∅ (set_parameters ∅ (set_currentScenario None st))).

(** [addToast]; the fresh toast id comes from the clock and the random
    generator, here from the caller. *)
Definition addToast (fresh : string) (msg : string) (st : State) : State :=
  set_toasts (toasts st ++ [{| toast_id := fresh; toast_error := true;
                                message := msg |}]) st.

(** ** Asynchronous actions

    An [async] action runs up to its [await], where it leaves a request in
    flight; the rest of its body runs when the request settles. *)
Inductive Request :=
  | FetchScenario (id : string)
  | RunScenario (id : string) (params : gmap string ParamValue).

Global Instance Request_eq_dec : EqDecision Request.
Proof. solve_decision. Defined.

Record System := {
  store : State;
  inflight : list Request
}.

(** [runCurrentScenario] up to [await runScenario(currentScenario.id,
    { parameters })]. *)
Definition runStart (sys : System) : System :=
  match currentScenario (store sys) with
  | None => sys
  | Some cur =>
      {| store := set_isRunningScenario true (store sys);
         inflight := inflight sys ++
                       [RunScenario (sd_id cur) (parameters (store sys))] |}
  end.

(** [set({ tensors: response.tensors, isRunningScenario: false })], the rest
    of the [try] block of [runCurrentScenario]. *)
Definition runFulfilled (response : RunScenarioResponse) (st : State) : State :=
  set_isRunningScenario false (set_tensors (r_tensors response) st).

(** The [catch] block of [runCurrentScenario]. *)
Definition runRejected (fresh msg : string) (st : State) : State :=
  addToast fresh msg (set_isRunningScenario false st).

(** [selectScenario] up to [await fetchScenario(id)]. *)
Definition selectStart (id : string) (sys : System) : System :=
  {| store := set_scenarioError None (set_isLoadingScenario true (store sys));
     inflight := inflight sys ++ [FetchScenario id] |}.

(** [defaultParams[param.name] = param.default] on a plain object: the
    name [__proto__] is the setter of the prototype, which ignores a number
    or a string and stores nothing; every other name becomes a property. *)
Definition assignDefault (m : gmap string ParamValue) (p : Param)
  : gmap string ParamValue :=
  if decide (p_name p = "__proto__") then m
  else <[p_name p := p_default p]> m.

(** [scenario.parameters.forEach (param => defaultParams[param.name] =
    param.default)] *)
Definition defaultParams (ps : list Param) : gmap string ParamValue :=
  foldl assignDefault ∅ ps.

(** The rest of the [try] block of [selectScenario]: the [set] of the new
    scenario, then [get().runCurrentScenario()] up to its own [await]. *)
Definition selectFulfilled (scenario : ScenarioDetail) (sys : System) : System :=
  runStart
    {| store :=
         set_selectedTensorId None
           (set_tensors ∅
              (set_isLoadingScenario false
                 (set_parameters (defaultParams (sd_parameters scenario))
                    (set_currentScenario (Some scenario) (store sys)))));
       inflight := inflight sys |}.

(** The [catch] block of [selectScenario]. *)
Definition selectRejected (fresh msg : string) (st : State) : State :=
  addToast fresh msg (set_isLoadingScenario false (set_scenarioError (Some msg) st)).

Fixpoint removeFirst (r : Request) (l : list Request) : list Request :=
  match l with
  | [] => []
  | r' :: l' => if decide (r = r') then l' else r' :: removeFirst r l'
  end.

(** What can happen to the store: a call of an action, or the settling of a
    request in flight. *)
Inductive Event :=
  | CallSelectScenario (id : string)
  | CallRunCurrentScenario
  | CallUpdateTensor (id : string) (summary : TensorSummary)
  | CallSetTensors (ts : gmap string TensorSummary)
  | FetchFulfilled (id : string) (scenario : ScenarioDetail)
  | FetchRejected (id : string) (fresh msg : string)
  | RunFulfilled (id : string) (params : gmap string ParamValue)
      (response : RunScenarioResponse)
  | RunRejected (id : string) (params : gmap string ParamValue)
      (fresh msg : string).

Definition onStore (f : State → State) (sys : System) : System :=
  {| store := f (store sys); inflight := inflight sys |}.

(** A request settles only while it is in flight. *)
Definition settle (r : Request) (k : System → System) (sys : System) : System :=
  if decide (r ∈ inflight sys)
  then k {| store := store sys; inflight := removeFirst r (inflight sys) |}
  else sys.

Definition step (sys : System) (ev : Event) : System :=
  match ev with
  | CallSelectScenario id => selectStart id sys
  | CallRunCurrentScenario => runStart sys
  | CallUpdateTensor id summary => onStore (updateTensor id summary) sys
  | CallSetTensors ts => onStore (setTensors ts) sys
  | FetchFulfilled id scenario =>
      settle (FetchScenario id) (selectFulfilled scenario) sys
  | FetchRejected id fresh msg =>
      settle (FetchScenario id) (onStore (selectRejected fresh msg)) sys
  | RunFulfilled id params response =>
      settle (RunScenario id params) (onStore (runFulfilled response)) sys
  | RunRejected id params fresh msg =>
      settle (RunScenario id params) (onStore (runRejected fresh msg)) sys
  end.

Definition run (sys : System) (evs : list Event) : System :=
  foldl step sys evs.

(** The id of the current scenario, [currentScenario?.id]. *)
Definition currentId (st : State) : option string :=
  sd_id <$> currentScenario st.

(** ** A scenario switch used in the examples *)

Definition summaryOf (i : string) : TensorSummary :=
  {| ts_id := i; ts_name := i; kind := matrix; ts_tags := []; shape := [2; 2]%Z;
     dtype := "float64"; stats := []; recommended_views := [] |}.

Definition scenarioOf (i : string) : ScenarioDetail :=
  {| sd_id := i; sd_name := i; sd_description := "scenario"; sd_parameters := [];
     sd_graph := None |}.

Definition responseOf (i t : string) : RunScenarioResponse :=
  {| scenario_id := i; r_parameters := ∅;
     r_tensors := {[ t := summaryOf t ]} |}.

(** Scenario A is selected and its first run is in flight; then B is
    selected and fetched. *)
Definition switchedToB : System :=
  run {| store := initialState; inflight := [] |}
    [CallSelectScenario "A"; FetchFulfilled "A" (scenarioOf "A");
     CallSelectScenario "B"; FetchFulfilled "B" (scenarioOf "B")].

End Store.

(* ===================================================================== *)
(** * The connection manager                                              *)
(* ===================================================================== *)
Module Connection.
Local Open Scope list_scope.

(** [readyState] of a [WebSocket]. *)
Inductive ReadyState := CONNECTING | OPEN | CLOSING | CLOSED.

Global Instance ReadyState_eq_dec : EqDecision ReadyState.
Proof. solve_decision. Defined.

(** The refs and state of one [useWebSocket] hook, with the part of the
    browser it talks to: every [WebSocket] it has made, by order of
    creation, and the timers that are still to fire. A timer id is a
    positive integer; the id in [reconnectTimeoutRef] stays there after the
    timer has fired. *)
Record Hook := {
  sockets : list ReadyState;
  wsRef : option nat;
  reconnectAttemptsRef : nat;
  reconnectTimeoutRef : option nat;
  isConnected : bool;
  timers : list nat;
  timerCount : nat
}.

Definition initialHook : Hook :=
  {| sockets := []; wsRef := None; reconnectAttemptsRef := 0;
     reconnectTimeoutRef := None; isConnected := false;
     timers := []; timerCount := 0 |}.

(** [wsRef.current?.readyState] *)
Definition currentReadyState (h : Hook) : option ReadyState :=
  i ← wsRef h; sockets h !! i.

(** [connect]: return when the current socket is open or connecting,
    otherwise make a new [WebSocket] and keep it in [wsRef]. *)
Definition connect (h : Hook) : Hook :=
  match currentReadyState h with
  | Some OPEN | Some CONNECTING => h
  | _ =>
      {| sockets := sockets h ++ [CONNECTING];
         wsRef := Some (length (sockets h));
         reconnectAttemptsRef := reconnectAttemptsRef h;
         reconnectTimeoutRef := reconnectTimeoutRef h;
         isConnected := isConnected h;
         timers := timers h;
         timerCount := timerCount h |}
  end.

(** [ws.onopen] of socket [i], after the browser has opened it. *)
Definition onopen (i : nat) (h : Hook) : Hook :=
  {| sockets := <[i := OPEN]> (sockets h);
     wsRef := wsRef h;
     reconnectAttemptsRef := 0;
     reconnectTimeoutRef := reconnectTimeoutRef h;
     isConnected := true;
     timers := timers h;
     timerCount := timerCount h |}.

(** [ws.onclose] of socket [i], after the browser has closed it:
    [setTimeout(connect, reconnectInterval)] while the attempts are below
    the cap. *)
Definition onclose (maxReconnectAttempts : nat) (i : nat) (h : Hook) : Hook :=
  if decide (reconnectAttemptsRef h < maxReconnectAttempts) then
    let t := S (timerCount h) in
    {| sockets := <[i := CLOSED]> (sockets h);
       wsRef := wsRef h;
       reconnectAttemptsRef := S (reconnectAttemptsRef h);
       reconnectTimeoutRef := Some t;
       isConnected := false;
       timers := timers h ++ [t];
       timerCount := t |}
  else
    {| sockets := <[i := CLOSED]> (sockets h);
       wsRef := wsRef h;
       reconnectAttemptsRef := reconnectAttemptsRef h;
       reconnectTimeoutRef := reconnectTimeoutRef h;
       isConnected := false;
       timers := timers h;
       timerCount := timerCount h |}.

(** [clearTimeout(t)] *)
Definition clearTimeout (t : nat) (h : Hook) : Hook :=
  {| sockets := sockets h; wsRef := wsRef h;
     reconnectAttemptsRef := reconnectAttemptsRef h;
     reconnectTimeoutRef := reconnectTimeoutRef h;
     isConnected := isConnected h;
     timers := filter (λ t', t' ≠ t) (timers h);
     timerCount := timerCount h |}.

(** [ws.close()]: an open or connecting socket starts closing, and its
    close event comes later. *)
Definition closeSocket (i : nat) (h : Hook) : Hook :=
  match sockets h !! i with
  | Some OPEN | Some CONNECTING =>
      {| sockets := <[i := CLOSING]> (sockets h); wsRef := wsRef h;
         reconnectAttemptsRef := reconnectAttemptsRef h;
         reconnectTimeoutRef := reconnectTimeoutRef h;
         isConnected := isConnected h;
         timers := timers h; timerCount := timerCount h |}
  | _ => h
  end.

(** The clean-up of the effect:
    [if (reconnectTimeoutRef.current) clearTimeout(..); wsRef.current?.close()] *)
Definition cleanup (h : Hook) : Hook :=
  let h1 := match reconnectTimeoutRef h with
            | Some (S t) => clearTimeout (S t) h
            | _ => h
            end in
  match wsRef h1 with
  | Some i => closeSocket i h1
  | None => h1
  end.

(** What happens to the hook: the effect runs or is cleaned up, the browser
    opens or closes a socket, a timer fires. An event that cannot happen
    (a socket that is not connecting cannot open, a closed one cannot close
    again, a cleared timer does not fire) changes nothing. *)
Inductive Event :=
  | Mount
  | Unmount
  | Opened (i : nat)
  | Closed (i : nat)
  | TimerFired (t : nat).

Definition step (maxReconnectAttempts : nat) (h : Hook) (ev : Event) : Hook :=
  match ev with
  | Mount => connect h
  | Unmount => cleanup h
  | Opened i =>
      match sockets h !! i with
      | Some CONNECTING => onopen i h
      | _ => h
      end
  | Closed i =>
      match sockets h !! i with
      | Some CLOSED | None => h
      | Some _ => onclose maxReconnectAttempts i h
      end
  | TimerFired t =>
      if decide (t ∈ timers h)
      then connect (clearTimeout t h)
      else h
  end.

Definition run (maxReconnectAttempts : nat) (h : Hook) (evs : list Event) : Hook :=
  foldl (step maxReconnectAttempts) h evs.

(** The default of [maxReconnectAttempts]. *)
Definition defaultMaxReconnectAttempts : nat := 10.

(** One immediate disconnect: the pending reconnection timer, if any, fires
    and the socket then current is closed before it opens. *)
Definition disconnect (maxReconnectAttempts : nat) (h : Hook) : Hook :=
  let h1 := match timers h with
            | t :: _ => step maxReconnectAttempts h (TimerFired t)
            | [] => h
            end in
  match wsRef h1 with
  | Some i => step maxReconnectAttempts h1 (Closed i)
  | None => h1
  end.

(** The hook after mounting and a successful connection. *)
Definition connectedHook (maxReconnectAttempts : nat) : Hook :=
  run maxReconnectAttempts initialHook [Mount; Opened 0].

(** Nothing is left that could change the hook by itself: no timer to fire,
    no socket that could still open or close. *)
Definition quiescent (h : Hook) : Prop :=
  timers h = [] ∧ Forall (λ r, r = CLOSED) (sockets h).

(** The hook after [k] immediate disconnects in a row, below the cap. *)
Definition afterDisconnects (k : nat) : Hook :=
  {| sockets := replicate k CLOSED; wsRef := Some (k - 1);
     reconnectAttemptsRef := k; reconnectTimeoutRef := Some k;
     isConnected := false; timers := [k]; timerCount := k |}.

(** The hook once the cap has stopped the reconnection. *)
Definition givenUp (maxReconnectAttempts : nat) : Hook :=
  {| sockets := replicate (S maxReconnectAttempts) CLOSED;
     wsRef := Some maxReconnectAttempts;
     reconnectAttemptsRef := maxReconnectAttempts;
     reconnectTimeoutRef :=
       match maxReconnectAttempts with 0 => None | S _ => Some maxReconnectAttempts end;
     isConnected := false; timers := []; timerCount := maxReconnectAttempts |}.

End Connection.

(* ===================================================================== *)
(** * The debounced slider                                                *)
(* ===================================================================== *)
Module Slider.
Local Open Scope list_scope.

(** The default of [debounceMs]. *)
Definition defaultDebounceMs : nat := 150.

Section slider.
(** The values of the slider; the component parses them with
    [parseFloat]. *)
Context {V : Type}.

(** A timer set by [setTimeout (() => onChange(newValue), debounceMs)]. *)
Record Timer := {
  timer_id : nat;
  deadline : nat;
  payload : V
}.

(** The component between renders, with the clock in milliseconds, the
    timers still to fire, and the values [onChange] has been called with. *)
Record Slider := {
  localValue : V;
  debounceRef : option nat;
  now : nat;
  timers : list Timer;
  timerCount : nat;
  sent : list V
}.

Definition clearTimeout (t : nat) (s : Slider) : Slider :=
  {| localValue := localValue s; debounceRef := debounceRef s;
     now := now s;
     timers := filter (λ tm, timer_id tm ≠ t) (timers s);
     timerCount := timerCount s; sent := sent s |}.

(** [handleChange]: the local value is set at once, the timer of the
    previous change is cleared and a new one is set. The effect that copies
    the prop [value] into the local value runs only when the parent changes
    the prop, which it does after a call of [onChange]. *)
Definition handleChange (debounceMs : nat) (newValue : V) (s : Slider) : Slider :=
  let s1 := match debounceRef s with
            | Some (S t) => clearTimeout (S t) s
            | _ => s
            end in
  let t := S (timerCount s1) in
  {| localValue := newValue;
     debounceRef := Some t;
     now := now s1;
     timers := timers s1 ++ [{| timer_id := t;
                                deadline := now s1 + debounceMs;
                                payload := newValue |}];
     timerCount := t;
     sent := sent s1 |}.

(** [ms] milliseconds pass: the timers that are due fire, in the order
    they were set, each calling [onChange] with its value. *)
Definition advance (ms : nat) (s : Slider) : Slider :=
  let t := now s + ms in
  {| localValue := localValue s; debounceRef := debounceRef s;
     now := t;
     timers := filter (λ tm, t < deadline tm) (timers s);
     timerCount := timerCount s;
     sent := sent s ++ (payload <$> filter (λ tm, deadline tm ≤ t) (timers s)) |}.

(** A burst: a first change, then changes that each come [gap]
    milliseconds after the one before. *)
Definition burst (debounceMs : nat) (s : Slider) (first : V)
  (rest : list (nat * V)) : Slider :=
  foldl (λ s p, handleChange debounceMs p.2 (advance p.1 s))
        (handleChange debounceMs first s) rest.

(** The value of the last change of a burst. *)
Definition lastValue (first : V) (rest : list (nat * V)) : V :=
  default first (last (first :: rest.*2)).
(** Every pending timer is the one [debounceRef] holds. *)
Definition owned (s : Slider) : Prop :=
  ∀ tm, tm ∈ timers s → ∃ t, timer_id tm = S t ∧ debounceRef s = Some (S t).

(** One timer is pending: it carries [v], is due a full window after [now],
    and [debounceRef] holds it. *)
Definition armed (debounceMs : nat) (v : V) (sent0 : list V) (s : Slider)
  : Prop :=
  ∃ t, timers s = [{| timer_id := S t; deadline := now s + debounceMs;
                      payload := v |}] ∧
       debounceRef s = Some (S t) ∧ sent s = sent0 ∧ localValue s = v.

End slider.

Arguments Timer : clear implicits.
Arguments Slider : clear implicits.

(** A slider at rest showing 0. *)
Definition restingSlider : Slider nat :=
  {| localValue := 0; debounceRef := None; now := 0; timers := [];
     timerCount := 0; sent := [] |}.

End Slider.

(* ===================================================================== *)
(** * The select control for discrete parameters                          *)
(* ===================================================================== *)
Module Select.
Local Open Scope list_scope.

(** ** [parseFloat]

    The text of an option is read as ASCII. [parseFloat] skips leading
    white space and reads the longest prefix that is a
    [StrDecimalLiteral]: a sign, then [Infinity] or decimal digits with an
    optional fraction and an optional exponent; with no such prefix the
    result is [NaN]. *)
Definition isWhiteSpace (c : Ascii.ascii) : bool :=
  let n := N_of_ascii c in
  ((9 <=? n) && (n <=? 13) || (n =? 32))%N.

Definition digitValue (c : Ascii.ascii) : option N :=
  let n := N_of_ascii c in
  if ((48 <=? n) && (n <=? 57))%N then Some (n - 48)%N else None.

Fixpoint skipWhiteSpace (s : string) : string :=
  match s with
  | String c s' => if isWhiteSpace c then skipWhiteSpace s' else s
  | EmptyString => s
  end.

(** The longest run of decimal digits at the head of [s], and the rest. *)
Fixpoint digits (s : string) : list N * string :=
  match s with
  | String c s' =>
      match digitValue c with
      | Some d => let '(ds, r) := digits s' in (d :: ds, r)
      | None => ([], s)
      end
  | EmptyString => ([], s)
  end.

Definition decimalValue (ds : list N) : N :=
  foldl (λ acc d, 10 * acc + d)%N 0%N ds.

Definition sign (s : string) : bool * string :=
  match s with
  | String c r =>
      if Ascii.eqb c "-" then (true, r)
      else if Ascii.eqb c "+" then (false, r)
      else (false, s)
  | EmptyString => (false, s)
  end.

(** [ExponentPart], worth 0 when it is absent or has no digit. *)
Definition exponentPart (s : string) : Z :=
  match s with
  | String c r =>
      if Ascii.eqb c "e" || Ascii.eqb c "E" then
        let '(neg, r1) := sign r in
        match (digits r1).1 with
        | [] => 0%Z
        | ds => if neg then (- Z.of_N (decimalValue ds))%Z
                else Z.of_N (decimalValue ds)
        end
      else 0%Z
  | EmptyString => 0%Z
  end.

(** Digits with no fraction: [DecimalDigits ExponentPart?]. *)
Definition integerLiteral (neg : bool) (ip : list N) (rest : string) : JSNumber :=
  match ip with
  | [] => NaN
  | _ => Finite neg (decimalValue ip) (exponentPart rest)
  end.

(** Digits around a dot, of which one side may be empty:
    [DecimalDigits . DecimalDigits? ExponentPart?] or
    [. DecimalDigits ExponentPart?]. *)
Definition fractionLiteral (neg : bool) (ip : list N) (afterDot : string)
  : JSNumber :=
  let '(fp, rest) := digits afterDot in
  match ip, fp with
  | [], [] => NaN
  | _, _ =>
      Finite neg (decimalValue (ip ++ fp))
             (exponentPart rest - Z.of_nat (length fp))
  end.

Definition parseFloat (input : string) : JSNumber :=
  let '(neg, s1) := sign (skipWhiteSpace input) in
  if String.prefix "Infinity" s1 then Infinity neg
  else
    let '(ip, s2) := digits s1 in
    match s2 with
    | String c r =>
        if Ascii.eqb c "." then fractionLiteral neg ip r
        else integerLiteral neg ip s2
    | EmptyString => integerLiteral neg ip s2
    end.

(** The global [isNaN] on a number. *)
Definition isNaN (n : JSNumber) : bool :=
  match n with
  | NaN => true
  | _ => false
  end.

(** [handleChange] of [ParameterSelect], as the value it passes to
    [onChange]; [rawValue] is [e.target.value], the text of the option. *)
Definition handleChange (rawValue : string) : ParamValue :=
  let numValue := parseFloat rawValue in
  if negb (isNaN numValue) then PNum numValue else PStr rawValue.

End Select.

(* ===================================================================== *)
(** * The other actions of the store                                      *)
(* ===================================================================== *)
Module StoreActions.
Import Store.
Local Open Scope list_scope.

Definition set_scenarios (v : list ScenarioInfo) (st : State) : State :=
  {| scenarios := v; currentScenario := currentScenario st;
     isLoadingScenarios := isLoadingScenarios st;
     isLoadingScenario := isLoadingScenario st;
     isRunningScenario := isRunningScenario st;
     scenarioError := scenarioError st; tensors := tensors st;
     selectedTensorId := selectedTensorId st; parameters := parameters st;
     isUpdatingParams := isUpdatingParams st; toasts := toasts st;
     sidebarCollapsed := sidebarCollapsed st |}.

Definition set_isLoadingScenarios (v : bool) (st : State) : State :=
  {| scenarios := scenarios st; currentScenario := currentScenario st;
     isLoadingScenarios := v;
     isLoadingScenario := isLoadingScenario st;
     isRunningScenario := isRunningScenario st;
     scenarioError := scenarioError st; tensors := tensors st;
     selectedTensorId := selectedTensorId st; parameters := parameters st;
     isUpdatingParams := isUpdatingParams st; toasts := toasts st;
     sidebarCollapsed := sidebarCollapsed st |}.

Definition set_isUpdatingParams (v : bool) (st : State) : State :=
  {| scenarios := scenarios st; currentScenario := currentScenario st;
     isLoadingScenarios := isLoadingScenarios st;
     isLoadingScenario := isLoadingScenario st;
     isRunningScenario := isRunningScenario st;
     scenarioError := scenarioError st; tensors := tensors st;
     selectedTensorId := selectedTensorId st; parameters := parameters st;
     isUpdatingParams := v; toasts := toasts st;
     sidebarCollapsed := sidebarCollapsed st |}.

Definition set_sidebarCollapsed (v : bool) (st : State) : State :=
  {| scenarios := scenarios st; currentScenario := currentScenario st;
     isLoadingScenarios := isLoadingScenarios st;
     isLoadingScenario := isLoadingScenario st;
     isRunningScenario := isRunningScenario st;
     scenarioError := scenarioError st; tensors := tensors st;
     selectedTensorId := selectedTensorId st; parameters := parameters st;
     isUpdatingParams := isUpdatingParams st; toasts := toasts st;
     sidebarCollapsed := v |}.

(** [loadScenarios] up to [await fetchScenarios()]. *)
Definition loadStart (st : State) : State :=
  set_scenarioError None (set_isLoadingScenarios true st).

(** [set({ scenarios, isLoadingScenarios: false })] *)
Definition loadFulfilled (l : list ScenarioInfo) (st : State) : State :=
  set_isLoadingScenarios false (set_scenarios l st).

(** The [catch] block of [loadScenarios]. *)
Definition loadRejected (msg : string) (st : State) : State :=
  set_isLoadingScenarios false (set_scenarioError (Some msg) st).

(** [toasts: state.toasts.filter((t) => t.id !== id)] *)
Definition removeToast (id : string) (st : State) : State :=
  set_toasts (filter (λ t, toast_id t ≠ id) (toasts st)) st.

Definition setUpdatingParams (updating : bool) (st : State) : State :=
  set_isUpdatingParams updating st.

Definition toggleSidebar (st : State) : State :=
  set_sidebarCollapsed (negb (sidebarCollapsed st)) st.

Definition setSidebarCollapsed (collapsed : bool) (st : State) : State :=
  set_sidebarCollapsed collapsed st.

(** A scenario with parameters, one of them under the name [__proto__]. *)
Definition paramOf (n : string) (d : ParamValue) : Param :=
  {| p_name := n; display_name := n; p_discrete := false; p_default := d;
     p_description := "parameter" |}.

Definition tunedScenario : ScenarioDetail :=
  {| sd_id := "T"; sd_name := "T"; sd_description := "scenario";
     sd_parameters := [paramOf "rank" (PNum (Finite false 3 0));
                       paramOf "mode" (PStr "fast");
                       paramOf "__proto__" (PStr "x")];
     sd_graph := None |}.

(** The store with all its requests: those of [Store.System], and the
    number of [fetchScenarios()] calls in flight. *)
Record Client := {
  sys : System;
  loads : nat
}.

Definition initialClient : Client :=
  {| sys := {| store := initialState; inflight := [] |}; loads := 0 |}.

(** Every call of an action of the store and every settling of a request. *)
Inductive Action :=
  | Base (ev : Event)
  | CallLoadScenarios
  | ScenariosFulfilled (l : list ScenarioInfo)
  | ScenariosRejected (msg : string)
  | CallClearScenario
  | CallUpdateParameter (name : string) (value : ParamValue)
  | CallSelectTensor (id : option string)
  | CallSetUpdatingParams (updating : bool)
  | CallRemoveToast (id : string)
  | CallToggleSidebar
  | CallSetSidebarCollapsed (collapsed : bool).

Definition onSys (f : State → State) (c : Client) : Client :=
  {| sys := onStore f (sys c); loads := loads c |}.

Definition act (c : Client) (a : Action) : Client :=
  match a with
  | Base ev => {| sys := step (sys c) ev; loads := loads c |}
  | CallLoadScenarios =>
      {| sys := onStore loadStart (sys c); loads := S (loads c) |}
  | ScenariosFulfilled l =>
      match loads c with
      | O => c
      | S n => {| sys := onStore (loadFulfilled l) (sys c); loads := n |}
      end
  | ScenariosRejected msg =>
      match loads c with
      | O => c
      | S n => {| sys := onStore (loadRejected msg) (sys c); loads := n |}
      end
  | CallClearScenario => onSys clearScenario c
  | CallUpdateParameter name value => onSys (updateParameter name value) c
  | CallSelectTensor id => onSys (selectTensor id) c
  | CallSetUpdatingParams updating => onSys (setUpdatingParams updating) c
  | CallRemoveToast id => onSys (removeToast id) c
  | CallToggleSidebar => onSys toggleSidebar c
  | CallSetSidebarCollapsed collapsed => onSys (setSidebarCollapsed collapsed) c
  end.

Definition acts (c : Client) (l : list Action) : Client := foldl act c l.

(** No loading flag is up without a request of its kind in flight. *)
Definition flagsBacked (c : Client) : Prop :=
  (isLoadingScenarios (store (sys c)) = true → 0 < loads c) ∧
  (isLoadingScenario (store (sys c)) = true →
   ∃ id, FetchScenario id ∈ inflight (sys c)) ∧
  (isRunningScenario (store (sys c)) = true →
   ∃ id params, RunScenario id params ∈ inflight (sys c)).

End StoreActions.

(* ===================================================================== *)
(** * The page: store and connection together                            *)
(* ===================================================================== *)
Module App.
Local Open Scope list_scope.

(** [WSClientMessage] and the server messages [App] dispatches on. *)
Inductive WSClientMessage :=
  | Subscribe (tensor_id : string) (view : option string)
  | Unsubscribe (tensor_id : string)
  | UpdateParam (scenario_id param : string) (value : ParamValue).

Inductive WSServerMessage :=
  | TensorUpdate (tensor_id : string) (summary : Store.TensorSummary)
  | TensorsUpdate (tensors : gmap string Store.TensorSummary)
  | GraphUpdate (nodes : list Layout.GraphNode) (edges : list Layout.GraphEdge)
  | ErrorMessage (message : string).

(** The page: its store, its [useWebSocket] hook, what each socket was
    given to send, the number of messages [send] dropped with a warning,
    and [isUpdatingRef]. *)
Record Page := {
  store : Store.State;
  hook : Connection.Hook;
  outbox : list (nat * WSClientMessage);
  dropped : nat;
  isUpdatingRef : bool
}.

(** [send]: the message goes to the current socket when it is open, and is
    dropped with a warning otherwise. *)
Definition send (message : WSClientMessage) (pg : Page) : Page :=
  match Connection.wsRef (hook pg), Connection.currentReadyState (hook pg) with
  | Some i, Some Connection.OPEN =>
      {| store := store pg; hook := hook pg;
         outbox := outbox pg ++ [(i, message)];
         dropped := dropped pg; isUpdatingRef := isUpdatingRef pg |}
  | _, _ =>
      {| store := store pg; hook := hook pg; outbox := outbox pg;
         dropped := S (dropped pg); isUpdatingRef := isUpdatingRef pg |}
  end.

Definition subscribe (tensorId : string) (view : option string) (pg : Page) : Page :=
  send (Subscribe tensorId view) pg.

Definition unsubscribe (tensorId : string) (pg : Page) : Page :=
  send (Unsubscribe tensorId) pg.

Definition updateParam (scenarioId param : string) (value : ParamValue)
  (pg : Page) : Page :=
  send (UpdateParam scenarioId param value) pg.

Definition onStore (f : Store.State → Store.State) (pg : Page) : Page :=
  {| store := f (store pg); hook := hook pg; outbox := outbox pg;
     dropped := dropped pg; isUpdatingRef := isUpdatingRef pg |}.

(** The effect of the hook is run again, as when [connect] changes: its
    clean-up, then [connect]. *)
Definition rerunEffect (maxReconnectAttempts : nat) (pg : Page) : Page :=
  {| store := store pg;
     hook := Connection.run maxReconnectAttempts (hook pg)
               [Connection.Unmount; Connection.Mount];
     outbox := outbox pg; dropped := dropped pg;
     isUpdatingRef := isUpdatingRef pg |}.

Definition set_isUpdatingRef (b : bool) (pg : Page) : Page :=
  {| store := store pg; hook := hook pg; outbox := outbox pg;
     dropped := dropped pg; isUpdatingRef := b |}.

(** [onMessage] of [App]. *)
Definition onMessage (message : WSServerMessage) (pg : Page) : Page :=
  match message with
  | TensorUpdate tensor_id summary =>
      set_isUpdatingRef false (onStore (Store.updateTensor tensor_id summary) pg)
  | TensorsUpdate tensors =>
      set_isUpdatingRef false (onStore (Store.setTensors tensors) pg)
  | ErrorMessage _ => set_isUpdatingRef false pg
  | GraphUpdate _ _ => pg
  end.

(** [handleParameterChange] of [App], as the callback a render made:
    [useCallback] keeps the values of [isConnected] and [currentScenario]
    that render saw, and the body reads those; [updateParameter] and [send]
    act on the store and the socket as they are when the callback is
    called. *)
Definition handleParameterChangeOf (isConnected : bool)
  (currentScenario : option Store.ScenarioDetail)
  (name : string) (value : ParamValue) (pg : Page) : Page :=
  let pg1 := onStore (Store.updateParameter name value) pg in
  match isConnected, currentScenario with
  | true, Some currentScenario =>
      updateParam (Store.sd_id currentScenario) name value
        (set_isUpdatingRef true pg1)
  | _, _ => pg1
  end.

(** [handleParameterChange] called in the render that made it: what the
    callback kept is what the hook and the store hold. *)
Definition handleParameterChange (name : string) (value : ParamValue)
  (pg : Page) : Page :=
  let pg1 := onStore (Store.updateParameter name value) pg in
  match Connection.isConnected (hook pg1), Store.currentScenario (store pg1) with
  | true, Some currentScenario =>
      updateParam (Store.sd_id currentScenario) name value
        (set_isUpdatingRef true pg1)
  | _, _ => pg1
  end.

(** The hook of a component after [Mount] and the events [evs]. *)
Definition mountedHook (maxReconnectAttempts : nat) (evs : list Connection.Event)
  : Connection.Hook :=
  Connection.run maxReconnectAttempts Connection.initialHook
    (Connection.Mount :: evs).

End App.

(* ===================================================================== *)
(** * The slider over any sequence of changes                             *)
(* ===================================================================== *)
Module SliderTrace.
Import Slider.
Local Open Scope list_scope.

Section trace.
Context {V : Type}.

(** The clean-up of the component:
    [if (debounceRef.current) clearTimeout(debounceRef.current)] *)
Definition unmount (s : Slider V) : Slider V :=
  match debounceRef s with
  | Some (S t) => clearTimeout (S t) s
  | _ => s
  end.

(** The user moves the slider, or time passes. *)
Inductive Event :=
  | Change (v : V)
  | Wait (ms : nat).

Definition step (debounceMs : nat) (s : Slider V) (ev : Event) : Slider V :=
  match ev with
  | Change v => handleChange debounceMs v s
  | Wait ms => advance ms s
  end.

Definition run (debounceMs : nat) (s : Slider V) (evs : list Event) : Slider V :=
  foldl (step debounceMs) s evs.

(** The values the user picked, in order. *)
Definition changes (evs : list Event) : list V :=
  evs ≫= (λ ev, match ev with Change v => [v] | Wait _ => [] end).
End trace.

Arguments Event : clear implicits.

End SliderTrace.

(* ===================================================================== *)
(** * Invariants, runs and example pages                                  *)
(* ===================================================================== *)
Module LayoutInv.
Import Layout.

(** What every turn of the sweep keeps, on a graph with distinct node ids. *)
Record sweepInv (nodes : list GraphNode) (edges : list GraphEdge)
    (s : Sweep) (cur : list string) : Prop := {
  inv_visited : visited s = layerIds (layers s);
  inv_nodup : NoDup (mjoin (layers s) ++ cur);
  inv_degree : ∀ w, w ∉ visited s →
    degree s !! w =
    (λ d, d - Z.of_nat (occ w (relaxed (outEdges (buildAdjacency nodes edges))
                                  (mjoin (layers s)))))%Z
      <$> inDegree (buildAdjacency nodes edges) !! w;
  inv_index : ∀ w j, nodeLayer s !! w = Some j ↔
                     ∃ l, layers s !! j = Some l ∧ w ∈ l;
  inv_pending : ∀ e, e ∈ edges → to_node e ∈ cur → from_node e ∈ visited s;
  inv_edges : ∀ e, e ∈ edges → to_node e ∈ visited s →
    ∃ i j, nodeLayer s !! from_node e = Some i ∧
           nodeLayer s !! to_node e = Some j ∧ i < j
}.

End LayoutInv.

(** The runs of the engine. The one step of [calculateLayout] the program
    leaves to the JavaScript engine is [barycenters.sort]; a run of the
    layout is what the program computes when every call of [sort] returns
    some result the language allows. *)
Module LayoutRuns.
Import Layout.

(** The entries whose barycenter is [k]. *)
Definition sameBc (k : Q) (b : string * Q) : Prop := Is_true (Qeq_bool b.2 k).

Global Instance sameBc_dec k b : Decision (sameBc k b).
Proof. unfold sameBc. apply _. Defined.

(** What the language promises of [barycenters.sort ((a, b) => a.bc - b.bc)]
    whatever algorithm the engine uses, the compare function being
    consistent: the result is in non-decreasing order of [bc], and the sort
    is stable, so the entries of each value of [bc] are those of the input,
    in the order of the input. *)
Definition sortsTo (l l' : list (string * Q)) : Prop :=
  StronglySorted (λ a b, (a.2 <= b.2)%Q) l' ∧
  ∀ k, filter (sameBc k) l' = filter (sameBc k) l.





End LayoutRuns.

Module ConnectionInv.
Import Connection.

Global Instance Event_eq_dec : EqDecision Event.
Proof. solve_decision. Defined.

Definition live (r : ReadyState) : Prop := r = OPEN ∨ r = CONNECTING.

(** What the hook keeps whatever happens to it: a socket that is open or
    connecting is the one in [wsRef]. *)
Record liveInv (h : Hook) : Prop := {
  live_current : ∀ i r, sockets h !! i = Some r → live r → wsRef h = Some i;
  live_bound : ∀ i, wsRef h = Some i → i < length (sockets h)
}.

End ConnectionInv.

(** The closing handshake. Besides the events of [Connection], the server
    can start to close an open socket: its [readyState] is then [CLOSING],
    and no handler of the hook runs before the close event. *)
Module Handshake.
Import Connection ConnectionInv.
Local Open Scope list_scope.

Definition startClosing (i : nat) (h : Hook) : Hook :=
  match sockets h !! i with
  | Some OPEN =>
      {| sockets := <[i := CLOSING]> (sockets h); wsRef := wsRef h;
         reconnectAttemptsRef := reconnectAttemptsRef h;
         reconnectTimeoutRef := reconnectTimeoutRef h;
         isConnected := isConnected h;
         timers := timers h; timerCount := timerCount h |}
  | _ => h
  end.

Inductive Event :=
  | OfHook (ev : Connection.Event)
  | ClosingStarted (i : nat).

Global Instance Event_eq_dec : EqDecision Event.
Proof. solve_decision. Defined.

Definition step (maxReconnectAttempts : nat) (h : Hook) (ev : Event) : Hook :=
  match ev with
  | OfHook ev => Connection.step maxReconnectAttempts h ev
  | ClosingStarted i => startClosing i h
  end.

Definition run (maxReconnectAttempts : nat) (h : Hook) (evs : list Event) : Hook :=
  foldl (step maxReconnectAttempts) h evs.

(** The component was mounted once and is still mounted: after [Mount],
    only the browser, the server and the timers act on the hook. *)
Definition staysMounted (evs : list Event) : Prop :=
  (OfHook Mount ∉ evs) ∧ (OfHook Unmount ∉ evs).

Definition mountedHook (maxReconnectAttempts : nat) (evs : list Event) : Hook :=
  run maxReconnectAttempts initialHook (OfHook Mount :: evs).

(** What the hook keeps while its component stays mounted. *)
Record mountedInv (maxReconnectAttempts : nat) (h : Hook) : Prop := {
  m_others : ∀ i r, sockets h !! i = Some r → wsRef h ≠ Some i → r = CLOSED;
  m_current : ∃ r, currentReadyState h = Some r;
  m_connected : isConnected h = true ↔
                currentReadyState h = Some OPEN ∨
                currentReadyState h = Some CLOSING;
  m_timers : timers h = [] ∨
             ∃ t, timers h = [t] ∧ currentReadyState h = Some CLOSED;
  m_attempts : reconnectAttemptsRef h ≤ maxReconnectAttempts
}.

End Handshake.

(** Pages used in the examples: scenario B is loaded and the socket of the
    mounted hook has opened; and the same page after that socket closed. *)
Module Pages.

Definition connectedPage : App.Page :=
  {| App.store := Store.store Store.switchedToB;
     App.hook := Handshake.mountedHook Connection.defaultMaxReconnectAttempts
                   [Handshake.OfHook (Connection.Opened 0)];
     App.outbox := []; App.dropped := 0; App.isUpdatingRef := false |}.

Definition closedPage : App.Page :=
  {| App.store := Store.store Store.switchedToB;
     App.hook := Handshake.run Connection.defaultMaxReconnectAttempts
                   (Handshake.mountedHook
                      Connection.defaultMaxReconnectAttempts
                      [Handshake.OfHook (Connection.Opened 0)])
                   [Handshake.OfHook (Connection.Closed 0)];
     App.outbox := []; App.dropped := 0; App.isUpdatingRef := false |}.

End Pages.

Module SelectText.
Import Select.

Fixpoint allWhiteSpace (s : string) : bool :=
  match s with
  | String c s' => isWhiteSpace c && allWhiteSpace s'
  | EmptyString => true
  end.

(** A text that cannot continue a decimal integer: it is empty, or starts
    with a character that is no digit, no dot and no exponent mark. *)
Definition endsInteger (rest : string) : Prop :=
  match rest with
  | EmptyString => True
  | String c _ =>
      digitValue c = None ∧ c ≠ "."%char ∧ c ≠ "e"%char ∧ c ≠ "E"%char
  end.

(** [Number.MAX_SAFE_INTEGER], 2^53 - 1: up to it every integer is a
    double, so that its decimal text is read back without rounding, and
    [String] prints it in plain decimal. *)
Definition MAX_SAFE_INTEGER : Z := 9007199254740991.

End SelectText.

(* ===================================================================== *)
(** * A general lemma                                                     *)
(* ===================================================================== *)

(** An invariant of the accumulator of a left fold. *)
Lemma foldl_inv {A B} (P : A → Prop) (f : A → B → A) (l : list B) (a : A) :
  P a → (∀ a b, b ∈ l → P a → P (f a b)) → P (foldl f a l).
Proof.
  revert a. induction l as [|b l IH]; intros a Ha Hstep; simpl; [done|].
  apply IH.
  - apply Hstep; [left | done].
  - intros a' b' Hb'. apply Hstep. by right.
Qed.

(* ===================================================================== *)
(** * Facts about the layout engine                                       *)
(* ===================================================================== *)
Module LayoutFacts.
Import Layout.

Lemma elem_of_layerIds (v : string) (ls : list (list string)) :
  v ∈ layerIds ls ↔ ∃ l, l ∈ ls ∧ v ∈ l.
Proof.
  unfold layerIds. rewrite elem_of_list_to_set, list_elem_of_join.
  naive_solver.
Qed.

Lemma layerIds_app (ls1 ls2 : list (list string)) :
  layerIds (ls1 ++ ls2) = layerIds ls1 ∪ layerIds ls2.
Proof. unfold layerIds. by rewrite join_app, list_to_set_app_L. Qed.

Lemma layerIds_singleton (l : list string) : layerIds [l] = list_to_set l.
Proof. unfold layerIds. simpl. by rewrite app_nil_r. Qed.

(** ** Marking a layer *)
Lemma markNodes_layers k s cur : layers (markNodes k s cur) = layers s.
Proof.
  unfold markNodes. revert s. induction cur as [|c cur IH]; intros s; simpl; [done|].
  by rewrite IH.
Qed.

Lemma markNodes_degree k s cur : degree (markNodes k s cur) = degree s.
Proof.
  unfold markNodes. revert s. induction cur as [|c cur IH]; intros s; simpl; [done|].
  by rewrite IH.
Qed.

Lemma markNodes_visited k s cur :
  visited (markNodes k s cur) = list_to_set cur ∪ visited s.
Proof.
  unfold markNodes. revert s. induction cur as [|c cur IH]; intros s; simpl.
  - set_solver.
  - rewrite IH. simpl. set_solver.
Qed.

Lemma markNodes_nodeLayer k s cur v :
  nodeLayer (markNodes k s cur) !! v =
  if decide (v ∈ cur) then Some k else nodeLayer s !! v.
Proof.
  unfold markNodes. revert s. induction cur as [|c cur IH]; intros s; simpl.
  - done.
  - rewrite IH. simpl. destruct (decide (v = c)) as [->|Hne].
    + rewrite lookup_insert_eq. rewrite (decide_True (P := c ∈ c :: cur)); [|by left].
      by case_decide.
    + rewrite lookup_insert_ne; [|done].
      destruct (decide (v ∈ cur)) as [Hin|Hnin].
      * rewrite decide_True; [done | by right].
      * rewrite decide_False; [done|]. rewrite elem_of_cons. tauto.
Qed.

Lemma markLayer_layers s cur : layers (markLayer s cur) = layers s ++ [cur].
Proof. unfold markLayer. by rewrite markNodes_layers. Qed.

Lemma markLayer_visited s cur :
  visited (markLayer s cur) = list_to_set cur ∪ visited s.
Proof. unfold markLayer. by rewrite markNodes_visited. Qed.

Lemma markLayer_degree s cur : degree (markLayer s cur) = degree s.
Proof. unfold markLayer. by rewrite markNodes_degree. Qed.

Lemma markLayer_nodeLayer s cur v :
  nodeLayer (markLayer s cur) !! v =
  if decide (v ∈ cur) then Some (length (layers s)) else nodeLayer s !! v.
Proof.
  unfold markLayer. rewrite markNodes_nodeLayer. simpl.
  rewrite length_app. simpl. by replace (length (layers s) + 1 - 1) with (length (layers s)) by lia.
Qed.

(** ** The next layer *)
Lemma relax_next vis acc t x :
  x ∈ (relax vis acc t).2 → x ∈ acc.2 ∨ (x = t ∧ t ∉ vis).
Proof.
  unfold relax. destruct (decide (t ∈ vis)) as [|Hn]; [by left|].
  destruct (acc.1 !! t) as [d|]; [|by left]. simpl.
  case_decide; [|by left].
  rewrite elem_of_app, list_elem_of_singleton. naive_solver.
Qed.

Lemma relaxNode_next out vis acc u x :
  x ∈ (relaxNode out vis acc u).2 →
  x ∈ acc.2 ∨ (x ∈ default [] (out !! u) ∧ x ∉ vis).
Proof.
  unfold relaxNode.
  apply (foldl_inv (λ a, x ∈ a.2 → x ∈ acc.2 ∨ (x ∈ default [] (out !! u) ∧ x ∉ vis))).
  - by left.
  - intros a t Ht IH Hx. apply relax_next in Hx as [Hx | [-> Hv]]; [by apply IH|].
    by right.
Qed.

Lemma sweepStep_next out s cur x :
  x ∈ (sweepStep out s cur).2 →
  (x ∉ visited (sweepStep out s cur).1) ∧
  (∃ u, u ∈ cur ∧ x ∈ default [] (out !! u)).
Proof.
  unfold sweepStep. simpl.
  apply (foldl_inv (λ a, x ∈ a.2 → (x ∉ visited (markLayer s cur)) ∧
                          (∃ u, u ∈ cur ∧ x ∈ default [] (out !! u)))).
  - simpl. intros H. by apply elem_of_nil in H.
  - intros a u Hu IH Hx. apply relaxNode_next in Hx as [Hx | [Hx Hv]]; [by apply IH|].
    split; [done|]. by exists u.
Qed.

Lemma sweepStep_visited out s cur :
  visited (sweepStep out s cur).1 = list_to_set cur ∪ visited s.
Proof. unfold sweepStep. simpl. apply markLayer_visited. Qed.

Lemma sweepStep_layers out s cur :
  layers (sweepStep out s cur).1 = layers s ++ [cur].
Proof. unfold sweepStep. simpl. apply markLayer_layers. Qed.

Lemma sweepStep_nodeLayer out s cur v :
  nodeLayer (sweepStep out s cur).1 !! v =
  if decide (v ∈ cur) then Some (length (layers s)) else nodeLayer s !! v.
Proof. unfold sweepStep. simpl. apply markLayer_nodeLayer. Qed.

(** ** Invariants and termination of the sweep *)

Lemma sweep_cons fuel out s c cur :
  sweep (S fuel) out s (c :: cur) =
  sweep fuel out (sweepStep out s (c :: cur)).1 (sweepStep out s (c :: cur)).2.
Proof. cbn [sweep]. by destruct (sweepStep out s (c :: cur)). Qed.

(** A property of the loop state that every turn keeps holds at the exit. *)
Lemma sweep_inv (P : Sweep → list string → Prop) fuel out s cur s' :
  (∀ s cur, cur ≠ [] → P s cur →
            P (sweepStep out s cur).1 (sweepStep out s cur).2) →
  P s cur → sweep fuel out s cur = Ok s' → P s' [].
Proof.
  intros Hstep. revert s cur.
  induction fuel as [|fuel IH]; intros s cur HP Hrun.
  - destruct cur; simpl in Hrun; [by simplify_eq | done].
  - destruct cur as [|c cur]; [simpl in Hrun; by simplify_eq|].
    rewrite sweep_cons in Hrun.
    eapply IH; [|done]. by apply Hstep.
Qed.

(** Every turn of the loop visits an id of the finite universe [U] that was
    not visited before, so [size U + 1] turns are never all used. *)
Lemma sweep_terminates (U : gset string) out fuel s cur :
  (∀ u l x, out !! u = Some l → x ∈ l → x ∈ U) →
  list_to_set cur ⊆ U →
  list_to_set cur ## visited s →
  size (U ∖ visited s) < fuel →
  ∃ s', sweep fuel out s cur = Ok s'.
Proof.
  intros Hout. revert s cur.
  induction fuel as [|fuel IH]; intros s cur HU Hdisj Hfuel; [lia|].
  destruct cur as [|c cur]; [by eexists|].
  rewrite sweep_cons.
  pose proof (sweepStep_visited out s (c :: cur)) as Hv.
  pose proof (sweepStep_next out s (c :: cur)) as H.
  destruct (sweepStep out s (c :: cur)) as [s1 next]. simpl in *.
  assert (Hnext : ∀ x, x ∈ next → (x ∉ visited s1) ∧ x ∈ U).
  { intros x Hx. destruct (H x Hx) as [Hnv (u & Hu & Hxu)].
    split; [done|].
    destruct (out !! u) as [l|] eqn:El; simpl in Hxu; [by eapply Hout|].
    by apply elem_of_nil in Hxu. }
  apply IH.
  - intros x Hx. apply elem_of_list_to_set in Hx. by apply Hnext.
  - intros x Hx Hx'. apply elem_of_list_to_set in Hx. by apply Hnext in Hx as [? _].
  - assert (U ∖ visited s1 ⊂ U ∖ visited s) as Hsub.
    { rewrite Hv. split; [set_solver|]. intros Hc.
      assert (c ∈ U ∖ visited s) as Hcin by set_solver.
      apply Hc in Hcin. set_solver. }
    apply subset_size in Hsub. lia.
Qed.

(** ** The fall-back never throws and gives every unvisited node a layer of
    its own *)
Lemma fallback_cons vis n nodes ls nl :
  fallback vis (n :: nodes) ls nl =
  if decide (id n ∈ vis) then fallback vis nodes ls nl
  else fallback vis nodes (ls ++ [[id n]]) (<[id n := length ls]> nl).
Proof.
  unfold fallback. simpl. destruct (decide (id n ∈ vis)); [done|].
  rewrite (lookup_ge_None_2 ls (length ls)); [|lia].
  rewrite list_lookup_middle; [|done].
  rewrite insert_app_r_alt; [|lia].
  by replace (length ls - length ls) with 0 by lia.
Qed.

Lemma unvisited_cons vis n nodes :
  unvisited vis (n :: nodes) =
  if decide (id n ∈ vis) then unvisited vis nodes
  else id n :: unvisited vis nodes.
Proof.
  unfold unvisited. rewrite filter_cons.
  destruct (decide (id n ∈ vis)).
  - rewrite decide_False; [done|]. tauto.
  - by rewrite decide_True.
Qed.

Lemma elem_of_unvisited vis nodes v :
  v ∈ unvisited vis nodes ↔ v ∈ id <$> nodes ∧ v ∉ vis.
Proof.
  unfold unvisited. rewrite !list_elem_of_fmap. split.
  - intros (n & -> & Hn). apply list_elem_of_filter in Hn as [? ?]. eauto.
  - intros [(n & -> & Hn) Hv]. exists n. split; [done|].
    by apply list_elem_of_filter.
Qed.

Lemma fallback_layers vis nodes ls nl :
  ∃ nl', fallback vis nodes ls nl =
         Ok (ls ++ ((λ v, [v]) <$> unvisited vis nodes), nl').
Proof.
  revert ls nl. induction nodes as [|n nodes IH]; intros ls nl.
  - exists nl. unfold fallback, unvisited. simpl. by rewrite app_nil_r.
  - rewrite fallback_cons, unvisited_cons.
    destruct (decide (id n ∈ vis)); [apply IH|].
    destruct (IH (ls ++ [[id n]]) (<[id n := length ls]> nl)) as [nl' ->].
    exists nl'. simpl. by rewrite <- app_assoc.
Qed.

(** The layer index the fall-back records for a node is the place of the
    one-element layer made for it; visited nodes keep what the sweep gave. *)
Lemma fallback_nodeLayer vis nodes ls nl ls' nl' (v : string) :
  fallback vis nodes ls nl = Ok (ls', nl') →
  if decide (v ∈ unvisited vis nodes)
  then ∃ k : nat, nl' !! v = Some k ∧ (length ls ≤ k)%nat ∧ ls' !! k = Some [v]
  else nl' !! v = nl !! v.
Proof.
  revert ls nl. induction nodes as [|n nodes IH]; intros ls nl Hf.
  - unfold fallback in Hf. simpl in Hf. simplify_eq.
    rewrite decide_False; [done|]. rewrite elem_of_unvisited. simpl.
    rewrite elem_of_nil. tauto.
  - rewrite fallback_cons in Hf. rewrite unvisited_cons.
    destruct (decide (id n ∈ vis)) as [Hin|Hnin]; [by apply IH|].
    specialize (IH _ _ Hf).
    destruct (decide (v ∈ unvisited vis nodes)) as [Hv|Hv].
    + rewrite decide_True; [|by right].
      destruct IH as (k & Hk & Hle & Hl). exists k.
      rewrite length_app in Hle. simpl in Hle. split_and!; [done|lia|done].
    + destruct (decide (v = id n)) as [->|Hne].
      * rewrite decide_True; [|by left].
        exists (length ls). rewrite IH, lookup_insert_eq. split_and!; [done|lia|].
        destruct (fallback_layers vis nodes (ls ++ [[id n]]) (<[id n:=length ls]> nl))
          as [nl2 Hf2].
        rewrite Hf in Hf2. simplify_eq.
        rewrite <- app_assoc. by apply list_lookup_middle.
      * rewrite decide_False; [|rewrite elem_of_cons; tauto].
        by rewrite IH, lookup_insert_ne.
Qed.

(** ** Sorting by barycenter permutes a layer *)
Lemma insertBc_perm b l : insertBc b l ≡ₚ b :: l.
Proof.
  induction l as [|c l IH]; simpl; [done|].
  destruct (Qle_bool b.2 c.2); [done|].
  rewrite IH. apply Permutation_swap.
Qed.

Lemma sortBc_perm l : sortBc l ≡ₚ l.
Proof.
  unfold sortBc. induction l as [|b l IH]; simpl; [done|].
  by rewrite insertBc_perm, IH.
Qed.

Lemma fst_tagged {B} (f : string → B) (l : list string) :
  fst <$> ((λ v, (v, f v)) <$> l) = l.
Proof. induction l as [|a l IH]; simpl; [done | by f_equal]. Qed.

Lemma Forall2_perm_refl (ls : list (list string)) : Forall2 (≡ₚ) ls ls.
Proof. induction ls; by constructor. Qed.

Lemma orderLayer_perm bc st i :
  Forall2 (≡ₚ) st.1 (orderLayer bc st i).1.
Proof.
  unfold orderLayer. destruct (st.1 !! i) as [layer|] eqn:E; simpl.
  - rewrite <- (list_insert_id st.1 i layer) at 1; [|done].
    apply Forall2_insert; [apply Forall2_perm_refl|].
    by rewrite sortBc_perm, fst_tagged.
  - apply Forall2_perm_refl.
Qed.

Lemma Forall2_perm_trans (l1 l2 l3 : list (list string)) :
  Forall2 (≡ₚ) l1 l2 → Forall2 (≡ₚ) l2 l3 → Forall2 (≡ₚ) l1 l3.
Proof.
  intros H. revert l3. induction H as [|a b l1 l2 Hab H IH]; intros l3 H3.
  - by inversion H3.
  - inversion H3 as [|? c ? l3' Hbc H3']; subst. constructor; [by etrans | by apply IH].
Qed.

Lemma passes_perm bc (idxs : list nat) st :
  Forall2 (≡ₚ) st.1 (foldl (orderLayer bc) st idxs).1.
Proof.
  revert st. induction idxs as [|i idxs IH]; intros st; simpl.
  - apply Forall2_perm_refl.
  - eapply Forall2_perm_trans; [apply (orderLayer_perm bc st i) | apply IH].
Qed.

Lemma orderedLayers_perm adj ls : Forall2 (≡ₚ) ls (orderedLayers adj ls).
Proof.
  unfold orderedLayers, backwardPass, forwardPass.
  eapply Forall2_perm_trans; [|apply passes_perm].
  apply (passes_perm _ _ (ls, _)).
Qed.

Lemma layerIds_perm (ls ls' : list (list string)) :
  Forall2 (≡ₚ) ls ls' → layerIds ls = layerIds ls'.
Proof.
  induction 1 as [|a b ls ls' Hab H IH].
  - done.
  - change (a :: ls) with ([a] ++ ls). change (b :: ls') with ([b] ++ ls').
    rewrite !layerIds_app, !layerIds_singleton, IH.
    f_equal. apply set_eq. intros v. by rewrite !elem_of_list_to_set, Hab.
Qed.

(** ** The keys of the position map *)
Lemma dom_placeNodes (g : nat * string → Position) (qs : list (nat * string))
  (m : gmap string Position) :
  dom (foldl (λ m q, <[q.2 := g q]> m) m qs) = dom m ∪ list_to_set (qs.*2).
Proof.
  revert m. induction qs as [|q qs IH]; intros m; simpl.
  - set_solver.
  - rewrite IH, dom_insert_L. set_solver.
Qed.

Lemma snd_imap_shift {A} (l : list A) (k : nat) :
  (imap (λ i a, (k + i, a)) l).*2 = l.
Proof.
  revert k. induction l as [|a l IH]; intros k; [done|].
  rewrite imap_cons. simpl. f_equal.
  rewrite <- (IH (S k)) at 2. f_equal. apply imap_ext. intros i b _. simpl.
  f_equal. lia.
Qed.

Lemma snd_imap_pair {A} (l : list A) : (imap pair l).*2 = l.
Proof. exact (snd_imap_shift l 0). Qed.

Lemma dom_placeLayer maxSize m i layer :
  dom (placeLayer maxSize m (i, layer)) = dom m ∪ list_to_set layer.
Proof.
  unfold placeLayer.
  rewrite (dom_placeNodes (λ q, {| x := _; y := _ |})).
  by rewrite snd_imap_pair.
Qed.

Lemma dom_placeLayers maxSize (ps : list (nat * list string)) m :
  dom (foldl (placeLayer maxSize) m ps) = dom m ∪ layerIds (ps.*2).
Proof.
  revert m. induction ps as [|[i layer] ps IH]; intros m.
  - unfold layerIds. simpl. set_solver.
  - cbn [foldl]. rewrite IH, dom_placeLayer, fmap_cons. cbn [snd].
    change (layer :: ps.*2) with ([layer] ++ ps.*2).
    rewrite layerIds_app, layerIds_singleton. set_solver.
Qed.

Lemma dom_finalPositions ls : dom (finalPositions ls) = layerIds ls.
Proof.
  unfold finalPositions. rewrite dom_placeLayers, snd_imap_pair.
  set_solver.
Qed.

(** ** What the adjacency maps hold *)

Lemma init_inDegree nodes a v :
  inDegree (foldl initNode a nodes) !! v =
  if decide (v ∈ declared nodes) then Some 0%Z else inDegree a !! v.
Proof.
  unfold declared. revert a. induction nodes as [|n nodes IH]; intros a; simpl.
  - rewrite decide_False; [done|]. set_solver.
  - rewrite IH. simpl. destruct (decide (v ∈ list_to_set (id <$> nodes))) as [Hin|Hnin].
    + rewrite decide_True; [done|]. set_solver.
    + destruct (decide (v = id n)) as [->|Hne].
      * rewrite lookup_insert_eq, decide_True; [done|]. set_solver.
      * rewrite lookup_insert_ne, decide_False; [done| |done]. set_solver.
Qed.

Lemma init_outEdges nodes a v :
  outEdges (foldl initNode a nodes) !! v =
  if decide (v ∈ declared nodes) then Some [] else outEdges a !! v.
Proof.
  unfold declared. revert a. induction nodes as [|n nodes IH]; intros a; simpl.
  - rewrite decide_False; [done|]. set_solver.
  - rewrite IH. simpl. destruct (decide (v ∈ list_to_set (id <$> nodes))) as [Hin|Hnin].
    + rewrite decide_True; [done|]. set_solver.
    + destruct (decide (v = id n)) as [->|Hne].
      * rewrite lookup_insert_eq, decide_True; [done|]. set_solver.
      * rewrite lookup_insert_ne, decide_False; [done| |done]. set_solver.
Qed.

Lemma init_inEdges nodes a v :
  inEdges (foldl initNode a nodes) !! v =
  if decide (v ∈ declared nodes) then Some [] else inEdges a !! v.
Proof.
  unfold declared. revert a. induction nodes as [|n nodes IH]; intros a; simpl.
  - rewrite decide_False; [done|]. set_solver.
  - rewrite IH. simpl. destruct (decide (v ∈ list_to_set (id <$> nodes))) as [Hin|Hnin].
    + rewrite decide_True; [done|]. set_solver.
    + destruct (decide (v = id n)) as [->|Hne].
      * rewrite lookup_insert_eq, decide_True; [done|]. set_solver.
      * rewrite lookup_insert_ne, decide_False; [done| |done]. set_solver.
Qed.

Lemma pushAt_lookup k v m u :
  pushAt k v m !! u =
  if decide (u = k) then (λ l, l ++ [v]) <$> m !! u else m !! u.
Proof.
  unfold pushAt. destruct (decide (u = k)) as [->|Hne].
  - destruct (m !! k) as [l|] eqn:E; simpl; [by rewrite lookup_insert_eq | by rewrite E].
  - destruct (m !! k) as [l|] eqn:E; [by rewrite lookup_insert_ne | done].
Qed.

Lemma targetsOf_cons u e edges :
  targetsOf u (e :: edges) =
  if decide (from_node e = u) then to_node e :: targetsOf u edges
  else targetsOf u edges.
Proof. unfold targetsOf. rewrite filter_cons. by case_decide. Qed.

Lemma sourcesOf_cons v e edges :
  sourcesOf v (e :: edges) =
  if decide (to_node e = v) then from_node e :: sourcesOf v edges
  else sourcesOf v edges.
Proof. unfold sourcesOf. rewrite filter_cons. by case_decide. Qed.

Lemma edges_outEdges edges a u :
  outEdges (foldl addEdge a edges) !! u =
  (λ l, l ++ targetsOf u edges) <$> outEdges a !! u.
Proof.
  revert a. induction edges as [|e edges IH]; intros a; simpl.
  - destruct (outEdges a !! u); simpl; [|done]. by rewrite app_nil_r.
  - rewrite IH, targetsOf_cons. simpl. rewrite pushAt_lookup.
    destruct (decide (u = from_node e)) as [->|Hne].
    + rewrite decide_True; [|done].
      destruct (outEdges a !! from_node e); simpl; [|done]. by rewrite <- app_assoc.
    + by rewrite decide_False.
Qed.

Lemma edges_inEdges edges a v :
  inEdges (foldl addEdge a edges) !! v =
  (λ l, l ++ sourcesOf v edges) <$> inEdges a !! v.
Proof.
  revert a. induction edges as [|e edges IH]; intros a; simpl.
  - destruct (inEdges a !! v); simpl; [|done]. by rewrite app_nil_r.
  - rewrite IH, sourcesOf_cons. simpl. rewrite pushAt_lookup.
    destruct (decide (v = to_node e)) as [->|Hne].
    + rewrite decide_True; [|done].
      destruct (inEdges a !! to_node e); simpl; [|done]. by rewrite <- app_assoc.
    + by rewrite decide_False.
Qed.

Lemma edges_inDegree edges a v :
  inDegree (foldl addEdge a edges) !! v =
  match sourcesOf v edges with
  | [] => inDegree a !! v
  | l => Some (default 0 (inDegree a !! v) + Z.of_nat (length l))%Z
  end.
Proof.
  revert a. induction edges as [|e edges IH]; intros a; simpl; [done|].
  rewrite IH, sourcesOf_cons. simpl.
  destruct (decide (to_node e = v)) as [<-|Hne].
  - rewrite lookup_insert_eq. simpl.
    destruct (sourcesOf (to_node e) edges) as [|x l]; simpl.
    + f_equal.
    + f_equal. lia.
  - by rewrite lookup_insert_ne.
Qed.

Lemma adjacency_outEdges nodes edges u :
  outEdges (buildAdjacency nodes edges) !! u =
  if decide (u ∈ declared nodes) then Some (targetsOf u edges) else None.
Proof.
  unfold buildAdjacency. rewrite edges_outEdges, init_outEdges.
  by case_decide.
Qed.

Lemma adjacency_inEdges nodes edges v :
  inEdges (buildAdjacency nodes edges) !! v =
  if decide (v ∈ declared nodes) then Some (sourcesOf v edges) else None.
Proof.
  unfold buildAdjacency. rewrite edges_inEdges, init_inEdges.
  by case_decide.
Qed.

Lemma adjacency_inDegree nodes edges v :
  v ∈ declared nodes →
  inDegree (buildAdjacency nodes edges) !! v =
  Some (Z.of_nat (length (sourcesOf v edges))).
Proof.
  intros Hv. unfold buildAdjacency. rewrite edges_inDegree, init_inDegree.
  rewrite decide_True; [|done]. by destruct (sourcesOf v edges).
Qed.

Lemma elem_of_targetsOf x u edges :
  x ∈ targetsOf u edges ↔ ∃ e, e ∈ edges ∧ from_node e = u ∧ to_node e = x.
Proof.
  unfold targetsOf. rewrite list_elem_of_fmap. split.
  - intros (e & -> & He). apply list_elem_of_filter in He. naive_solver.
  - intros (e & He & Hf & <-). exists e. split; [done|]. by apply list_elem_of_filter.
Qed.

Lemma elem_of_sourcesOf x v edges :
  x ∈ sourcesOf v edges ↔ ∃ e, e ∈ edges ∧ to_node e = v ∧ from_node e = x.
Proof.
  unfold sourcesOf. rewrite list_elem_of_fmap. split.
  - intros (e & -> & He). apply list_elem_of_filter in He. naive_solver.
  - intros (e & He & Hf & <-). exists e. split; [done|]. by apply list_elem_of_filter.
Qed.

(** ** The sweep on the adjacency of a graph *)

Lemma size_list_to_set_le (l : list string) :
  size (list_to_set l : gset string) ≤ length l.
Proof.
  induction l as [|a l IH].
  - change (list_to_set [] : gset string) with (∅ : gset string).
    rewrite size_empty. simpl. lia.
  - rewrite list_to_set_cons, size_union_alt, size_singleton. simpl.
    assert (size (list_to_set l ∖ {[a]} : gset string) ≤ size (list_to_set l : gset string)).
    { apply subseteq_size. set_solver. }
    lia.
Qed.

Lemma size_reachable nodes edges :
  size (reachable nodes edges) < enoughFuel nodes edges.
Proof.
  unfold reachable, enoughFuel, declared.
  rewrite size_union_alt.
  pose proof (size_list_to_set_le (id <$> nodes)) as H1.
  rewrite length_fmap in H1.
  set (T := list_to_set (to_node <$> filter (λ e, from_node e ∈ list_to_set (id <$> nodes)) edges) : gset string).
  assert (size (T ∖ list_to_set (id <$> nodes)) ≤ size T) as H2.
  { apply subseteq_size. set_solver. }
  pose proof (size_list_to_set_le (to_node <$> filter (λ e, from_node e ∈ (list_to_set (id <$> nodes) : gset string)) edges)) as H3.
  rewrite length_fmap in H3.
  pose proof (length_filter (λ e, from_node e ∈ (list_to_set (id <$> nodes) : gset string)) edges) as H4.
  fold T in H3. lia.
Qed.

Lemma outEdges_reachable nodes edges u l x :
  outEdges (buildAdjacency nodes edges) !! u = Some l → x ∈ l →
  x ∈ reachable nodes edges.
Proof.
  rewrite adjacency_outEdges. case_decide as Hu; [|done].
  intros [= <-] Hx. apply elem_of_targetsOf in Hx as (e & He & <- & <-).
  unfold reachable. apply elem_of_union_r, elem_of_list_to_set, list_elem_of_fmap.
  exists e. split; [done|]. by apply list_elem_of_filter.
Qed.

Lemma elem_of_sources deg nodes v :
  v ∈ sources deg nodes ↔ v ∈ id <$> nodes ∧ deg !! v = Some 0%Z.
Proof.
  unfold sources. rewrite !list_elem_of_fmap. split.
  - intros (n & -> & Hn). apply list_elem_of_filter in Hn as [? ?]. eauto.
  - intros [(n & -> & Hn) Hv]. exists n. split; [done|].
    by apply list_elem_of_filter.
Qed.

Lemma elem_of_declared nodes v : v ∈ declared nodes ↔ v ∈ id <$> nodes.
Proof. unfold declared. apply elem_of_list_to_set. Qed.

(** With enough fuel the sweep ends; it has visited exactly the ids in its
    layers, all of them reachable. *)
Lemma sweep_graph nodes edges fuel :
  enoughFuel nodes edges ≤ fuel →
  let adj := buildAdjacency nodes edges in
  ∃ s, sweep fuel (outEdges adj) (initialSweep adj) (sources (inDegree adj) nodes)
       = Ok s ∧
       visited s = layerIds (layers s) ∧
       visited s ⊆ reachable nodes edges.
Proof.
  intros Hfuel adj.
  assert (Hsrc : list_to_set (sources (inDegree adj) nodes) ⊆ reachable nodes edges).
  { intros v Hv. apply elem_of_list_to_set, elem_of_sources in Hv as [Hv _].
    unfold reachable. apply elem_of_union_l. by apply elem_of_declared. }
  destruct (sweep_terminates (reachable nodes edges) (outEdges adj) fuel
              (initialSweep adj) (sources (inDegree adj) nodes)) as [s Hs].
  - apply outEdges_reachable.
  - done.
  - simpl. set_solver.
  - simpl. pose proof (size_reachable nodes edges).
    assert (size (reachable nodes edges ∖ ∅) ≤ size (reachable nodes edges))
      by (apply subseteq_size; set_solver).
    lia.
  - exists s. split; [done|].
    apply (sweep_inv
      (λ s cur, visited s = layerIds (layers s) ∧
                visited s ⊆ reachable nodes edges ∧
                list_to_set cur ⊆ reachable nodes edges) _ _ _ _ _) in Hs.
    + tauto.
    + intros s0 cur _ (Hv & Hr & Hc).
      rewrite sweepStep_visited, sweepStep_layers, layerIds_app, layerIds_singleton.
      split_and!; [set_solver | set_solver |].
      intros x Hx. apply elem_of_list_to_set, sweepStep_next in Hx as [_ (u & Hu & Hx)].
      destruct (outEdges adj !! u) as [l|] eqn:E; simpl in Hx.
      * by eapply outEdges_reachable.
      * by apply elem_of_nil in Hx.
    + done.
Qed.

(** ** The layering as a whole *)
Lemma mjoin_singletons (l : list string) : mjoin ((λ v, [v]) <$> l) = l.
Proof. induction l as [|a l IH]; simpl; [done | by f_equal]. Qed.

Lemma assignLayers_graph nodes edges fuel :
  enoughFuel nodes edges ≤ fuel →
  ∃ ls nl vis,
    assignLayers fuel (buildAdjacency nodes edges) nodes = Ok (ls, nl, vis) ∧
    layerIds ls = vis ∪ list_to_set (unvisited vis nodes) ∧
    vis ⊆ reachable nodes edges.
Proof.
  intros Hfuel. destruct (sweep_graph nodes edges fuel Hfuel) as (s & Hs & Hv & Hr).
  destruct (fallback_layers (visited s) nodes (layers s) (nodeLayer s)) as [nl Hf].
  eexists _, nl, (visited s). unfold assignLayers.
  fold (initialSweep (buildAdjacency nodes edges)).
  rewrite Hs. simpl. rewrite Hf. simpl. split; [done|]. split; [|done].
  rewrite layerIds_app, <- Hv. f_equal.
  unfold layerIds. by rewrite mjoin_singletons.
Qed.

(** ** Counting what the sweep takes off an in-degree *)

Lemma occ_cons v t l :
  occ v (t :: l) = if decide (t = v) then S (occ v l) else occ v l.
Proof. unfold occ. rewrite filter_cons. by case_decide. Qed.

Lemma occ_app v l1 l2 : occ v (l1 ++ l2) = occ v l1 + occ v l2.
Proof. unfold occ. by rewrite filter_app, length_app. Qed.

Lemma relaxed_app out l1 l2 : relaxed out (l1 ++ l2) = relaxed out l1 ++ relaxed out l2.
Proof. unfold relaxed. apply bind_app. Qed.

Lemma relaxNode_flat out vis cur acc :
  foldl (relaxNode out vis) acc cur = foldl (relax vis) acc (relaxed out cur).
Proof.
  unfold relaxed. revert acc. induction cur as [|u cur IH]; intros acc; [done|].
  rewrite bind_cons, foldl_app. simpl. by rewrite IH.
Qed.

Lemma relax_fold_degree vis T acc w :
  w ∉ vis →
  (foldl (relax vis) acc T).1 !! w = (λ d, d - Z.of_nat (occ w T))%Z <$> acc.1 !! w.
Proof.
  intros Hw. revert acc. induction T as [|t T IH]; intros acc.
  - simpl. destruct (acc.1 !! w); simpl; [|done]. f_equal. unfold occ. simpl. lia.
  - cbn [foldl]. rewrite IH, occ_cons. unfold relax.
    destruct (decide (t ∈ vis)) as [Ht|Ht].
    + rewrite decide_False; [done|]. by intros ->.
    + destruct (acc.1 !! t) as [d|] eqn:E; simpl.
      * destruct (decide (t = w)) as [->|Hne].
        -- rewrite lookup_insert_eq, E. simpl. f_equal. lia.
        -- by rewrite lookup_insert_ne.
      * destruct (decide (t = w)) as [->|Hne]; [|done].
        by rewrite E.
Qed.

Lemma relax_fold_not_pushed vis T acc w d :
  acc.1 !! w = Some d → (Z.of_nat (occ w T) < d)%Z → w ∉ acc.2 →
  w ∉ (foldl (relax vis) acc T).2.
Proof.
  revert acc d. induction T as [|t T IH]; intros acc d Hd Hocc Hw; [done|].
  cbn [foldl]. rewrite occ_cons in Hocc. unfold relax.
  destruct (decide (t ∈ vis)) as [Ht|Ht].
  - apply (IH acc d); [done| |done]. case_decide; lia.
  - destruct (acc.1 !! t) as [dt|] eqn:E.
    + destruct (decide (t = w)) as [->|Hne].
      * assert (dt = d) as -> by congruence.
        apply (IH _ (d - 1)%Z); simpl.
        -- by rewrite lookup_insert_eq.
        -- lia.
        -- rewrite decide_False; [done | lia].
      * apply (IH _ d); simpl.
        -- by rewrite lookup_insert_ne.
        -- lia.
        -- case_decide; [|done]. rewrite elem_of_app, list_elem_of_singleton.
           naive_solver.
    + apply (IH acc d); [done| |done]. case_decide; lia.
Qed.

Lemma relax_nextOk vis acc t : nextOk acc → nextOk (relax vis acc t).
Proof.
  intros [Hnd Hle]. unfold relax.
  destruct (decide (t ∈ vis)); [done|].
  destruct (acc.1 !! t) as [d|] eqn:E; [|done].
  split; simpl.
  - case_decide as Hz; [|done].
    apply NoDup_app. split_and!; [done| |apply NoDup_singleton].
    intros w Hw ->%list_elem_of_singleton.
    destruct (Hle _ Hw) as (d' & Hd' & ?). simplify_eq. lia.
  - intros w Hw. destruct (decide (w = t)) as [->|Hne].
    + rewrite lookup_insert_eq. eexists. split; [done|].
      case_decide as Hz; [lia|].
      destruct (Hle _ Hw) as (d' & Hd' & ?). simplify_eq. lia.
    + rewrite lookup_insert_ne; [|done]. apply Hle.
      case_decide; [|done].
      apply elem_of_app in Hw as [?|Hw%list_elem_of_singleton]; done.
Qed.

Lemma sweepStep_next_NoDup out s cur : NoDup (sweepStep out s cur).2.
Proof.
  unfold sweepStep. simpl. rewrite relaxNode_flat.
  apply (foldl_inv nextOk).
  - split; simpl; [apply NoDup_nil_2 | by intros w ?%elem_of_nil].
  - intros a t _. apply relax_nextOk.
Qed.

Lemma sweepStep_degree out s cur w :
  w ∉ visited s → w ∉ cur →
  degree (sweepStep out s cur).1 !! w =
  (λ d, d - Z.of_nat (occ w (relaxed out cur)))%Z <$> degree s !! w.
Proof.
  intros Hv Hc. unfold sweepStep. simpl.
  rewrite relaxNode_flat, relax_fold_degree; simpl.
  - by rewrite markLayer_degree.
  - rewrite markLayer_visited. set_solver.
Qed.

Lemma sweepStep_not_pushed out s cur w d :
  degree s !! w = Some d → (Z.of_nat (occ w (relaxed out cur)) < d)%Z →
  w ∉ (sweepStep out s cur).2.
Proof.
  intros Hd Hocc. unfold sweepStep. simpl. rewrite relaxNode_flat.
  apply (relax_fold_not_pushed _ _ _ _ d); simpl.
  - by rewrite markLayer_degree.
  - done.
  - by intros ?%elem_of_nil.
Qed.

(** ** Counting edges *)
Section filters.
Context (P Q R : GraphEdge → Prop).
Context {decP : ∀ e, Decision (P e)} {decQ : ∀ e, Decision (Q e)}
        {decR : ∀ e, Decision (R e)}.

Lemma filter_length_le (l : list GraphEdge) :
  (∀ e, e ∈ l → P e → Q e) → length (filter P l) ≤ length (filter Q l).
Proof.
  induction l as [|e l IH]; intros Hsub; [done|].
  rewrite !filter_cons.
  assert (length (filter P l) ≤ length (filter Q l)) as IH'.
  { apply IH. intros e' He'. apply Hsub. by right. }
  destruct (decide (P e)) as [Hp|Hp].
  - rewrite decide_True; [simpl; lia|]. apply Hsub; [by left | done].
  - destruct (decide (Q e)); simpl; lia.
Qed.

Lemma filter_length_lt (l : list GraphEdge) (e0 : GraphEdge) :
  (∀ e, e ∈ l → P e → Q e) → e0 ∈ l → Q e0 → ¬ P e0 →
  length (filter P l) < length (filter Q l).
Proof.
  induction l as [|e l IH]; intros Hsub Hin Hq Hp; [by apply elem_of_nil in Hin|].
  rewrite !filter_cons.
  assert (∀ e', e' ∈ l → P e' → Q e') as H' by (intros e' He'; apply Hsub; by right).
  apply elem_of_cons in Hin as [<-|Hin].
  - rewrite decide_False, decide_True; [|done|done]. simpl.
    pose proof (filter_length_le l H'). lia.
  - specialize (IH H' Hin Hq Hp).
    destruct (decide (P e)) as [Hpe|Hpe].
    + rewrite decide_True; [simpl; lia|]. apply Hsub; [by left | done].
    + destruct (decide (Q e)); simpl; lia.
Qed.

Lemma filter_length_split (l : list GraphEdge) :
  (∀ e, e ∈ l → (R e ↔ P e ∨ Q e)) → (∀ e, e ∈ l → P e → Q e → False) →
  length (filter R l) = length (filter P l) + length (filter Q l).
Proof.
  induction l as [|e l IH]; intros Hsub Hd; [done|].
  rewrite !filter_cons.
  assert (length (filter R l) = length (filter P l) + length (filter Q l)) as IH'.
  { apply IH; intros e' He'; [apply Hsub | apply Hd]; by right. }
  specialize (Hsub e (list_elem_of_here _ _)). specialize (Hd e (list_elem_of_here _ _)).
  destruct (decide (P e)), (decide (Q e)), (decide (R e)); simpl; try lia; tauto.
Qed.
End filters.

(** ** Layer indices given by the sweep *)
Lemma sweep_nodeLayer fuel out s0 cur0 s :
  sweep fuel out s0 cur0 = Ok s →
  (∀ w, w ∈ visited s0 → ∃ j, nodeLayer s0 !! w = Some j ∧ j < length (layers s0)) →
  ∀ w, w ∈ visited s → ∃ j, nodeLayer s !! w = Some j ∧ j < length (layers s).
Proof.
  intros Hs H0.
  refine (sweep_inv (λ s (_ : list string), ∀ w, w ∈ visited s →
            ∃ j, nodeLayer s !! w = Some j ∧ j < length (layers s))
            fuel out s0 cur0 s _ H0 Hs).
  intros s1 cur _ IH w.
  rewrite sweepStep_visited, sweepStep_nodeLayer, sweepStep_layers, length_app.
  simpl. intros Hw. destruct (decide (w ∈ cur)) as [Hc|Hc].
  - eexists. split; [done|]. lia.
  - destruct (IH w) as (j & Hj & Hlt); [set_solver|].
    exists j. split; [done|]. lia.
Qed.

(** ** A node with a self-loop is never resolved by the sweep *)
Lemma occ_targetsOf v u edges :
  occ v (targetsOf u edges) =
  length (filter (λ e, from_node e = u ∧ to_node e = v) edges).
Proof.
  induction edges as [|e edges IH]; [done|].
  rewrite targetsOf_cons, filter_cons.
  destruct (decide (from_node e = u)) as [Hu|Hu].
  - rewrite occ_cons, IH. destruct (decide (to_node e = v)) as [Hv|Hv].
    + by rewrite decide_True.
    + rewrite decide_False; [done | tauto].
  - rewrite IH, decide_False; [done | tauto].
Qed.

Lemma occ_relaxed_le nodes edges (L : list string) v :
  NoDup L →
  occ v (relaxed (outEdges (buildAdjacency nodes edges)) L) ≤
  length (filter (λ e, to_node e = v ∧ from_node e ∈ L) edges).
Proof.
  induction 1 as [|u L Hu Hnd IH].
  - simpl. unfold occ. simpl. lia.
  - change (u :: L) with ([u] ++ L) at 1. rewrite relaxed_app, occ_app.
    rewrite (filter_length_split
               (λ e, from_node e = u ∧ to_node e = v)
               (λ e, to_node e = v ∧ from_node e ∈ L)
               (λ e, to_node e = v ∧ from_node e ∈ u :: L)).
    + apply Nat.add_le_mono; [|done].
      unfold relaxed. simpl. rewrite app_nil_r, adjacency_outEdges.
      case_decide; simpl.
      * by rewrite occ_targetsOf.
      * unfold occ. simpl. lia.
    + intros e _. rewrite elem_of_cons. naive_solver.
    + intros e _ [<- _] [_ Hin]. done.
Qed.

Lemma selfloop_bound nodes edges (L : list string) v e :
  NoDup L → v ∉ L → e ∈ edges → from_node e = v → to_node e = v →
  occ v (relaxed (outEdges (buildAdjacency nodes edges)) L) <
  length (sourcesOf v edges).
Proof.
  intros Hnd Hv He Hfrom Hto.
  pose proof (occ_relaxed_le nodes edges L v Hnd) as H1.
  unfold sourcesOf. rewrite length_fmap.
  assert (length (filter (λ e, to_node e = v ∧ from_node e ∈ L) edges) <
          length (filter (λ e, to_node e = v) edges)); [|lia].
  apply (filter_length_lt _ _ _ e); [tauto | done | done |].
  rewrite Hfrom. tauto.
Qed.

Lemma mjoin_snoc (ls : list (list string)) (l : list string) :
  mjoin (ls ++ [l]) = mjoin ls ++ l.
Proof. rewrite join_app. simpl. by rewrite app_nil_r. Qed.

Lemma NoDup_sources deg nodes : NoDup (id <$> nodes) → NoDup (sources deg nodes).
Proof.
  unfold sources. intros Hnd. eapply sublist_NoDup; [exact Hnd|].
  apply fmap_sublist, sublist_filter.
Qed.

Lemma sweep_selfloop nodes edges fuel s v e :
  let adj := buildAdjacency nodes edges in
  sweep fuel (outEdges adj) (initialSweep adj) (sources (inDegree adj) nodes) = Ok s →
  NoDup (id <$> nodes) → v ∈ declared nodes →
  e ∈ edges → from_node e = v → to_node e = v →
  v ∉ visited s.
Proof.
  intros adj Hs Hnd Hv He Hfrom Hto.
  set (d0 := Z.of_nat (length (sourcesOf v edges))).
  assert (Hd0 : inDegree adj !! v = Some d0) by by apply adjacency_inDegree.
  assert (Hpos : (0 < d0)%Z).
  { unfold d0. assert (v ∈ sourcesOf v edges) as Hin.
    { apply elem_of_sourcesOf. by exists e. }
    destruct (sourcesOf v edges); [by apply elem_of_nil in Hin | simpl; lia]. }
  apply (sweep_inv
    (λ s cur, visited s = layerIds (layers s) ∧
              NoDup (mjoin (layers s) ++ cur) ∧
              (v ∉ visited s) ∧ (v ∉ cur) ∧
              degree s !! v =
                Some (d0 - Z.of_nat (occ v (relaxed (outEdges adj) (mjoin (layers s)))))%Z)
    _ _ _ _ _) in Hs.
  - tauto.
  - intros s1 cur _ (Hvis & Hnodup & Hnv & Hnc & Hdeg).
    assert (Hbound : occ v (relaxed (outEdges adj) (mjoin (layers s1) ++ cur)) <
                     length (sourcesOf v edges)).
    { apply (selfloop_bound nodes edges _ v e); try done.
      rewrite elem_of_app. intros [Hin|Hin]; [|done].
      apply Hnv. rewrite Hvis. unfold layerIds. by apply elem_of_list_to_set. }
    rewrite relaxed_app, occ_app in Hbound.
    rewrite sweepStep_visited, sweepStep_layers, layerIds_app, layerIds_singleton,
      mjoin_snoc.
    split_and!.
    + set_solver.
    + apply NoDup_app. split_and!; [done| |apply sweepStep_next_NoDup].
      intros x Hx Hnext. apply sweepStep_next in Hnext as [Hnext _].
      apply Hnext. rewrite sweepStep_visited, Hvis. unfold layerIds.
      apply elem_of_app in Hx as [Hx|Hx]; [apply elem_of_union_r | apply elem_of_union_l];
        by apply elem_of_list_to_set.
    + rewrite elem_of_union, elem_of_list_to_set. tauto.
    + eapply sweepStep_not_pushed; [done|]. unfold d0. lia.
    + rewrite sweepStep_degree, Hdeg; [|done|done]. simpl. f_equal.
      rewrite relaxed_app, occ_app. lia.
  - simpl. split_and!.
    + done.
    + by apply NoDup_sources.
    + set_solver.
    + rewrite elem_of_sources, Hd0. intros [_ [=]]. lia.
    + rewrite Hd0. f_equal. unfold occ. simpl. lia.
Qed.

(** ** The key set of the position map *)
Lemma calculateLayout_dom nodes edges fuel :
  enoughFuel nodes edges ≤ fuel →
  ∃ positions vis,
    calculateLayout fuel nodes edges = Ok positions ∧
    dom positions = vis ∪ list_to_set (unvisited vis nodes) ∧
    vis ⊆ reachable nodes edges.
Proof.
  intros Hfuel. destruct nodes as [|n nodes].
  - exists ∅, ∅. simpl. split; [done|]. split; [|set_solver].
    rewrite dom_empty_L. unfold unvisited. set_solver.
  - destruct (assignLayers_graph (n :: nodes) edges fuel Hfuel)
      as (ls & nl & vis & Ha & Hids & Hr).
    eexists _, vis. unfold calculateLayout. rewrite Ha. simpl.
    split; [done|]. split; [|done].
    rewrite dom_finalPositions, <- Hids.
    symmetry. apply layerIds_perm, orderedLayers_perm.
Qed.

(** The layers are not empty when there is a node, so [Math.max] gets at
    least one argument. *)
Lemma layers_nonempty n nodes edges fuel ls nl vis :
  enoughFuel (n :: nodes) edges ≤ fuel →
  assignLayers fuel (buildAdjacency (n :: nodes) edges) (n :: nodes)
  = Ok (ls, nl, vis) →
  orderedLayers (buildAdjacency (n :: nodes) edges) ls ≠ [].
Proof.
  intros Hfuel Ha.
  destruct (assignLayers_graph (n :: nodes) edges fuel Hfuel)
    as (ls' & nl' & vis' & Ha' & Hids & _).
  rewrite Ha in Ha'. simplify_eq.
  assert (Hn : id n ∈ layerIds ls').
  { rewrite Hids. destruct (decide (id n ∈ vis')); [set_solver|].
    apply elem_of_union_r, elem_of_list_to_set, elem_of_unvisited.
    split; [|done]. simpl. left. }
  intros Hnil.
  pose proof (orderedLayers_perm (buildAdjacency (n :: nodes) edges) ls') as Hp.
  rewrite Hnil in Hp. apply Forall2_nil_inv_r in Hp. subst ls'.
  unfold layerIds in Hn. simpl in Hn. set_solver.
Qed.

(** C1, as amended: on every graph [calculateLayout] returns, and every
    declared node id is a key of the position map. Edges with an undeclared
    end are not dropped: the target of an edge that leaves a declared node
    may become a key too. The keys are exactly the declared ids when every
    edge that leaves a declared node enters a declared node. *)
Theorem calculateLayout_keys nodes edges fuel :
  enoughFuel nodes edges ≤ fuel →
  ∃ positions,
    calculateLayout fuel nodes edges = Ok positions ∧
    declared nodes ⊆ dom positions ∧
    dom positions ⊆ reachable nodes edges ∧
    ((∀ e, e ∈ edges → from_node e ∈ declared nodes → to_node e ∈ declared nodes) →
     dom positions = declared nodes).
Proof.
  intros Hfuel.
  destruct (calculateLayout_dom nodes edges fuel Hfuel) as (pos & vis & Hp & Hd & Hr).
  exists pos. split; [done|].
  assert (H1 : declared nodes ⊆ dom pos).
  { rewrite Hd. intros v Hv. destruct (decide (v ∈ vis)); [set_solver|].
    apply elem_of_union_r, elem_of_list_to_set, elem_of_unvisited.
    split; [by apply elem_of_declared | done]. }
  assert (H2 : dom pos ⊆ reachable nodes edges).
  { rewrite Hd. intros v [Hv|Hv]%elem_of_union; [by apply Hr|].
    apply elem_of_list_to_set, elem_of_unvisited in Hv as [Hv _].
    unfold reachable. apply elem_of_union_l. by apply elem_of_declared. }
  split_and!; [done | done |].
  intros Hedges. apply set_eq. intros v. split; [|apply H1].
  intros Hv. apply H2 in Hv. unfold reachable in Hv.
  apply elem_of_union in Hv as [Hv|Hv]; [done|].
  apply elem_of_list_to_set, list_elem_of_fmap in Hv as (e & -> & He).
  apply list_elem_of_filter in He as [Hfrom He]. by apply Hedges.
Qed.

Lemma calculateLayout_keys_witness :
  ∃ positions,
    calculateLayout 9 diamondNodes diamondEdges = Ok positions ∧
    declared diamondNodes ⊆ dom positions ∧
    dom positions ⊆ reachable diamondNodes diamondEdges ∧
    ((∀ e, e ∈ diamondEdges → from_node e ∈ declared diamondNodes →
           to_node e ∈ declared diamondNodes) →
     dom positions = declared diamondNodes).
Proof.
  apply (calculateLayout_keys diamondNodes diamondEdges 9).
  vm_compute. lia.
Defined.

(** C1 fails as stated: an edge from the declared node A to the undeclared
    id X gives X a layer and a position, so the key set is not the set of
    declared ids. *)
Lemma calculateLayout_undeclared_key :
  ∃ positions,
    calculateLayout 3 [mkNode "A"] [mkEdge "A" "X"] = Ok positions ∧
    dom positions ≠ declared [mkNode "A"].
Proof.
  eexists. split; [vm_compute; reflexivity|].
  intros H. assert (Hx : "X"%string ∈ declared [mkNode "A"]).
  { rewrite <- H. apply elem_of_dom. eexists. vm_compute. reflexivity. }
  apply elem_of_declared in Hx. simpl in Hx.
  apply list_elem_of_singleton in Hx. discriminate.
Qed.

(** An edge from the undeclared id X into B is not dropped either: it
    counts in the in-degree of B, so the sweep never resolves B. *)
Lemma undeclared_source_blocks :
  resolved 3 [mkNode "B"] [mkEdge "X" "B"] = ∅ ∧
  resolved 3 [mkNode "B"] [] = {[ "B"%string ]}.
Proof. split; vm_compute; reflexivity. Qed.

(** The diamond of the specification: layers A:0, B:1, C:1, D:2, and D
    centred between B and C. *)
Example diamond_layout :
  (layerOf 9 diamondNodes diamondEdges <$> ["A"; "B"; "C"; "D"]%string)
  = [Some 0; Some 1; Some 1; Some 2] ∧
  calculateLayout 9 diamondNodes diamondEdges
  = Ok (list_to_map
          [("A"%string, {| x := 0; y := 50 |}); ("B"%string, {| x := 280; y := 0 |});
           ("C"%string, {| x := 280; y := 100 |}); ("D"%string, {| x := 560; y := 50 |})]).
Proof. split; vm_compute; reflexivity. Qed.

(** ** Layer indices of the whole layering *)

Lemma assignLayers_indices nodes edges fuel :
  enoughFuel nodes edges ≤ fuel →
  ∃ ls nl vis (sweepLayers : nat),
    assignLayers fuel (buildAdjacency nodes edges) nodes = Ok (ls, nl, vis) ∧
    (∀ w, w ∈ vis → ∃ j, nl !! w = Some j ∧ j < sweepLayers) ∧
    (∀ w, w ∈ declared nodes → w ∉ vis →
          ∃ k, nl !! w = Some k ∧ sweepLayers ≤ k ∧ ls !! k = Some [w]).
Proof.
  intros Hfuel. destruct (sweep_graph nodes edges fuel Hfuel) as (s & Hs & Hv & Hr).
  destruct (fallback_layers (visited s) nodes (layers s) (nodeLayer s)) as [nl Hf].
  eexists _, nl, (visited s), (length (layers s)). unfold assignLayers.
  fold (initialSweep (buildAdjacency nodes edges)).
  rewrite Hs. simpl. rewrite Hf. simpl. split; [done|].
  split.
  - intros w Hw.
    pose proof (fallback_nodeLayer _ _ _ _ _ _ w Hf) as Hnl.
    rewrite decide_False in Hnl; [|rewrite elem_of_unvisited; tauto].
    rewrite Hnl. eapply sweep_nodeLayer; [exact Hs| |done].
    simpl. set_solver.
  - intros w Hw Hnv.
    pose proof (fallback_nodeLayer _ _ _ _ _ _ w Hf) as Hnl.
    rewrite decide_True in Hnl; [done|].
    apply elem_of_unvisited. split; [by apply elem_of_declared | done].
Qed.

Lemma forwardBc_parents nodes edges ypos v :
  v ∈ declared nodes → sourcesOf v edges ≠ [] →
  forwardBc (inEdges (buildAdjacency nodes edges)) ypos v =
  average ypos (sourcesOf v edges).
Proof.
  intros Hv Hne. unfold forwardBc. rewrite adjacency_inEdges.
  destruct (decide (v ∈ declared nodes)); [|done].
  simpl. rewrite decide_True; [done|].
  destruct (sourcesOf v edges); [done | simpl; lia].
Qed.

Lemma backwardBc_children nodes edges ypos v :
  v ∈ declared nodes → targetsOf v edges ≠ [] →
  backwardBc (outEdges (buildAdjacency nodes edges)) ypos v =
  average ypos (targetsOf v edges).
Proof.
  intros Hv Hne. unfold backwardBc. rewrite adjacency_outEdges.
  destruct (decide (v ∈ declared nodes)); [|done].
  simpl. rewrite decide_True; [done|].
  destruct (targetsOf v edges); [done | simpl; lia].
Qed.

(** C3, as amended: on a graph with a self-loop the layering ends, but the
    self-loop counts in the in-degree of its node, so the sweep never
    resolves that node: the fall-back gives it a layer after every layer of
    the sweep. The node is one of its own parents and one of its own
    children, over which the two barycenter passes average. *)
Theorem selfloop_layering nodes edges fuel v e :
  enoughFuel nodes edges ≤ fuel → NoDup (id <$> nodes) →
  v ∈ declared nodes → e ∈ edges → from_node e = v → to_node e = v →
  let adj := buildAdjacency nodes edges in
  ∃ ls nl vis,
    assignLayers fuel adj nodes = Ok (ls, nl, vis) ∧
    (v ∉ vis) ∧
    (∃ k, nl !! v = Some k ∧ ∀ w, w ∈ vis → ∃ j, nl !! w = Some j ∧ j < k) ∧
    v ∈ sourcesOf v edges ∧ v ∈ targetsOf v edges ∧
    (∀ ypos, forwardBc (inEdges adj) ypos v = average ypos (sourcesOf v edges)) ∧
    (∀ ypos, backwardBc (outEdges adj) ypos v = average ypos (targetsOf v edges)).
Proof.
  intros Hfuel Hnd Hv He Hfrom Hto adj.
  destruct (assignLayers_indices nodes edges fuel Hfuel)
    as (ls & nl & vis & n & Ha & Hvis & Hunv).
  exists ls, nl, vis. split; [done|].
  assert (Hnv : v ∉ vis).
  { unfold assignLayers in Ha.
    fold (initialSweep (buildAdjacency nodes edges)) in Ha.
    destruct (sweep fuel _ _ _) as [s| |] eqn:Hs; simpl in Ha; try done.
    destruct (fallback _ _ _ _) as [[ls1 nl1]| |]; simpl in Ha; try done.
    assert (vis = visited s) as -> by congruence.
    by eapply (sweep_selfloop nodes edges fuel s v e). }
  assert (Hsrc : v ∈ sourcesOf v edges) by (apply elem_of_sourcesOf; by exists e).
  assert (Htgt : v ∈ targetsOf v edges) by (apply elem_of_targetsOf; by exists e).
  split_and!; [done| |done|done| |].
  - destruct (Hunv v Hv Hnv) as (k & Hk & Hle & _). exists k. split; [done|].
    intros w Hw. destruct (Hvis w Hw) as (j & Hj & Hlt). exists j. split; [done|lia].
  - intros ypos. apply forwardBc_parents; [done|]. intros Heq.
    rewrite Heq in Hsrc. by apply elem_of_nil in Hsrc.
  - intros ypos. apply backwardBc_children; [done|]. intros Heq.
    rewrite Heq in Htgt. by apply elem_of_nil in Htgt.
Qed.

Lemma selfloop_layering_witness :
  let nodes := [mkNode "A"; mkNode "B"] in
  let edges := [mkEdge "A" "A"] in
  let adj := buildAdjacency nodes edges in
  ∃ ls nl vis,
    assignLayers 4 adj nodes = Ok (ls, nl, vis) ∧
    ("A"%string ∉ vis) ∧
    (∃ k, nl !! "A"%string = Some k ∧ ∀ w, w ∈ vis → ∃ j, nl !! w = Some j ∧ j < k) ∧
    "A"%string ∈ sourcesOf "A" edges ∧ "A"%string ∈ targetsOf "A" edges ∧
    (∀ ypos, forwardBc (inEdges adj) ypos "A" = average ypos (sourcesOf "A" edges)) ∧
    (∀ ypos, backwardBc (outEdges adj) ypos "A" = average ypos (targetsOf "A" edges)).
Proof.
  apply (selfloop_layering [mkNode "A"; mkNode "B"] [mkEdge "A" "A"] 4 "A"
           (mkEdge "A" "A")).
  - vm_compute. lia.
  - simpl. apply NoDup_cons. split; [|apply NoDup_singleton].
    rewrite list_elem_of_singleton. discriminate.
  - apply elem_of_declared. simpl. left.
  - left.
  - reflexivity.
  - reflexivity.
Defined.

(** C3 fails as stated: with the self-loop on A, A waits for the fall-back
    and gets layer 1; without the self-loop it is a source, in layer 0. And
    A is the one parent the forward pass averages over for A. *)
Lemma selfloop_changes_layer :
  layerOf 4 [mkNode "A"; mkNode "B"] [mkEdge "A" "A"] "A" = Some 1 ∧
  layerOf 4 [mkNode "A"; mkNode "B"] [] "A" = Some 0 ∧
  inEdges (buildAdjacency [mkNode "A"; mkNode "B"] [mkEdge "A" "A"]) !! "A"%string
  = Some ["A"%string].
Proof. split_and!; vm_compute; reflexivity. Qed.

(** Two different declared nodes that the sweep did not resolve never share
    a layer: the fall-back makes a layer for each. *)
Lemma fallback_never_groups nodes edges fuel ls nl vis v w :
  enoughFuel nodes edges ≤ fuel →
  assignLayers fuel (buildAdjacency nodes edges) nodes = Ok (ls, nl, vis) →
  v ∈ declared nodes → w ∈ declared nodes → v ∉ vis → w ∉ vis → v ≠ w →
  nl !! v ≠ nl !! w.
Proof.
  intros Hfuel Ha Hv Hw Hnv Hnw Hne.
  destruct (assignLayers_indices nodes edges fuel Hfuel)
    as (ls' & nl' & vis' & n & Ha' & _ & Hunv).
  rewrite Ha in Ha'. simplify_eq.
  destruct (Hunv v Hv Hnv) as (k1 & Hk1 & _ & Hl1).
  destruct (Hunv w Hw Hnw) as (k2 & Hk2 & _ & Hl2).
  rewrite Hk1, Hk2. intros [= <-]. congruence.
Qed.

(** C2 at a 2-node cycle: neither A nor B is resolved by the sweep, and the
    fall-back puts them in two different layers, 0 and 1. *)
Theorem fallback_splits_cycle :
  let nodes := [mkNode "A"; mkNode "B"] in
  let edges := [mkEdge "A" "B"; mkEdge "B" "A"] in
  resolved 5 nodes edges = ∅ ∧
  layerOf 5 nodes edges "A" = Some 0 ∧
  layerOf 5 nodes edges "B" = Some 1.
Proof. split_and!; vm_compute; reflexivity. Qed.



End LayoutFacts.

(* ===================================================================== *)
(** * Facts about the store                                               *)
(* ===================================================================== *)
Module StoreFacts.
Import Store.

Lemma tensors_updateTensor id s st :
  tensors (updateTensor id s st) = <[id := s]> (tensors st).
Proof. done. Qed.

Lemma tensors_setTensors m st : tensors (setTensors m st) = m.
Proof. done. Qed.

(** C8, the merge law of the store: a full replace after an update of [id]
    leaves [id] absent when the new map has no [id]; an update of [id]
    after a full replace by [m2] holds [s] at [id] and agrees with [m2] at
    every other key, so [id] is the only key that can differ, and it does
    differ unless [m2] already held [s] there. *)
Theorem store_merge_law st id s m1 m2 :
  m1 !! id = None →
  tensors (setTensors m1 (updateTensor id s st)) !! id = None ∧
  tensors (updateTensor id s (setTensors m2 st)) !! id = Some s ∧
  (∀ k, k ≠ id → tensors (updateTensor id s (setTensors m2 st)) !! k = m2 !! k) ∧
  (∀ k, tensors (updateTensor id s (setTensors m2 st)) !! k ≠ m2 !! k → k = id) ∧
  (m2 !! id ≠ Some s →
   tensors (updateTensor id s (setTensors m2 st)) !! id ≠ m2 !! id).
Proof.
  intros Hm1. rewrite tensors_setTensors, tensors_updateTensor, tensors_setTensors.
  split_and!.
  - done.
  - apply lookup_insert_eq.
  - intros k Hk. by apply lookup_insert_ne.
  - intros k Hk. destruct (decide (k = id)) as [|Hne]; [done|].
    by rewrite lookup_insert_ne in Hk.
  - intros Hne. rewrite lookup_insert_eq. congruence.
Qed.

Lemma store_merge_law_witness :
  let m1 : gmap string TensorSummary := {[ "b"%string := summaryOf "b" ]} in
  let m2 : gmap string TensorSummary := {[ "a"%string := summaryOf "old" ]} in
  let s := summaryOf "a" in
  tensors (setTensors m1 (updateTensor "a" s initialState)) !! "a"%string = None ∧
  tensors (updateTensor "a" s (setTensors m2 initialState)) !! "a"%string = Some s ∧
  (∀ k, k ≠ "a"%string →
        tensors (updateTensor "a" s (setTensors m2 initialState)) !! k = m2 !! k) ∧
  (∀ k, tensors (updateTensor "a" s (setTensors m2 initialState)) !! k ≠ m2 !! k →
        k = "a"%string) ∧
  (m2 !! "a"%string ≠ Some s →
   tensors (updateTensor "a" s (setTensors m2 initialState)) !! "a"%string
   ≠ m2 !! "a"%string).
Proof.
  apply (store_merge_law initialState "a" (summaryOf "a")
           {[ "b"%string := summaryOf "b" ]} {[ "a"%string := summaryOf "old" ]}).
  vm_compute. reflexivity.
Defined.

(** ** A run that resolves late *)
Lemma removeFirst_elem r l : r ∈ l → length (removeFirst r l) < length l.
Proof.
  induction l as [|r' l IH]; intros Hin; [by apply elem_of_nil in Hin|].
  simpl. case_decide; [lia|].
  apply elem_of_cons in Hin as [?|Hin]; [done|]. specialize (IH Hin). simpl. lia.
Qed.

(** C5, as amended: when a run request in flight resolves, its response
    replaces [tensors] and clears [isRunningScenario] whatever the current
    scenario is; the id the request was issued for is not compared with the
    current one, and the current scenario stays as it is. *)
Theorem runFulfilled_unconditional sys id params response :
  RunScenario id params ∈ inflight sys →
  let sys' := step sys (RunFulfilled id params response) in
  tensors (store sys') = r_tensors response ∧
  isRunningScenario (store sys') = false ∧
  currentScenario (store sys') = currentScenario (store sys) ∧
  length (inflight sys') < length (inflight sys).
Proof.
  intros Hin. simpl. unfold settle. rewrite decide_True; [|done]. simpl.
  split_and!; try done. by apply removeFirst_elem.
Qed.

Lemma runFulfilled_unconditional_witness :
  let sys' := step switchedToB (RunFulfilled "A" ∅ (responseOf "A" "a")) in
  tensors (store sys') = r_tensors (responseOf "A" "a") ∧
  isRunningScenario (store sys') = false ∧
  currentScenario (store sys') = currentScenario (store switchedToB) ∧
  length (inflight sys') < length (inflight switchedToB).
Proof.
  apply (runFulfilled_unconditional switchedToB "A" ∅ (responseOf "A" "a")).
  vm_compute. left.
Defined.

(** C5 fails as stated: the run issued for A resolves after B has become
    current, and its tensors are in the store while B is current. *)
Lemma late_run_overwrites :
  let sys' := step switchedToB (RunFulfilled "A" ∅ (responseOf "A" "a")) in
  RunScenario "A" ∅ ∈ inflight switchedToB ∧
  currentId (store switchedToB) = Some "B"%string ∧
  tensors (store switchedToB) = ∅ ∧
  currentId (store sys') = Some "B"%string ∧
  tensors (store sys') !! "a"%string = Some (summaryOf "a").
Proof. split_and!; vm_compute; try reflexivity. left. Qed.

End StoreFacts.

(* ===================================================================== *)
(** * Facts about the connection manager                                  *)
(* ===================================================================== *)
Module ConnectionFacts.
Import Connection.

Lemma connectedHook_eq max :
  connectedHook max =
  {| sockets := [OPEN]; wsRef := Some 0; reconnectAttemptsRef := 0;
     reconnectTimeoutRef := None; isConnected := true;
     timers := []; timerCount := 0 |}.
Proof. reflexivity. Qed.

Lemma first_disconnect max :
  0 < max → disconnect max (connectedHook max) = afterDisconnects 1.
Proof.
  intros Hmax. rewrite connectedHook_eq. unfold disconnect, step, onclose. simpl.
  by rewrite decide_True.
Qed.

Lemma replicate_snoc_closed k :
  <[k := CLOSED]> (replicate k CLOSED ++ [CONNECTING]) = replicate (S k) CLOSED.
Proof.
  rewrite insert_app_r_alt; rewrite length_replicate; [|lia].
  replace (k - k) with 0 by lia. simpl.
  induction k as [|k IH]; simpl; [done | by f_equal].
Qed.

(** The timer fires and makes a new socket; the browser closes it. *)
Lemma retry_events max k :
  1 ≤ k →
  step max (afterDisconnects k) (TimerFired k) =
  {| sockets := replicate k CLOSED ++ [CONNECTING]; wsRef := Some k;
     reconnectAttemptsRef := k; reconnectTimeoutRef := Some k;
     isConnected := false; timers := []; timerCount := k |}.
Proof.
  intros Hk. unfold step, afterDisconnects. simpl.
  rewrite decide_True; [|by left].
  unfold connect, currentReadyState, clearTimeout. simpl.
  rewrite lookup_replicate_2; [|lia]. simpl.
  rewrite length_replicate, filter_cons, decide_False; [done|]. tauto.
Qed.

Lemma next_disconnect max k :
  1 ≤ k → k < max →
  disconnect max (afterDisconnects k) = afterDisconnects (S k).
Proof.
  intros Hk Hmax. unfold disconnect.
  change (timers (afterDisconnects k)) with [k]. cbv beta iota zeta.
  rewrite retry_events; [|done]. simpl.
  rewrite list_lookup_middle; [|by rewrite length_replicate].
  unfold onclose. simpl. rewrite decide_True; [|done].
  unfold afterDisconnects. rewrite replicate_snoc_closed.
  by replace (S k - 1) with k by lia.
Qed.

Lemma last_disconnect max :
  1 ≤ max → disconnect max (afterDisconnects max) = givenUp max.
Proof.
  intros Hmax. unfold disconnect.
  change (timers (afterDisconnects max)) with [max]. cbv beta iota zeta.
  rewrite retry_events; [|done]. simpl.
  rewrite list_lookup_middle; [|by rewrite length_replicate].
  unfold onclose. simpl. rewrite decide_False; [|lia].
  unfold givenUp. rewrite replicate_snoc_closed. by destruct max; [lia|].
Qed.

Lemma iter_disconnect max k h :
  Nat.iter (S k) (disconnect max) h = disconnect max (Nat.iter k (disconnect max) h).
Proof. reflexivity. Qed.

Lemma disconnects_below_cap max k :
  1 ≤ k → k ≤ max →
  Nat.iter k (disconnect max) (connectedHook max) = afterDisconnects k.
Proof.
  induction k as [|k IH]; intros Hk Hmax; [lia|].
  rewrite iter_disconnect. destruct k as [|k].
  - apply first_disconnect. lia.
  - rewrite IH; [|lia|lia]. apply next_disconnect; lia.
Qed.

Lemma disconnects_past_cap max :
  Nat.iter (S max) (disconnect max) (connectedHook max) = givenUp max.
Proof.
  destruct max as [|max].
  - reflexivity.
  - rewrite iter_disconnect, (disconnects_below_cap (S max) (S max)); [|lia|lia].
    apply last_disconnect. lia.
Qed.

(** With no timer left and every socket closed, only a new mount changes
    the hook. *)
Lemma quiescent_stable max h ev :
  quiescent h → ev ≠ Mount → step max h ev = h.
Proof.
  intros [Ht Hs] Hev. destruct h as [ss ws att tref conn ts tc].
  simpl in *. subst ts.
  assert (Hlk : ∀ i, ss !! i = Some CLOSED ∨ ss !! i = None).
  { intros i. destruct (ss !! i) as [r|] eqn:E; [|by right]. left.
    rewrite Forall_forall in Hs. rewrite (Hs r); [done|].
    by eapply list_elem_of_lookup_2. }
  destruct ev as [| |i|i|t]; simpl.
  - done.
  - unfold cleanup. simpl.
    assert (∀ h', h' = {| sockets := ss; wsRef := ws; reconnectAttemptsRef := att;
                          reconnectTimeoutRef := tref; isConnected := conn;
                          timers := []; timerCount := tc |} →
                  match wsRef h' with Some i => closeSocket i h' | None => h' end = h')
      as Hclose.
    { intros h' ->. simpl. destruct ws as [i|]; [|done].
      unfold closeSocket. simpl. by destruct (Hlk i) as [-> | ->]. }
    destruct tref as [[|t]|]; by apply Hclose.
  - by destruct (Hlk i) as [-> | ->].
  - by destruct (Hlk i) as [-> | ->].
  - done.
Qed.

Lemma givenUp_quiescent max : quiescent (givenUp max).
Proof.
  split; [done|]. simpl. apply Forall_cons. split; [done|].
  apply Forall_forall. intros r Hr.
  by apply elem_of_replicate in Hr as [? _].
Qed.

(** C6, as amended: from a connected channel, each of the first [N]
    immediate disconnects in a row ([N] the cap on reconnection attempts)
    counts one attempt and leaves a reconnection timer pending; it is the
    disconnect after those, the [N+1]-th, that leaves the hook disconnected
    with the counter at the cap, no timer pending and every socket closed,
    and from then on nothing but a new mount changes it. *)
Theorem reconnect_cap max :
  (∀ k, 1 ≤ k → k ≤ max →
        let h := Nat.iter k (disconnect max) (connectedHook max) in
        reconnectAttemptsRef h = k ∧ timers h = [k] ∧ isConnected h = false) ∧
  (let h := Nat.iter (S max) (disconnect max) (connectedHook max) in
   reconnectAttemptsRef h = max ∧ isConnected h = false ∧ quiescent h ∧
   ∀ ev, ev ≠ Mount → step max h ev = h).
Proof.
  split.
  - intros k Hk Hmax. cbv zeta. by rewrite disconnects_below_cap.
  - cbv zeta. rewrite disconnects_past_cap. split_and!; [done | done | apply givenUp_quiescent |].
    intros ev Hev. apply quiescent_stable; [apply givenUp_quiescent | done].
Qed.

Lemma reconnect_cap_witness :
  (∀ k, 1 ≤ k → k ≤ 10 →
        let h := Nat.iter k (disconnect 10) (connectedHook 10) in
        reconnectAttemptsRef h = k ∧ timers h = [k] ∧ isConnected h = false) ∧
  (let h := Nat.iter 11 (disconnect 10) (connectedHook 10) in
   reconnectAttemptsRef h = 10 ∧ isConnected h = false ∧ quiescent h ∧
   ∀ ev, ev ≠ Mount → step 10 h ev = h).
Proof. exact (reconnect_cap 10). Defined.

(** C6 fails as stated: with the default cap of 10, after the 10th
    immediate disconnect a reconnection timer is pending, and when it fires
    a new socket is made. *)
Lemma timer_pending_at_cap :
  let h := Nat.iter defaultMaxReconnectAttempts
             (disconnect defaultMaxReconnectAttempts)
             (connectedHook defaultMaxReconnectAttempts) in
  timers h = [10] ∧
  currentReadyState (step defaultMaxReconnectAttempts h (TimerFired 10))
  = Some CONNECTING.
Proof. split; vm_compute; reflexivity. Qed.

(** C7 at a connected hook: the clean-up closes the open socket; its close
    event then runs [onclose], which sets a reconnection timer, and when
    that timer fires a new socket is made although the hook was torn down. *)
Theorem teardown_reconnects :
  let h := run defaultMaxReconnectAttempts initialHook
             [Mount; Opened 0; Unmount; Closed 0] in
  timers h = [1] ∧
  sockets (step defaultMaxReconnectAttempts h (TimerFired 1))
  = [CLOSED; CONNECTING].
Proof. split; vm_compute; reflexivity. Qed.

(** The clean-up does cancel the timer that [reconnectTimeoutRef] holds. *)
Lemma cleanup_clears_timer h t :
  reconnectTimeoutRef h = Some (S t) → S t ∉ timers (cleanup h).
Proof.
  intros Ht. unfold cleanup. rewrite Ht.
  assert (S t ∉ timers (clearTimeout (S t) h)) as Hc.
  { simpl. rewrite list_elem_of_filter. tauto. }
  destruct (wsRef (clearTimeout (S t) h)) as [i|]; [|done].
  unfold closeSocket. destruct (sockets _ !! i) as [[]|]; done.
Qed.

End ConnectionFacts.

(* ===================================================================== *)
(** * Facts about the debounced slider                                    *)
(* ===================================================================== *)
Module SliderFacts.
Import Slider.

Section facts.
Context {V : Type}.
Implicit Types (s : Slider V) (v : V).

Lemma filter_none {A} (P : A → Prop) `{!∀ x, Decision (P x)} (l : list A) :
  (∀ x, x ∈ l → ¬ P x) → filter P l = [].
Proof.
  intros Hno. apply elem_of_nil_inv. intros x Hx%list_elem_of_filter.
  destruct Hx as [HP Hx]. by apply (Hno x).
Qed.

Lemma handleChange_armed debounceMs v s :
  owned s → armed debounceMs v (sent s) (handleChange debounceMs v s).
Proof.
  intros Hown. unfold handleChange.
  set (s1 := match debounceRef s with
             | Some (S t) => clearTimeout (S t) s
             | _ => s
             end).
  assert (timers s1 = [] ∧ now s1 = now s ∧ sent s1 = sent s) as (Ht & Hn & Hs).
  { subst s1. destruct (debounceRef s) as [[|t]|] eqn:Href.
    - split; [|done]. apply elem_of_nil_inv. intros tm Htm.
      destruct (Hown tm Htm) as (t & _ & ?). congruence.
    - split; [|done]. simpl. apply filter_none. intros tm Htm.
      destruct (Hown tm Htm) as (t' & Hid & ?). simplify_eq. tauto.
    - split; [|done]. apply elem_of_nil_inv. intros tm Htm.
      destruct (Hown tm Htm) as (t & _ & ?). congruence. }
  exists (timerCount s1). simpl. rewrite Ht, Hn, Hs. done.
Qed.

Lemma advance_early debounceMs v sent0 s gap :
  armed debounceMs v sent0 s → gap < debounceMs →
  owned (advance gap s) ∧ sent (advance gap s) = sent0.
Proof.
  intros (t & Ht & Href & Hs & _) Hgap. unfold advance, owned. simpl.
  rewrite Ht, !filter_cons, !filter_nil. simpl.
  rewrite decide_True, decide_False; [|lia|lia]. simpl. split.
  - intros tm ->%list_elem_of_singleton. by exists t.
  - by rewrite app_nil_r.
Qed.

Lemma advance_due debounceMs v sent0 s wait :
  armed debounceMs v sent0 s → debounceMs ≤ wait →
  sent (advance wait s) = sent0 ++ [v] ∧ timers (advance wait s) = [].
Proof.
  intros (t & Ht & Href & Hs & _) Hwait. unfold advance. simpl.
  rewrite Ht, !filter_cons, !filter_nil. simpl.
  rewrite decide_True, decide_False; [|lia|lia]. simpl. by rewrite Hs.
Qed.

Lemma burst_cons debounceMs s first gap v rest :
  burst debounceMs s first ((gap, v) :: rest) =
  burst debounceMs (advance gap (handleChange debounceMs first s)) v rest.
Proof. reflexivity. Qed.

Lemma lastValue_cons (first : V) gap v rest :
  lastValue first ((gap, v) :: rest) = lastValue v rest.
Proof.
  unfold lastValue. rewrite fmap_cons. cbn [snd].
  change (last (first :: v :: rest.*2)) with (last (v :: rest.*2)).
  destruct (last (v :: rest.*2)) eqn:E; [done|].
  by apply last_None in E.
Qed.

Lemma burst_armed debounceMs rest : ∀ s first,
  owned s → Forall (λ p, p.1 < debounceMs) rest →
  armed debounceMs (lastValue first rest) (sent s) (burst debounceMs s first rest).
Proof.
  induction rest as [|[gap v] rest IH]; intros s first Hown Hgaps.
  - by apply handleChange_armed.
  - rewrite burst_cons. apply Forall_cons in Hgaps as [Hgap Hgaps].
    destruct (advance_early debounceMs first (sent s)
                (handleChange debounceMs first s) gap) as [Hown' Hsent'];
      [by apply handleChange_armed | done |].
    specialize (IH _ v Hown' Hgaps). by rewrite Hsent' in IH; rewrite lastValue_cons.
Qed.

(** C9: every change sets the local value at once. In a burst that starts
    with no timer pending and whose changes each come less than the quiet
    window after the one before, nothing reaches [onChange] during the
    burst nor before a full window has passed after its last change; once
    the window has passed, [onChange] has been called exactly once more,
    with the last value of the burst, and no timer is left. *)
Theorem debounce_burst debounceMs s first rest :
  timers s = [] → Forall (λ p, p.1 < debounceMs) rest →
  let s' := burst debounceMs s first rest in
  (∀ v s0, localValue (handleChange debounceMs v s0) = v) ∧
  localValue s' = lastValue first rest ∧
  (∀ k, sent (burst debounceMs s first (take k rest)) = sent s) ∧
  (∀ wait, wait < debounceMs → sent (advance wait s') = sent s) ∧
  sent (advance debounceMs s') = sent s ++ [lastValue first rest] ∧
  timers (advance debounceMs s') = [].
Proof.
  intros Ht Hgaps s'.
  assert (Hown : owned s).
  { intros tm Htm. rewrite Ht in Htm. by apply elem_of_nil in Htm. }
  pose proof (burst_armed debounceMs rest s first Hown Hgaps) as Harmed.
  split_and!.
  - done.
  - by destruct Harmed as (t & _ & _ & _ & ?).
  - intros k.
    destruct (burst_armed debounceMs (take k rest) s first Hown) as (t & _ & _ & ? & _);
      [by apply Forall_take | done].
  - intros wait Hwait. by eapply advance_early.
  - by eapply advance_due.
  - by eapply advance_due.
Qed.

End facts.

Lemma debounce_burst_witness :
  let rest := [(40, 2); (100, 3); (149, 5)] in
  let s' := burst defaultDebounceMs restingSlider 1 rest in
  (∀ (v : nat) s0, localValue (handleChange defaultDebounceMs v s0) = v) ∧
  localValue s' = lastValue 1 rest ∧
  (∀ k, sent (burst defaultDebounceMs restingSlider 1 (take k rest))
        = sent restingSlider) ∧
  (∀ wait, wait < defaultDebounceMs → sent (advance wait s') = sent restingSlider) ∧
  sent (advance defaultDebounceMs s')
  = sent restingSlider ++ [lastValue 1 rest] ∧
  timers (advance defaultDebounceMs s') = [].
Proof.
  apply (debounce_burst defaultDebounceMs restingSlider 1
           [(40, 2); (100, 3); (149, 5)]).
  - reflexivity.
  - unfold defaultDebounceMs. repeat constructor; simpl; lia.
Defined.

(** The burst above sends 5 and nothing else. *)
Example burst_sends_last :
  sent (advance 150 (burst 150 restingSlider 1 [(40, 2); (100, 3); (149, 5)]))
  = [5].
Proof. vm_compute. reflexivity. Qed.

End SliderFacts.

(* ===================================================================== *)
(** * Facts about the select control                                      *)
(* ===================================================================== *)
Module SelectFacts.
Import Select.

Lemma digit_code c d :
  digitValue c = Some d → (48 ≤ N_of_ascii c ≤ 57)%N.
Proof.
  unfold digitValue.
  destruct (N.leb_spec 48 (N_of_ascii c)), (N.leb_spec (N_of_ascii c) 57);
    simpl; intros; simplify_eq. lia.
Qed.

Lemma digit_not_char c d (a : Ascii.ascii) :
  digitValue c = Some d → (N_of_ascii a < 48)%N ∨ (57 < N_of_ascii a)%N →
  Ascii.eqb c a = false.
Proof.
  intros Hd%digit_code Ha. apply Ascii.eqb_neq. intros ->. lia.
Qed.

Lemma digit_not_whiteSpace c d : digitValue c = Some d → isWhiteSpace c = false.
Proof.
  intros Hd%digit_code. unfold isWhiteSpace.
  destruct (N.leb_spec 9 (N_of_ascii c)), (N.leb_spec (N_of_ascii c) 13),
    (N.eqb_spec (N_of_ascii c) 32); simpl; try done; lia.
Qed.

(** A text that starts with a decimal digit is read as a number. *)
Lemma parseFloat_digit c d rest :
  digitValue c = Some d → isNaN (parseFloat (String c rest)) = false.
Proof.
  intros Hd. unfold parseFloat. cbn [skipWhiteSpace].
  rewrite (digit_not_whiteSpace c d Hd). cbn [sign].
  rewrite (digit_not_char c d "-" Hd), (digit_not_char c d "+" Hd);
    [|left; vm_compute; reflexivity|left; vm_compute; reflexivity].
  cbn [String.prefix].
  destruct (ascii_dec "I" c) as [<-|_]; [by vm_compute in Hd|].
  cbn [digits]. rewrite Hd. destruct (digits rest) as [ds r].
  destruct r as [|a r]; [done|].
  destruct (Ascii.eqb a "."); [|done].
  unfold fractionLiteral. by destruct (digits r) as [[|f fp] r'].
Qed.

(** C10: [handleChange] passes [parseFloat] of the text of the option to
    [onChange] whenever that is not [NaN], and the text itself otherwise; a
    text that starts with a decimal digit is always passed as a number, and
    the option "2x" is passed as the number 2, not as the text "2x". *)
Theorem handleChange_delivers :
  (∀ rawValue,
     handleChange rawValue =
     match parseFloat rawValue with
     | NaN => PStr rawValue
     | n => PNum n
     end) ∧
  (∀ c d rest, digitValue c = Some d →
     handleChange (String c rest) = PNum (parseFloat (String c rest))) ∧
  handleChange "2x" = PNum (Finite false 2 0) ∧
  handleChange "2x" ≠ PStr "2x".
Proof.
  split_and!.
  - intros rawValue. unfold handleChange. by destruct (parseFloat rawValue).
  - intros c d rest Hd. unfold handleChange.
    by rewrite (parseFloat_digit c d rest Hd).
  - reflexivity.
  - discriminate.
Qed.

Lemma handleChange_delivers_witness :
  handleChange "12.5" = PNum (parseFloat "12.5") ∧
  handleChange "fast" = PStr "fast".
Proof.
  destruct handleChange_delivers as (Hall & Hdigit & _ & _). split.
  - apply (Hdigit "1"%char 1%N "2.5"%string). reflexivity.
  - rewrite (Hall "fast"%string). reflexivity.
Defined.

End SelectFacts.

(* ===================================================================== *)
(** * More facts about the layout engine: order of the layers            *)
(* ===================================================================== *)
Module LayoutOrder.
Import Layout LayoutInv LayoutFacts.

(** The in-degree the adjacency records is the number of entering edges. *)
Lemma adjacency_inDegree_Some nodes edges w d :
  inDegree (buildAdjacency nodes edges) !! w = Some d →
  d = Z.of_nat (length (sourcesOf w edges)).
Proof.
  unfold buildAdjacency. rewrite edges_inDegree, init_inDegree.
  destruct (sourcesOf w edges) as [|a l] eqn:E.
  - case_decide; [by intros [= <-]|]. simpl. by rewrite lookup_empty.
  - case_decide; simpl; [|rewrite lookup_empty]; simpl; intros [= <-]; lia.
Qed.

(** An id joins the next layer only after as many of its occurrences were
    relaxed as its remaining in-degree counted. *)
Lemma relax_fold_pushed vis T acc w :
  w ∈ (foldl (relax vis) acc T).2 → w ∉ acc.2 →
  ∃ d, acc.1 !! w = Some d ∧ (0 < d)%Z ∧ (d ≤ Z.of_nat (occ w T))%Z.
Proof.
  revert acc. induction T as [|t T IH]; intros acc Hin Hnot; [done|].
  cbn [foldl] in Hin. rewrite occ_cons.
  destruct (decide (w ∈ (relax vis acc t).2)) as [Hnow|Hlater].
  - unfold relax in Hnow. destruct (decide (t ∈ vis)); [done|].
    destruct (acc.1 !! t) as [dt|] eqn:E; [|done]. simpl in Hnow.
    case_decide as Hz; [|done].
    apply elem_of_app in Hnow as [?|Hw%list_elem_of_singleton]; [done|]. subst t.
    exists dt. rewrite decide_True; [|done]. split_and!; [done|lia|lia].
  - destruct (IH _ Hin Hlater) as (d' & Hd' & Hpos & Hle).
    unfold relax in Hd'. destruct (decide (t ∈ vis)) as [Ht|Ht].
    + exists d'. split_and!; [done|done|]. case_decide; lia.
    + destruct (acc.1 !! t) as [dt|] eqn:E.
      * simpl in Hd'. destruct (decide (t = w)) as [->|Hne].
        -- rewrite lookup_insert_eq in Hd'. simplify_eq. exists dt.
           split_and!; [done|lia|lia].
        -- rewrite lookup_insert_ne in Hd'; [|done]. exists d'.
           split_and!; [done|done|lia].
      * exists d'. split_and!; [done|done|]. case_decide; lia.
Qed.

Lemma sweepStep_pushed out s cur w :
  w ∈ (sweepStep out s cur).2 →
  ∃ d, degree s !! w = Some d ∧ (0 < d)%Z ∧
       (d ≤ Z.of_nat (occ w (relaxed out cur)))%Z.
Proof.
  unfold sweepStep. simpl. rewrite relaxNode_flat. intros Hin.
  apply relax_fold_pushed in Hin; [|by intros ?%elem_of_nil].
  simpl in Hin. by rewrite markLayer_degree in Hin.
Qed.

Lemma elem_of_mjoin_layers (ls : list (list string)) w :
  w ∈ mjoin ls ↔ w ∈ layerIds ls.
Proof. unfold layerIds. by rewrite elem_of_list_to_set. Qed.

Lemma sweepInv_initial nodes edges :
  NoDup (id <$> nodes) →
  sweepInv nodes edges (initialSweep (buildAdjacency nodes edges))
    (sources (inDegree (buildAdjacency nodes edges)) nodes).
Proof.
  intros Hnd. split; simpl.
  - done.
  - by apply NoDup_sources.
  - intros w _. destruct (inDegree _ !! w); simpl; [|done].
    f_equal. unfold occ. simpl. lia.
  - intros w j. rewrite lookup_empty. split; [done|].
    intros (l & Hl & _). by rewrite lookup_nil in Hl.
  - intros e He Hsrc. apply elem_of_sources in Hsrc as [Hdecl Hzero].
    apply adjacency_inDegree_Some in Hzero.
    assert (from_node e ∈ sourcesOf (to_node e) edges) as Hin.
    { apply elem_of_sourcesOf. by exists e. }
    destruct (sourcesOf (to_node e) edges); [by apply elem_of_nil in Hin|].
    simpl in Hzero. lia.
  - intros e _ Hv. set_solver.
Qed.

Lemma sweepInv_step nodes edges s cur :
  cur ≠ [] → sweepInv nodes edges s cur →
  sweepInv nodes edges
    (sweepStep (outEdges (buildAdjacency nodes edges)) s cur).1
    (sweepStep (outEdges (buildAdjacency nodes edges)) s cur).2.
Proof.
  intros _ [Hvis Hnodup Hdeg Hidx Hpend Hedges].
  set (out := outEdges (buildAdjacency nodes edges)) in *.
  assert (Hcur : ∀ w, w ∈ cur → w ∉ visited s).
  { intros w Hw Hv. rewrite Hvis in Hv. apply elem_of_mjoin_layers in Hv.
    apply NoDup_app in Hnodup as (_ & Hdisj & _). by apply (Hdisj w). }
  assert (Hlay : ∀ w j, nodeLayer s !! w = Some j →
                        w ∈ visited s ∧ j < length (layers s)).
  { intros w j Hj. apply Hidx in Hj as (l & Hl & Hw). split.
    - rewrite Hvis. apply elem_of_layerIds. exists l. split; [|done].
      by eapply list_elem_of_lookup_2.
    - by eapply lookup_lt_Some. }
  assert (Hkeep : ∀ w j, nodeLayer s !! w = Some j →
            nodeLayer (sweepStep out s cur).1 !! w = Some j).
  { intros w j Hj. rewrite sweepStep_nodeLayer.
    rewrite decide_False; [done|]. intros Hw.
    apply Hlay in Hj as [Hv _]. by apply (Hcur w). }
  split.
  - rewrite sweepStep_visited, sweepStep_layers, layerIds_app, layerIds_singleton.
    set_solver.
  - rewrite sweepStep_layers, mjoin_snoc.
    apply NoDup_app. split_and!; [done| |apply sweepStep_next_NoDup].
    intros x Hx Hnext. apply sweepStep_next in Hnext as [Hnext _].
    apply Hnext. rewrite sweepStep_visited, Hvis. unfold layerIds.
    apply elem_of_app in Hx as [Hx|Hx]; [apply elem_of_union_r | apply elem_of_union_l];
      by apply elem_of_list_to_set.
  - intros w Hw. rewrite sweepStep_visited in Hw.
    assert ((w ∉ visited s) ∧ (w ∉ cur)) as [Hnv Hnc].
    { rewrite elem_of_union, elem_of_list_to_set in Hw. tauto. }
    rewrite sweepStep_degree, (Hdeg w Hnv); [|done|done].
    rewrite sweepStep_layers, mjoin_snoc, relaxed_app, occ_app.
    destruct (inDegree _ !! w); simpl; [|done]. f_equal. subst out. lia.
  - intros w j. rewrite sweepStep_nodeLayer, sweepStep_layers. split.
    + case_decide as Hw.
      * intros [= <-]. exists cur. split; [|done].
        by apply list_lookup_middle.
      * intros Hj. apply Hidx in Hj as (l & Hl & Hwl). exists l. split; [|done].
        by apply lookup_app_l_Some.
    + intros (l & Hl & Hwl). apply lookup_app_Some in Hl as [Hl|[Hge Hl]].
      * rewrite decide_False.
        -- apply Hidx. eauto.
        -- intros Hw. apply (Hcur w Hw). rewrite Hvis. apply elem_of_layerIds.
           exists l. split; [|done]. by eapply list_elem_of_lookup_2.
      * apply list_lookup_singleton_Some in Hl as [Hz ->].
        rewrite decide_True; [|done]. f_equal. lia.
  - intros e He Hnext. rewrite sweepStep_visited.
    set (w := to_node e) in *.
    pose proof (sweepStep_next out s cur w Hnext) as [Hnv' _].
    rewrite sweepStep_visited in Hnv'.
    assert ((w ∉ visited s) ∧ (w ∉ cur)) as [Hnv Hnc].
    { rewrite elem_of_union, elem_of_list_to_set in Hnv'. tauto. }
    destruct (sweepStep_pushed out s cur w Hnext) as (d & Hd & Hpos & Hle).
    rewrite (Hdeg w Hnv) in Hd.
    destruct (inDegree (buildAdjacency nodes edges) !! w) as [d0|] eqn:Hd0; [|done].
    simpl in Hd. apply adjacency_inDegree_Some in Hd0.
    assert (Z.of_nat (length (sourcesOf w edges)) ≤
            Z.of_nat (occ w (relaxed out (mjoin (layers s) ++ cur))))%Z as Hall.
    { rewrite relaxed_app, occ_app. simplify_eq. lia. }
    destruct (decide (from_node e ∈ mjoin (layers s) ++ cur)) as [Hin|Hout].
    { apply elem_of_app in Hin as [Hin|Hin].
      - apply elem_of_union_r. rewrite Hvis. by apply elem_of_mjoin_layers.
      - apply elem_of_union_l. by apply elem_of_list_to_set. }
    exfalso.
    pose proof (occ_relaxed_le nodes edges (mjoin (layers s) ++ cur) w Hnodup) as Hocc.
    assert (length (filter (λ e, to_node e = w ∧
                                 from_node e ∈ mjoin (layers s) ++ cur) edges) <
            length (filter (λ e, to_node e = w) edges)) as Hlt.
    { apply (filter_length_lt _ _ _ e); [tauto | done | done | tauto]. }
    unfold sourcesOf in Hall. rewrite length_fmap in Hall.
    fold out in Hocc. lia.
  - intros e He Hto. rewrite sweepStep_visited in Hto.
    apply elem_of_union in Hto as [Hto|Hto].
    + apply elem_of_list_to_set in Hto.
      pose proof (Hpend e He Hto) as Hfrom.
      rewrite Hvis in Hfrom. apply elem_of_layerIds in Hfrom as (l & Hl & Hfl).
      apply list_elem_of_lookup in Hl as [i Hi].
      assert (nodeLayer s !! from_node e = Some i) as Hni by (apply Hidx; eauto).
      exists i, (length (layers s)). split_and!.
      * by apply Hkeep.
      * rewrite sweepStep_nodeLayer. by rewrite decide_True.
      * by eapply lookup_lt_Some.
    + destruct (Hedges e He Hto) as (i & j & Hi & Hj & Hlt).
      exists i, j. split_and!; [by apply Hkeep | by apply Hkeep | done].
Qed.

Lemma sweepInv_final nodes edges fuel s :
  NoDup (id <$> nodes) →
  sweep fuel (outEdges (buildAdjacency nodes edges))
    (initialSweep (buildAdjacency nodes edges))
    (sources (inDegree (buildAdjacency nodes edges)) nodes) = Ok s →
  sweepInv nodes edges s [].
Proof.
  intros Hnd Hs.
  refine (sweep_inv (sweepInv nodes edges) _ _ _ _ _ _ _ Hs).
  - intros s1 cur. apply sweepInv_step.
  - by apply sweepInv_initial.
Qed.

(** The sweep and the fall-back of [assignLayers], taken apart. *)
Lemma assignLayers_parts nodes edges fuel ls nl vis :
  assignLayers fuel (buildAdjacency nodes edges) nodes = Ok (ls, nl, vis) →
  ∃ s, sweep fuel (outEdges (buildAdjacency nodes edges))
         (initialSweep (buildAdjacency nodes edges))
         (sources (inDegree (buildAdjacency nodes edges)) nodes) = Ok s ∧
       vis = visited s ∧
       fallback (visited s) nodes (layers s) (nodeLayer s) = Ok (ls, nl) ∧
       ls = layers s ++ ((λ v, [v]) <$> unvisited (visited s) nodes).
Proof.
  unfold assignLayers. fold (initialSweep (buildAdjacency nodes edges)).
  destruct (sweep fuel _ _ _) as [s| |] eqn:Hs; simpl; try done.
  destruct (fallback_layers (visited s) nodes (layers s) (nodeLayer s)) as [nl' Hf].
  rewrite Hf. simpl. intros [= <- <- <-]. by exists s.
Qed.

Lemma edge_layers nodes edges fuel e :
  NoDup (id <$> nodes) → e ∈ edges →
  to_node e ∈ resolved fuel nodes edges →
  from_node e ∈ resolved fuel nodes edges ∧
  ∃ i j, layerOf fuel nodes edges (from_node e) = Some i ∧
         layerOf fuel nodes edges (to_node e) = Some j ∧ i < j.
Proof.
  intros Hnd He. unfold resolved, layerOf.
  destruct (assignLayers fuel _ nodes) as [[[ls nl] vis]| |] eqn:Ha;
    [|set_solver|set_solver].
  intros Hto. apply assignLayers_parts in Ha as (s & Hs & -> & Hf & _).
  pose proof (sweepInv_final nodes edges fuel s Hnd Hs) as Hinv.
  destruct (inv_edges _ _ _ _ Hinv e He Hto) as (i & j & Hi & Hj & Hlt).
  assert (Hfrom : from_node e ∈ visited s).
  { rewrite (inv_visited _ _ _ _ Hinv). apply elem_of_layerIds.
    apply (inv_index _ _ _ _ Hinv) in Hi as (l & Hl & Hin).
    exists l. split; [by eapply list_elem_of_lookup_2 | done]. }
  split; [done|]. exists i, j.
  pose proof (fallback_nodeLayer _ _ _ _ _ _ (from_node e) Hf) as H1.
  pose proof (fallback_nodeLayer _ _ _ _ _ _ (to_node e) Hf) as H2.
  rewrite decide_False in H1; [|rewrite elem_of_unvisited; tauto].
  rewrite decide_False in H2; [|rewrite elem_of_unvisited; tauto].
  by rewrite H1, H2.
Qed.

(** Layer monotonicity: on a graph with distinct node ids, when the sweep
    resolves the target of an edge it has resolved its source before, and
    the source lies in a layer of smaller index. *)
Theorem layers_follow_edges nodes edges fuel e :
  NoDup (id <$> nodes) → e ∈ edges →
  to_node e ∈ resolved fuel nodes edges →
  from_node e ∈ resolved fuel nodes edges ∧
  ∃ i j, layerOf fuel nodes edges (from_node e) = Some i ∧
         layerOf fuel nodes edges (to_node e) = Some j ∧ i < j.
Proof. apply edge_layers. Qed.

Lemma layers_follow_edges_witness :
  from_node (mkEdge "B" "D") ∈ resolved 9 diamondNodes diamondEdges ∧
  ∃ i j, layerOf 9 diamondNodes diamondEdges (from_node (mkEdge "B" "D")) = Some i ∧
         layerOf 9 diamondNodes diamondEdges (to_node (mkEdge "B" "D")) = Some j ∧
         i < j.
Proof.
  apply (layers_follow_edges diamondNodes diamondEdges 9 (mkEdge "B" "D")).
  - apply (bool_decide_unpack (NoDup (id <$> diamondNodes))). vm_compute. exact I.
  - unfold diamondEdges. rewrite !elem_of_cons. tauto.
  - apply (bool_decide_unpack
             (to_node (mkEdge "B" "D") ∈ resolved 9 diamondNodes diamondEdges)).
    vm_compute. exact I.
Defined.

(** ** Where the nodes are placed *)

(** Setting keys that are not [k] leaves the entry of [k] as it was. *)
Lemma placeNodes_other (h : nat → Position) (qs : list (nat * string))
  (m : gmap string Position) k :
  k ∉ qs.*2 → foldl (λ m q, <[q.2 := h q.1]> m) m qs !! k = m !! k.
Proof.
  revert m. induction qs as [|q qs IH]; intros m Hk; [done|].
  rewrite fmap_cons, not_elem_of_cons in Hk. destruct Hk as [Hq Hk].
  cbn [foldl]. rewrite IH; [|done]. by rewrite lookup_insert_ne.
Qed.

Lemma placeNodes_lookup (h : nat → Position) (l : list string) :
  ∀ (k : nat) (m : gmap string Position) j v,
    NoDup l → l !! j = Some v →
    foldl (λ m q, <[q.2 := h q.1]> m) m (imap (λ i a, (k + i, a)) l) !! v
    = Some (h (k + j)).
Proof.
  induction l as [|a l IH]; intros k m j v Hnd Hj; [done|].
  apply NoDup_cons in Hnd as [Ha Hnd]. rewrite imap_cons. cbn [foldl].
  assert (Hshift : imap ((λ i a, (k + i, a)) ∘ S) l = imap (λ i a, (S k + i, a)) l).
  { apply imap_ext. intros i b _. simpl. f_equal. lia. }
  rewrite Hshift. destruct j as [|j]; simpl in Hj.
  + simplify_eq. rewrite placeNodes_other.
    * simpl. by rewrite lookup_insert_eq.
    * by rewrite snd_imap_shift.
  + rewrite (IH (S k) _ j v Hnd Hj). do 2 f_equal. lia.
Qed.

Lemma placeLayer_unfold maxSize m i layer :
  placeLayer maxSize m (i, layer) =
  foldl (λ m q, <[q.2 := placeOf maxSize i layer q.1]> m) m
        (imap (λ j a, (0 + j, a)) layer).
Proof. reflexivity. Qed.

Lemma placeLayer_other maxSize m i layer k :
  k ∉ layer → placeLayer maxSize m (i, layer) !! k = m !! k.
Proof.
  intros Hk. rewrite placeLayer_unfold, placeNodes_other; [done|].
  by rewrite snd_imap_shift.
Qed.

Lemma placeLayer_lookup maxSize m i layer j v :
  NoDup layer → layer !! j = Some v →
  placeLayer maxSize m (i, layer) !! v = Some (placeOf maxSize i layer j).
Proof.
  intros Hnd Hj. rewrite placeLayer_unfold.
  by rewrite (placeNodes_lookup _ layer 0 m j v Hnd Hj).
Qed.

Lemma placeLayers_other maxSize (ps : list (nat * list string)) m k :
  k ∉ mjoin (ps.*2) → foldl (placeLayer maxSize) m ps !! k = m !! k.
Proof.
  revert m. induction ps as [|[i l] ps IH]; intros m Hk; [done|].
  rewrite fmap_cons in Hk. simpl in Hk. rewrite elem_of_app in Hk.
  cbn [foldl]. rewrite IH; [|tauto]. apply placeLayer_other. tauto.
Qed.

Lemma placeLayers_lookup maxSize (ls : list (list string)) :
  ∀ (k : nat) (m : gmap string Position) i l j v,
    NoDup (mjoin ls) → ls !! i = Some l → l !! j = Some v →
    foldl (placeLayer maxSize) m (imap (λ i l, (k + i, l)) ls) !! v
    = Some (placeOf maxSize (k + i) l j).
Proof.
  induction ls as [|l0 ls IH]; intros k m i l j v Hnd Hi Hj; [done|].
  simpl in Hnd. apply NoDup_app in Hnd as (Hnd0 & Hdisj & Hnd).
  rewrite imap_cons. cbn [foldl].
  assert (Hshift : imap ((λ i l, (k + i, l)) ∘ S) ls = imap (λ i l, (S k + i, l)) ls).
  { apply imap_ext. intros i' b _. simpl. f_equal. lia. }
  rewrite Hshift. destruct i as [|i]; simpl in Hi.
  + simplify_eq. rewrite placeLayers_other.
    * replace (k + 0) with k by lia. by apply placeLayer_lookup.
    * rewrite snd_imap_shift. apply Hdisj. by eapply list_elem_of_lookup_2.
  + rewrite (IH (S k) _ i l j v Hnd Hi Hj). do 2 f_equal. lia.
Qed.

Lemma finalPositions_lookup ls i l j v :
  NoDup (mjoin ls) → ls !! i = Some l → l !! j = Some v →
  finalPositions ls !! v = Some (placeOf (maxLayerSize ls) i l j).
Proof.
  intros Hnd Hi Hj. unfold finalPositions.
  exact (placeLayers_lookup (maxLayerSize ls) ls 0 ∅ i l j v Hnd Hi Hj).
Qed.

Lemma mjoin_perm (ls ls' : list (list string)) :
  Forall2 (≡ₚ) ls ls' → mjoin ls ≡ₚ mjoin ls'.
Proof.
  induction 1 as [|a b ls ls' Hab H IH]; [done|]. simpl. by rewrite Hab, IH.
Qed.

Lemma NoDup_unvisited vis nodes :
  NoDup (id <$> nodes) → NoDup (unvisited vis nodes).
Proof.
  unfold unvisited. intros Hnd. eapply sublist_NoDup; [exact Hnd|].
  apply fmap_sublist, sublist_filter.
Qed.

(** With distinct node ids no id occurs twice in the layers. *)
Lemma assignLayers_NoDup nodes edges fuel ls nl vis :
  NoDup (id <$> nodes) →
  assignLayers fuel (buildAdjacency nodes edges) nodes = Ok (ls, nl, vis) →
  NoDup (mjoin ls).
Proof.
  intros Hnd Ha. apply assignLayers_parts in Ha as (s & Hs & -> & Hf & ->).
  pose proof (sweepInv_final nodes edges fuel s Hnd Hs) as Hinv.
  rewrite join_app, mjoin_singletons. apply NoDup_app. split_and!.
  - pose proof (inv_nodup _ _ _ _ Hinv) as H. by rewrite app_nil_r in H.
  - intros w Hw Hu. apply elem_of_unvisited in Hu as [_ Hu]. apply Hu.
    rewrite (inv_visited _ _ _ _ Hinv). by apply elem_of_mjoin_layers.
  - by apply NoDup_unvisited.
Qed.

Lemma drawnLayers_NoDup nodes edges fuel :
  NoDup (id <$> nodes) → NoDup (mjoin (drawnLayers fuel nodes edges)).
Proof.
  intros Hnd. unfold drawnLayers.
  destruct (assignLayers fuel _ nodes) as [[[ls nl] vis]| |] eqn:Ha;
    [|apply NoDup_nil_2|apply NoDup_nil_2].
  rewrite <- (mjoin_perm ls); [|apply orderedLayers_perm].
  by eapply assignLayers_NoDup.
Qed.

Lemma calculateLayout_drawn nodes edges fuel positions :
  calculateLayout fuel nodes edges = Ok positions →
  positions = finalPositions (drawnLayers fuel nodes edges).
Proof.
  unfold calculateLayout, drawnLayers. destruct nodes as [|n nodes].
  - intros [= <-]. by destruct fuel.
  - destruct (assignLayers fuel _ (n :: nodes)) as [[[ls nl] vis]| |];
      simpl; [|done|done]. by intros [= <-].
Qed.

Lemma places_of_layout nodes edges fuel positions :
  NoDup (id <$> nodes) →
  calculateLayout fuel nodes edges = Ok positions →
  let ls := drawnLayers fuel nodes edges in
  (∀ i l j v, ls !! i = Some l → l !! j = Some v →
     positions !! v = Some (placeOf (maxLayerSize ls) i l j)) ∧
  (∀ v p, positions !! v = Some p →
     ∃ i l j, ls !! i = Some l ∧ l !! j = Some v ∧
              p = placeOf (maxLayerSize ls) i l j).
Proof.
  intros Hnd Hc ls. pose proof (drawnLayers_NoDup nodes edges fuel Hnd) as Hls.
  apply calculateLayout_drawn in Hc as ->. fold ls in Hls |- *.
  assert (H1 : ∀ i l j v, ls !! i = Some l → l !! j = Some v →
     finalPositions ls !! v = Some (placeOf (maxLayerSize ls) i l j)).
  { intros i l j v. by apply finalPositions_lookup. }
  split; [done|]. intros v p Hp.
  assert (v ∈ layerIds ls) as Hv.
  { rewrite <- dom_finalPositions. apply elem_of_dom. eauto. }
  apply elem_of_layerIds in Hv as (l & Hl & Hv).
  apply list_elem_of_lookup in Hl as [i Hi]. apply list_elem_of_lookup in Hv as [j Hj].
  exists i, l, j. split_and!; [done|done|].
  rewrite (H1 i l j v Hi Hj) in Hp. congruence.
Qed.

(** Coordinates: on a graph with distinct node ids, the node at index [j] of
    the drawn layer of index [i] is placed at [x = 280 * i] and
    [y = (100 * largest layer - 100 * its layer) / 2 + 100 * j]; every key of
    the position map is such a node. *)
Theorem calculateLayout_places nodes edges fuel positions :
  NoDup (id <$> nodes) →
  calculateLayout fuel nodes edges = Ok positions →
  let ls := drawnLayers fuel nodes edges in
  (∀ i l j v, ls !! i = Some l → l !! j = Some v →
     positions !! v = Some (placeOf (maxLayerSize ls) i l j)) ∧
  (∀ v p, positions !! v = Some p →
     ∃ i l j, ls !! i = Some l ∧ l !! j = Some v ∧
              p = placeOf (maxLayerSize ls) i l j).
Proof. apply places_of_layout. Qed.

Lemma calculateLayout_places_witness :
  let ls := drawnLayers 9 diamondNodes diamondEdges in
  (∀ i l j v, ls !! i = Some l → l !! j = Some v →
     finalPositions ls !! v = Some (placeOf (maxLayerSize ls) i l j)) ∧
  (∀ v p, finalPositions ls !! v = Some p →
     ∃ i l j, ls !! i = Some l ∧ l !! j = Some v ∧
              p = placeOf (maxLayerSize ls) i l j).
Proof.
  apply (calculateLayout_places diamondNodes diamondEdges 9).
  - apply (bool_decide_unpack (NoDup (id <$> diamondNodes))). vm_compute. exact I.
  - vm_compute. reflexivity.
Defined.

(** No overlap: on a graph with distinct node ids, two different keys of the
    position map never have the same position. *)
Theorem calculateLayout_no_overlap nodes edges fuel positions a b p :
  NoDup (id <$> nodes) →
  calculateLayout fuel nodes edges = Ok positions →
  positions !! a = Some p → positions !! b = Some p → a = b.
Proof.
  intros Hnd Hc Ha Hb.
  destruct (places_of_layout nodes edges fuel positions Hnd Hc) as [_ Hall].
  destruct (Hall a p Ha) as (i & l & j & Hi & Hj & Hp).
  destruct (Hall b p Hb) as (i' & l' & j' & Hi' & Hj' & Hp').
  rewrite Hp in Hp'. unfold placeOf, HORIZONTAL_SPACING, VERTICAL_SPACING in Hp'.
  injection Hp' as Hx Hy.
  assert (i = i') by lia. subst i'.
  assert (l = l') by congruence. subst l'.
  assert (j = j') by lia. subst j'. congruence.
Qed.

Lemma calculateLayout_no_overlap_witness :
  ("A" : string) = "A".
Proof.
  apply (calculateLayout_no_overlap diamondNodes diamondEdges 9
           (finalPositions (drawnLayers 9 diamondNodes diamondEdges))
           "A" "A" {| x := 0; y := 50 |}).
  - apply (bool_decide_unpack (NoDup (id <$> diamondNodes))). vm_compute. exact I.
  - vm_compute. reflexivity.
  - vm_compute. reflexivity.
  - vm_compute. reflexivity.
Defined.

(** The drawn layer of index [j] holds the ids to which the sweep gave the
    layer index [j]. *)
Lemma resolved_drawn nodes edges fuel w j :
  NoDup (id <$> nodes) →
  w ∈ resolved fuel nodes edges → layerOf fuel nodes edges w = Some j →
  ∃ l k, drawnLayers fuel nodes edges !! j = Some l ∧ l !! k = Some w.
Proof.
  intros Hnd. unfold resolved, layerOf, drawnLayers.
  destruct (assignLayers fuel _ nodes) as [[[ls nl] vis]| |] eqn:Ha;
    [|set_solver|set_solver].
  intros Hw Hj. apply assignLayers_parts in Ha as (s & Hs & -> & Hf & Hls).
  pose proof (sweepInv_final nodes edges fuel s Hnd Hs) as Hinv.
  pose proof (fallback_nodeLayer _ _ _ _ _ _ w Hf) as Hnl.
  rewrite decide_False in Hnl; [|rewrite elem_of_unvisited; tauto].
  rewrite Hnl in Hj. apply (inv_index _ _ _ _ Hinv) in Hj as (l & Hl & Hin).
  assert (ls !! j = Some l) as Hlj by (rewrite Hls; by apply lookup_app_l_Some).
  pose proof (orderedLayers_perm (buildAdjacency nodes edges) ls) as Hperm.
  destruct (Forall2_lookup_l _ _ _ _ _ Hperm Hlj) as (l' & Hl' & Hp).
  rewrite Hp in Hin. apply list_elem_of_lookup in Hin as [k Hk]. eauto.
Qed.

(** Edges point to the right: on a graph with distinct node ids, an edge
    whose target the sweep resolved is drawn from a smaller [x] to a larger
    one. *)
Theorem edges_point_right nodes edges fuel positions e :
  NoDup (id <$> nodes) →
  calculateLayout fuel nodes edges = Ok positions →
  e ∈ edges → to_node e ∈ resolved fuel nodes edges →
  ∃ p q, positions !! from_node e = Some p ∧ positions !! to_node e = Some q ∧
         (x p < x q)%Z.
Proof.
  intros Hnd Hc He Hto.
  destruct (places_of_layout nodes edges fuel positions Hnd Hc) as [Hall _].
  destruct (edge_layers nodes edges fuel e Hnd He Hto)
    as (Hfrom & i & j & Hi & Hj & Hlt).
  destruct (resolved_drawn nodes edges fuel _ i Hnd Hfrom Hi) as (l1 & k1 & Hl1 & Hk1).
  destruct (resolved_drawn nodes edges fuel _ j Hnd Hto Hj) as (l2 & k2 & Hl2 & Hk2).
  eexists _, _. split_and!.
  - exact (Hall i l1 k1 _ Hl1 Hk1).
  - exact (Hall j l2 k2 _ Hl2 Hk2).
  - unfold placeOf, HORIZONTAL_SPACING. simpl. lia.
Qed.

Lemma edges_point_right_witness :
  ∃ p q,
    finalPositions (drawnLayers 9 diamondNodes diamondEdges)
      !! from_node (mkEdge "B" "D") = Some p ∧
    finalPositions (drawnLayers 9 diamondNodes diamondEdges)
      !! to_node (mkEdge "B" "D") = Some q ∧
    (x p < x q)%Z.
Proof.
  apply (edges_point_right diamondNodes diamondEdges 9).
  - apply (bool_decide_unpack (NoDup (id <$> diamondNodes))). vm_compute. exact I.
  - vm_compute. reflexivity.
  - unfold diamondEdges. rewrite !elem_of_cons. tauto.
  - apply (bool_decide_unpack
             (to_node (mkEdge "B" "D") ∈ resolved 9 diamondNodes diamondEdges)).
    vm_compute. exact I.
Defined.

End LayoutOrder.

(* ===================================================================== *)
(** * Facts about [convertToReactFlow]                                    *)
(* ===================================================================== *)
Module LayoutFlow.
Import Layout LayoutFacts.

(** Every declared node id is a key of the position map. *)
Lemma declared_placed nodes edges fuel :
  enoughFuel nodes edges ≤ fuel →
  ∃ positions, calculateLayout fuel nodes edges = Ok positions ∧
               ∀ n, n ∈ nodes → is_Some (positions !! id n).
Proof.
  intros Hfuel.
  destruct (calculateLayout_dom nodes edges fuel Hfuel) as (pos & vis & Hp & Hd & _).
  exists pos. split; [done|]. intros n Hn. apply elem_of_dom. rewrite Hd.
  destruct (decide (id n ∈ vis)); [set_solver|].
  apply elem_of_union_r, elem_of_list_to_set, elem_of_unvisited.
  split; [|done]. apply list_elem_of_fmap. eauto.
Qed.

(** Nodes of the flow: [convertToReactFlow] returns one flow node per graph
    node, in order and with the same id, and each is at the position
    [calculateLayout] gave to its id; the default position is never used. *)
Theorem flow_nodes_placed nodes edges fuel selectedNodeId selectedTensorId :
  enoughFuel nodes edges ≤ fuel →
  ∃ positions flowNodes flowEdges,
    calculateLayout fuel nodes edges = Ok positions ∧
    convertToReactFlow fuel nodes edges selectedNodeId selectedTensorId
    = Ok (flowNodes, flowEdges) ∧
    fn_id <$> flowNodes = id <$> nodes ∧
    Forall (λ f, positions !! fn_id f = Some (fn_position f)) flowNodes.
Proof.
  intros Hfuel.
  destruct (declared_placed nodes edges fuel Hfuel) as (pos & Hp & Hall).
  exists pos. eexists _, _. unfold convertToReactFlow. rewrite Hp. simpl.
  split_and!; [done|done| |].
  - rewrite <- list_fmap_compose. by apply list_fmap_ext.
  - apply Forall_fmap, Forall_forall. intros n Hn. simpl.
    by destruct (Hall n Hn) as [p ->].
Qed.

Lemma flow_nodes_placed_witness :
  ∃ positions flowNodes flowEdges,
    calculateLayout 9 diamondNodes diamondEdges = Ok positions ∧
    convertToReactFlow 9 diamondNodes diamondEdges (Some "A"%string) None
    = Ok (flowNodes, flowEdges) ∧
    fn_id <$> flowNodes = id <$> diamondNodes ∧
    Forall (λ f, positions !! fn_id f = Some (fn_position f)) flowNodes.
Proof.
  apply (flow_nodes_placed diamondNodes diamondEdges 9).
  vm_compute. lia.
Defined.

(** ** Edges of the flow *)
Lemma NoDup_imap_index {A B} (f : nat → A → B) (l : list A) :
  (∀ i j a b, f i a = f j b → i = j) → NoDup (imap f l).
Proof.
  revert f. induction l as [|a l IH]; intros f Hinj; [constructor|].
  rewrite imap_cons. apply NoDup_cons. split.
  - intros Hin. apply elem_of_lookup_imap_1 in Hin as (i & b & Heq & _).
    simpl in Heq. by apply Hinj in Heq.
  - apply IH. intros i j a' b Heq. simpl in Heq. apply Hinj in Heq. lia.
Qed.

Lemma edge_id_inj (i j : nat) :
  ("edge-" +:+ pretty i)%string = ("edge-" +:+ pretty j)%string → i = j.
Proof. simpl. intros [= H]. by apply (inj pretty). Qed.

Lemma fmap_imap_ignore {A B C} (g : B → C) (f : nat → A → B) (h : A → C)
  (l : list A) :
  (∀ i a, g (f i a) = h a) → g <$> imap f l = h <$> l.
Proof.
  revert f. induction l as [|a l IH]; intros f Hf; [done|].
  rewrite imap_cons. simpl. f_equal; [apply Hf|]. apply IH.
  intros i b. apply Hf.
Qed.

(** Edges of the flow: [convertToReactFlow] returns one flow edge per graph
    edge, in order, from the source node and port to the target node and
    port of that edge, and the ids of the flow edges are pairwise distinct,
    parallel edges included. *)
Theorem flow_edges_distinct nodes edges fuel selectedNodeId selectedTensorId
    flowNodes flowEdges :
  convertToReactFlow fuel nodes edges selectedNodeId selectedTensorId
  = Ok (flowNodes, flowEdges) →
  NoDup (fe_id <$> flowEdges) ∧
  source <$> flowEdges = from_node <$> edges ∧
  sourceHandle <$> flowEdges = from_output <$> edges ∧
  target <$> flowEdges = to_node <$> edges ∧
  targetHandle <$> flowEdges = to_input <$> edges.
Proof.
  unfold convertToReactFlow.
  destruct (calculateLayout fuel nodes edges) as [pos| |]; simpl; [|done|done].
  intros [= <- <-]. split_and!.
  - rewrite fmap_imap. apply NoDup_imap_index.
    intros i j a b. simpl. apply edge_id_inj.
  - by apply fmap_imap_ignore.
  - by apply fmap_imap_ignore.
  - by apply fmap_imap_ignore.
  - by apply fmap_imap_ignore.
Qed.

Lemma flow_edges_distinct_witness :
  ∃ flowEdges,
    NoDup (fe_id <$> flowEdges) ∧
    source <$> flowEdges = from_node <$> [mkEdge "A" "B"; mkEdge "A" "B"] ∧
    sourceHandle <$> flowEdges = from_output <$> [mkEdge "A" "B"; mkEdge "A" "B"] ∧
    target <$> flowEdges = to_node <$> [mkEdge "A" "B"; mkEdge "A" "B"] ∧
    targetHandle <$> flowEdges = to_input <$> [mkEdge "A" "B"; mkEdge "A" "B"].
Proof.
  eexists.
  eapply (flow_edges_distinct [mkNode "A"; mkNode "B"]
            [mkEdge "A" "B"; mkEdge "A" "B"] 5 None None).
  vm_compute. reflexivity.
Defined.

(** ** The operator type shown in a node *)
Lemma beforeUnderscore_prefix ty rest :
  noUnderscore ty → beforeUnderscore (ty +:+ String "_" rest) = ty.
Proof.
  unfold noUnderscore. induction ty as [|c ty IH]; simpl; intros Hno; [done|].
  apply Forall_cons in Hno as [Hc Hno].
  rewrite (proj2 (Ascii.eqb_neq c "_") Hc). f_equal. by apply IH.
Qed.

Lemma beforeUnderscore_whole s : noUnderscore s → beforeUnderscore s = s.
Proof.
  unfold noUnderscore. induction s as [|c s IH]; simpl; intros Hno; [done|].
  apply Forall_cons in Hno as [Hc Hno].
  rewrite (proj2 (Ascii.eqb_neq c "_") Hc). f_equal. by apply IH.
Qed.

Lemma beforeUnderscore_is_prefix s :
  String.prefix (beforeUnderscore s) s = true.
Proof.
  induction s as [|c s IH]; simpl; [done|].
  destruct (Ascii.eqb c "_"); simpl; [done|].
  by destruct (ascii_dec c c).
Qed.

Lemma prefix_refl s : String.prefix s s = true.
Proof. induction s as [|c s IH]; simpl; [done|]. by destruct (ascii_dec c c). Qed.

Lemma id_shapes nodeId :
  noUnderscore nodeId ∨ (∃ rest, nodeId = String "_" rest) ∨
  (∃ ty rest, ty ≠ EmptyString ∧ noUnderscore ty ∧
              nodeId = ty +:+ String "_" rest).
Proof.
  induction nodeId as [|c s IH]; [left; constructor|].
  destruct (ascii_dec c "_") as [->|Hc]; [right; left; by eexists|].
  destruct IH as [Hno|[[rest ->]|(ty & rest & _ & Hno & ->)]].
  - left. by constructor.
  - right. right. exists (String c EmptyString), rest.
    split_and!; [done| |done]. by repeat constructor.
  - right. right. exists (String c ty), rest.
    split_and!; [done| |done]. by constructor.
Qed.

(** Operator type: every id has one of three shapes, and each shape shows
    one thing. An id made of a non-empty type without underscore, an
    underscore and anything else (as in matmul_1) shows that type; an id
    without underscore shows itself; an id that starts with an underscore
    shows itself, whole. Whatever the id, what is shown is a prefix of it
    that is empty only when the id is. *)
Theorem operatorType_of_id :
  (∀ ty rest, ty ≠ EmptyString → noUnderscore ty →
     operatorTypeOf (ty +:+ String "_" rest) = ty) ∧
  (∀ nodeId, noUnderscore nodeId → operatorTypeOf nodeId = nodeId) ∧
  (∀ rest, operatorTypeOf (String "_" rest) = String "_" rest) ∧
  (∀ nodeId,
     noUnderscore nodeId ∨ (∃ rest, nodeId = String "_" rest) ∨
     (∃ ty rest, ty ≠ EmptyString ∧ noUnderscore ty ∧
                 nodeId = ty +:+ String "_" rest)) ∧
  (∀ nodeId, String.prefix (operatorTypeOf nodeId) nodeId = true ∧
             (operatorTypeOf nodeId = EmptyString → nodeId = EmptyString)).
Proof.
  split_and!.
  - intros ty rest Hne Hno. unfold operatorTypeOf.
    rewrite beforeUnderscore_prefix; [|done]. by destruct ty.
  - intros nodeId Hno. unfold operatorTypeOf.
    rewrite beforeUnderscore_whole; [|done]. by destruct nodeId.
  - intros rest. reflexivity.
  - apply id_shapes.
  - intros nodeId. unfold operatorTypeOf.
    pose proof (beforeUnderscore_is_prefix nodeId) as Hp.
    destruct (beforeUnderscore nodeId) eqn:E; [|done].
    split; [apply prefix_refl | done].
Qed.

Lemma operatorType_of_id_witness :
  operatorTypeOf "matmul_1" = "matmul"%string ∧
  operatorTypeOf "svd" = "svd"%string ∧
  operatorTypeOf "_foo" = "_foo"%string.
Proof.
  destruct operatorType_of_id as (Hconv & Hwhole & Hunder & _). split_and!.
  - apply (Hconv "matmul"%string "1"%string); [done|].
    unfold noUnderscore. simpl. repeat constructor; discriminate.
  - apply (Hwhole "svd"%string).
    unfold noUnderscore. simpl. repeat constructor; discriminate.
  - apply (Hunder "foo"%string).
Defined.

End LayoutFlow.

(* ===================================================================== *)
(** * Facts about the sockets of the hook                                 *)
(* ===================================================================== *)
Module ConnectionLive.
Import Connection ConnectionInv.

Lemma live_cases r : live r ↔ r = OPEN ∨ r = CONNECTING.
Proof. done. Qed.

Lemma liveInv_initial : liveInv initialHook.
Proof. split; [intros i r Hi; by destruct i|done]. Qed.

Lemma liveInv_connect h : liveInv h → liveInv (connect h).
Proof.
  intros [Hcur Hb]. unfold connect.
  destruct (currentReadyState h) as [r|] eqn:Hr.
  - assert (¬ live r → liveInv
      {| sockets := sockets h ++ [CONNECTING];
         wsRef := Some (length (sockets h));
         reconnectAttemptsRef := reconnectAttemptsRef h;
         reconnectTimeoutRef := reconnectTimeoutRef h;
         isConnected := isConnected h; timers := timers h;
         timerCount := timerCount h |}) as Hnew.
    { intros Hnl. split; simpl.
      - intros i r' Hi Hl. apply lookup_app_Some in Hi as [Hi|[Hge Hi]].
        + exfalso. apply Hnl. pose proof (Hcur i r' Hi Hl) as Hw.
          unfold currentReadyState in Hr. rewrite Hw in Hr. simpl in Hr.
          by simplify_eq.
        + apply list_lookup_singleton_Some in Hi as [Hi _]. f_equal. lia.
      - intros i [= <-]. rewrite length_app. simpl. lia. }
    destruct r; first [by split | apply Hnew; intros [?|?]; done].
  - split; simpl.
    + intros i r' Hi Hl. apply lookup_app_Some in Hi as [Hi|[Hge Hi]].
      * pose proof (Hcur i r' Hi Hl) as Hw.
        unfold currentReadyState in Hr. rewrite Hw in Hr. simpl in Hr.
        by simplify_eq.
      * apply list_lookup_singleton_Some in Hi as [Hi _]. f_equal. lia.
    + intros i [= <-]. rewrite length_app. simpl. lia.
Qed.

Lemma liveInv_onopen i h :
  sockets h !! i = Some CONNECTING → liveInv h → liveInv (onopen i h).
Proof.
  intros Hi [Hcur Hb]. split; simpl.
  - intros j r Hj Hl. destruct (decide (j = i)) as [->|Hne].
    + apply (Hcur i CONNECTING Hi). by right.
    + rewrite list_lookup_insert_ne in Hj by done. by apply (Hcur j r).
  - intros j Hj. rewrite length_insert. by apply Hb.
Qed.

Lemma liveInv_onclose maxReconnectAttempts i h :
  liveInv h → liveInv (onclose maxReconnectAttempts i h).
Proof.
  intros [Hcur Hb]. unfold onclose. case_decide; split; simpl.
  all: try (intros j Hj; rewrite length_insert; by apply Hb).
  all: intros j r Hj Hl; destruct (decide (j = i)) as [->|Hne];
    [|rewrite list_lookup_insert_ne in Hj by done; by apply (Hcur j r)].
  all: apply list_lookup_insert_Some in Hj as [(_ & <- & _)|[? _]]; [|done].
  all: by destruct Hl.
Qed.

Lemma liveInv_clearTimeout t h : liveInv h → liveInv (clearTimeout t h).
Proof. intros [Hcur Hb]. by split. Qed.

Lemma liveInv_closeSocket i h : liveInv h → liveInv (closeSocket i h).
Proof.
  intros [Hcur Hb]. unfold closeSocket.
  assert (liveInv
    {| sockets := <[i := CLOSING]> (sockets h); wsRef := wsRef h;
       reconnectAttemptsRef := reconnectAttemptsRef h;
       reconnectTimeoutRef := reconnectTimeoutRef h;
       isConnected := isConnected h;
       timers := timers h; timerCount := timerCount h |}) as Hnew.
  { split; simpl.
    - intros j r Hj Hl. destruct (decide (j = i)) as [->|Hne].
      + apply list_lookup_insert_Some in Hj as [(_ & <- & _)|[? _]]; [|done].
        by destruct Hl.
      + rewrite list_lookup_insert_ne in Hj by done. by apply (Hcur j r).
    - intros j Hj. rewrite length_insert. by apply Hb. }
  destruct (sockets h !! i) as [[]|]; done.
Qed.

Lemma liveInv_cleanup h : liveInv h → liveInv (cleanup h).
Proof.
  intros Hinv. unfold cleanup.
  set (h1 := match reconnectTimeoutRef h with
             | Some (S t) => clearTimeout (S t) h
             | _ => h
             end).
  assert (liveInv h1) as Hinv1.
  { subst h1. destruct (reconnectTimeoutRef h) as [[|t]|]; try done.
    by apply liveInv_clearTimeout. }
  cbv zeta. destruct (wsRef h1); [by apply liveInv_closeSocket|done].
Qed.

Lemma liveInv_step maxReconnectAttempts h ev :
  liveInv h → liveInv (step maxReconnectAttempts h ev).
Proof.
  intros Hinv. destruct ev as [| |i|i|t]; simpl.
  - by apply liveInv_connect.
  - by apply liveInv_cleanup.
  - destruct (sockets h !! i) as [[]|] eqn:Hi; try done.
    by apply liveInv_onopen.
  - destruct (sockets h !! i) as [[]|] eqn:Hi; try done;
      by apply liveInv_onclose.
  - case_decide; [|done]. by apply liveInv_connect, liveInv_clearTimeout.
Qed.

Lemma liveInv_run maxReconnectAttempts evs :
  liveInv (run maxReconnectAttempts initialHook evs).
Proof.
  unfold run. apply foldl_inv; [apply liveInv_initial|].
  intros h ev _. apply liveInv_step.
Qed.

(** Whatever happens to the hook, in whatever order (mounting, cleaning up,
    sockets opening and closing, timers firing), at most one of the sockets
    it has made is open or connecting, and that one is the socket in
    [wsRef]. *)
Theorem one_live_socket maxReconnectAttempts evs i j ri rj :
  sockets (run maxReconnectAttempts initialHook evs) !! i = Some ri →
  sockets (run maxReconnectAttempts initialHook evs) !! j = Some rj →
  live ri → live rj →
  i = j ∧ wsRef (run maxReconnectAttempts initialHook evs) = Some i.
Proof.
  intros Hi Hj Hli Hlj.
  destruct (liveInv_run maxReconnectAttempts evs) as [Hcur _].
  pose proof (Hcur i ri Hi Hli) as Hwi.
  pose proof (Hcur j rj Hj Hlj) as Hwj.
  split; [congruence|done].
Qed.

Lemma one_live_socket_witness :
  1 = 1 ∧
  wsRef (run defaultMaxReconnectAttempts initialHook
           [Mount; Opened 0; Unmount; Mount]) = Some 1.
Proof.
  apply (one_live_socket defaultMaxReconnectAttempts
           [Mount; Opened 0; Unmount; Mount] 1 1 CONNECTING CONNECTING).
  all: try (vm_compute; reflexivity).
  all: by right.
Defined.

End ConnectionLive.

(* ===================================================================== *)
(** * Facts about the other actions of the store                          *)
(* ===================================================================== *)
Module StoreActionsFacts.
Import Store StoreActions.

Lemma removeFirst_keeps r r' l :
  r ≠ r' → r' ∈ l → r' ∈ removeFirst r l.
Proof.
  intros Hne. induction l as [|a l IH]; simpl; [done|].
  intros Hin. apply elem_of_cons in Hin as [->|Hin].
  - rewrite decide_False by done. by left.
  - case_decide; [done|]. right. by apply IH.
Qed.

Lemma flagsBacked_settle_fetch c id k :
  flagsBacked c →
  (∀ s, isLoadingScenarios (store (k s)) = isLoadingScenarios (store s)) →
  (∀ s, isLoadingScenario (store (k s)) = false) →
  (∀ s, isRunningScenario (store (k s)) = true →
        (∃ i p, RunScenario i p ∈ inflight (k s)) ∨
        (isRunningScenario (store s) = true)) →
  (∀ s r, r ∈ inflight s → r ∈ inflight (k s)) →
  flagsBacked {| sys := settle (FetchScenario id) k (sys c); loads := loads c |}.
Proof.
  intros (Hl & Hf & Hr) Hk1 Hk2 Hk3 Hk4. unfold settle, flagsBacked.
  case_decide; simpl; [|done]. split_and!.
  - by rewrite Hk1.
  - by rewrite Hk2.
  - intros Hrun. apply Hk3 in Hrun as [Hrun|Hrun]; [done|].
    simpl in Hrun. destruct (Hr Hrun) as (i & p & Hin). exists i, p.
    apply Hk4. simpl. by apply removeFirst_keeps.
Qed.

Lemma flagsBacked_settle_run c id params k :
  flagsBacked c →
  (∀ s, isLoadingScenarios (store (k s)) = isLoadingScenarios (store s)) →
  (∀ s, isLoadingScenario (store (k s)) = isLoadingScenario (store s)) →
  (∀ s, isRunningScenario (store (k s)) = false) →
  (∀ s, inflight (k s) = inflight s) →
  flagsBacked
    {| sys := settle (RunScenario id params) k (sys c); loads := loads c |}.
Proof.
  intros (Hl & Hf & Hr) Hk1 Hk2 Hk3 Hk4. unfold settle, flagsBacked.
  case_decide; simpl; [|done]. split_and!.
  - by rewrite Hk1.
  - rewrite Hk2, Hk4. simpl. intros Hx. destruct (Hf Hx) as (i & Hin).
    exists i. by apply removeFirst_keeps.
  - by rewrite Hk3.
Qed.

Lemma flagsBacked_runStart s n :
  flagsBacked {| sys := s; loads := n |} →
  flagsBacked {| sys := runStart s; loads := n |}.
Proof.
  intros (Hl & Hf & Hr). unfold runStart.
  destruct (currentScenario (store s)) as [cur|]; [|done].
  split_and!; simpl.
  - done.
  - intros Hx. destruct (Hf Hx) as (i & Hin). exists i.
    apply elem_of_app. by left.
  - intros _. eexists _, _. apply elem_of_app. right. by left.
Qed.

Lemma flagsBacked_onSys f c :
  (∀ st, isLoadingScenarios (f st) = isLoadingScenarios st) →
  (∀ st, isLoadingScenario (f st) = isLoadingScenario st) →
  (∀ st, isRunningScenario (f st) = isRunningScenario st) →
  flagsBacked c → flagsBacked (onSys f c).
Proof.
  intros H1 H2 H3 (Hl & Hf & Hr). unfold flagsBacked, onSys. simpl.
  by rewrite H1, H2, H3.
Qed.

Lemma flagsBacked_base c ev :
  flagsBacked c → flagsBacked {| sys := step (sys c) ev; loads := loads c |}.
Proof.
  intros Hinv. destruct ev; simpl.
  - destruct Hinv as (Hl & Hf & Hr). split_and!; simpl; [done| |].
    + intros _. eexists. apply elem_of_app. right. by left.
    + intros Hx. destruct (Hr Hx) as (i & p & Hin). exists i, p.
      apply elem_of_app. by left.
  - apply flagsBacked_runStart. by destruct c.
  - by apply (flagsBacked_onSys _ c).
  - by apply (flagsBacked_onSys _ c).
  - apply flagsBacked_settle_fetch; try done.
    + intros s. unfold selectFulfilled, runStart. simpl. by left;
        eexists _, _; apply elem_of_app; right; left.
    + intros s r Hin. unfold selectFulfilled, runStart. simpl.
      apply elem_of_app. by left.
  - apply flagsBacked_settle_fetch; try done.
    intros s. simpl. by right.
  - by apply flagsBacked_settle_run.
  - by apply flagsBacked_settle_run.
Qed.

Lemma flagsBacked_act c a : flagsBacked c → flagsBacked (act c a).
Proof.
  intros Hinv. destruct a; simpl.
  - by apply flagsBacked_base.
  - destruct Hinv as (Hl & Hf & Hr). split_and!; simpl; [lia|done..].
  - destruct (loads c) eqn:E; [done|].
    destruct Hinv as (Hl & Hf & Hr). by split_and!.
  - destruct (loads c) eqn:E; [done|].
    destruct Hinv as (Hl & Hf & Hr). by split_and!.
  - by apply flagsBacked_onSys.
  - by apply flagsBacked_onSys.
  - by apply flagsBacked_onSys.
  - by apply flagsBacked_onSys.
  - by apply flagsBacked_onSys.
  - by apply flagsBacked_onSys.
  - by apply flagsBacked_onSys.
Qed.

(** Whatever actions are called and however the requests settle, a loading
    flag of the store is never up without a request of its kind in flight:
    [isLoadingScenarios] needs a pending [fetchScenarios], [isLoadingScenario]
    a pending [fetchScenario], [isRunningScenario] a pending [runScenario]. *)
Theorem flags_backed l : flagsBacked (acts initialClient l).
Proof.
  unfold acts. apply foldl_inv.
  - split_and!; simpl; done.
  - intros c a _. apply flagsBacked_act.
Qed.

(** Once every request has settled, all three loading flags are down. *)
Theorem idle_flags_down l :
  loads (acts initialClient l) = 0 →
  inflight (sys (acts initialClient l)) = [] →
  isLoadingScenarios (store (sys (acts initialClient l))) = false ∧
  isLoadingScenario (store (sys (acts initialClient l))) = false ∧
  isRunningScenario (store (sys (acts initialClient l))) = false.
Proof.
  intros Hloads Hin.
  assert (flagsBacked (acts initialClient l)) as (Hl & Hf & Hr).
  { unfold acts. apply foldl_inv.
    - split_and!; simpl; done.
    - intros c a _. apply flagsBacked_act. }
  rewrite Hloads in Hl. rewrite Hin in Hf, Hr. split_and!.
  - destruct (isLoadingScenarios _); [|done]. specialize (Hl eq_refl). lia.
  - destruct (isLoadingScenario _); [|done].
    destruct (Hf eq_refl) as (i & Hi). by apply elem_of_nil in Hi.
  - destruct (isRunningScenario _); [|done].
    destruct (Hr eq_refl) as (i & p & Hi). by apply elem_of_nil in Hi.
Qed.

Lemma idle_flags_down_witness :
  isLoadingScenarios (store (sys (acts initialClient
    [CallLoadScenarios; Base (CallSelectScenario "A");
     ScenariosRejected "offline"; Base (FetchRejected "A" "t1" "offline")])))
  = false.
Proof.
  refine (proj1 (idle_flags_down
    [CallLoadScenarios; Base (CallSelectScenario "A"%string);
     ScenariosRejected "offline"%string;
     Base (FetchRejected "A"%string "t1"%string "offline"%string)] _ _));
    vm_compute; reflexivity.
Defined.

Lemma defaultParams_snoc ps p :
  defaultParams (ps ++ [p]) = assignDefault (defaultParams ps) p.
Proof. unfold defaultParams. by rewrite foldl_snoc. Qed.

Lemma defaultParams_None ps n :
  n ∉ p_name <$> ps ∨ n = "__proto__"%string → defaultParams ps !! n = None.
Proof.
  induction ps as [|p ps IH] using rev_ind; intros Hn; [done|].
  rewrite defaultParams_snoc. unfold assignDefault.
  assert (n ∉ p_name <$> ps ∨ n = "__proto__"%string) as Hn'.
  { destruct Hn as [Hn|Hn]; [left|by right].
    rewrite fmap_app, elem_of_app in Hn. tauto. }
  case_decide as Hp; [by apply IH|].
  rewrite lookup_insert_ne; [by apply IH|].
  intros <-. destruct Hn as [Hn|Hn]; [|done].
  apply Hn. rewrite fmap_app. apply elem_of_app. right. by left.
Qed.

Lemma defaultParams_Some ps p :
  NoDup (p_name <$> ps) → p ∈ ps → p_name p ≠ "__proto__"%string →
  defaultParams ps !! p_name p = Some (p_default p).
Proof.
  induction ps as [|q ps IH] using rev_ind; intros Hnd Hp Hname.
  { by apply elem_of_nil in Hp. }
  rewrite defaultParams_snoc. unfold assignDefault.
  rewrite fmap_app in Hnd. apply NoDup_app in Hnd as (Hnd & Hdis & _).
  apply elem_of_app in Hp as [Hp|Hp].
  - case_decide; [by apply IH|].
    rewrite lookup_insert_ne; [by apply IH|].
    intros Heq. apply (Hdis (p_name p)).
    + apply list_elem_of_fmap. by exists p.
    + rewrite <- Heq. by left.
  - apply list_elem_of_singleton in Hp as ->.
    rewrite decide_False by done. by rewrite lookup_insert_eq.
Qed.

(** When the fetch of a scenario succeeds, nothing of the scenario before
    is left: the parameters are the declared ones, each at its default,
    except that a parameter named [__proto__] is not stored; the tensors
    and the selection are empty, and a run of the new scenario with those
    parameters is put in flight. *)
Theorem selectFulfilled_resets scenario s :
  NoDup (p_name <$> sd_parameters scenario) →
  currentScenario (store (selectFulfilled scenario s)) = Some scenario ∧
  (∀ p, p ∈ sd_parameters scenario → p_name p ≠ "__proto__"%string →
        parameters (store (selectFulfilled scenario s)) !! p_name p
        = Some (p_default p)) ∧
  (∀ n, n ∉ p_name <$> sd_parameters scenario ∨ n = "__proto__"%string →
        parameters (store (selectFulfilled scenario s)) !! n = None) ∧
  tensors (store (selectFulfilled scenario s)) = ∅ ∧
  selectedTensorId (store (selectFulfilled scenario s)) = None ∧
  isLoadingScenario (store (selectFulfilled scenario s)) = false ∧
  isRunningScenario (store (selectFulfilled scenario s)) = true ∧
  inflight (selectFulfilled scenario s) =
    inflight s ++ [RunScenario (sd_id scenario)
                     (parameters (store (selectFulfilled scenario s)))].
Proof.
  intros Hnd. unfold selectFulfilled, runStart. simpl. split_and!; try done.
  - intros p Hp Hname. by apply defaultParams_Some.
  - intros n Hn. by apply defaultParams_None.
Qed.

Lemma selectFulfilled_resets_witness :
  currentScenario (store (selectFulfilled tunedScenario switchedToB))
    = Some tunedScenario ∧
  (∀ p, p ∈ sd_parameters tunedScenario → p_name p ≠ "__proto__"%string →
        parameters (store (selectFulfilled tunedScenario switchedToB))
          !! p_name p = Some (p_default p)) ∧
  (∀ n, n ∉ p_name <$> sd_parameters tunedScenario ∨ n = "__proto__"%string →
        parameters (store (selectFulfilled tunedScenario switchedToB)) !! n
        = None) ∧
  tensors (store (selectFulfilled tunedScenario switchedToB)) = ∅ ∧
  selectedTensorId (store (selectFulfilled tunedScenario switchedToB)) = None ∧
  isLoadingScenario (store (selectFulfilled tunedScenario switchedToB))
    = false ∧
  isRunningScenario (store (selectFulfilled tunedScenario switchedToB))
    = true ∧
  inflight (selectFulfilled tunedScenario switchedToB) =
    inflight switchedToB ++
    [RunScenario (sd_id tunedScenario)
       (parameters (store (selectFulfilled tunedScenario switchedToB)))].
Proof.
  apply (selectFulfilled_resets tunedScenario switchedToB).
  apply (bool_decide_unpack _). vm_compute. exact I.
Defined.

(** The scenario above, once fetched: its two ordinary parameters are at
    their defaults and nothing is stored under [__proto__]. *)
Example tunedScenario_parameters :
  parameters (store (selectFulfilled tunedScenario switchedToB)) =
  {[ "rank"%string := PNum (Finite false 3 0);
     "mode"%string := PStr "fast" ]}.
Proof. apply (bool_decide_unpack _). vm_compute. exact I. Qed.

Lemma set_toasts_same st : set_toasts (toasts st) st = st.
Proof. by destruct st. Qed.

(** A toast that was added under an id no other toast has is taken away
    again by [removeToast] of that id, and the store is as it was before. *)
Theorem removeToast_addToast fresh msg st :
  fresh ∉ toast_id <$> toasts st →
  removeToast fresh (addToast fresh msg st) = st.
Proof.
  intros Hfresh. unfold removeToast, addToast. simpl.
  rewrite filter_app, filter_cons_False, filter_nil, app_nil_r by naive_solver.
  assert (filter (λ t, toast_id t ≠ fresh) (toasts st) = toasts st) as Hf.
  { induction (toasts st) as [|t ts IH]; [done|].
    rewrite fmap_cons, not_elem_of_cons in Hfresh. destruct Hfresh as [Hne Hfresh].
    rewrite filter_cons_True by done. f_equal. by apply IH. }
  destruct st. simpl in *. by rewrite Hf.
Qed.

Lemma removeToast_addToast_witness :
  removeToast "t9" (addToast "t9" "offline" (store switchedToB))
  = store switchedToB.
Proof.
  apply (removeToast_addToast "t9"%string "offline"%string (store switchedToB)).
  apply (bool_decide_unpack _). vm_compute. exact I.
Defined.

(** [updateParameter] writes one key of [parameters] and no other field of
    the store. Two calls on different names can be made in either order; on
    the same name the later one wins. *)
Theorem updateParameter_order n1 v1 n2 v2 st :
  (parameters (updateParameter n1 v1 st) = <[n1 := v1]> (parameters st) ∧
   scenarios (updateParameter n1 v1 st) = scenarios st ∧
   currentScenario (updateParameter n1 v1 st) = currentScenario st ∧
   isLoadingScenarios (updateParameter n1 v1 st) = isLoadingScenarios st ∧
   isLoadingScenario (updateParameter n1 v1 st) = isLoadingScenario st ∧
   isRunningScenario (updateParameter n1 v1 st) = isRunningScenario st ∧
   scenarioError (updateParameter n1 v1 st) = scenarioError st ∧
   tensors (updateParameter n1 v1 st) = tensors st ∧
   selectedTensorId (updateParameter n1 v1 st) = selectedTensorId st ∧
   isUpdatingParams (updateParameter n1 v1 st) = isUpdatingParams st ∧
   toasts (updateParameter n1 v1 st) = toasts st ∧
   sidebarCollapsed (updateParameter n1 v1 st) = sidebarCollapsed st) ∧
  (n1 ≠ n2 →
   updateParameter n1 v1 (updateParameter n2 v2 st) =
   updateParameter n2 v2 (updateParameter n1 v1 st)) ∧
  updateParameter n1 v1 (updateParameter n1 v2 st) = updateParameter n1 v1 st.
Proof.
  split_and!; try reflexivity.
  - intros Hne. unfold updateParameter, set_parameters. simpl.
    f_equal. by apply insert_insert_ne.
  - unfold updateParameter, set_parameters. simpl.
    f_equal. by apply insert_insert_eq.
Qed.

Lemma updateParameter_order_witness :
  updateParameter "a" (PStr "x") (updateParameter "b" (PStr "y") initialState) =
  updateParameter "b" (PStr "y") (updateParameter "a" (PStr "x") initialState).
Proof.
  refine (proj1 (proj2 (updateParameter_order "a"%string (PStr "x") "b"%string
                          (PStr "y") initialState)) _).
  discriminate.
Defined.

(** [clearScenario] cancels nothing: a run that was in flight when the
    scenario was cleared still writes its tensors when it settles, into a
    store that has no scenario. *)
Theorem clearScenario_keeps_requests c id params response :
  RunScenario id params ∈ inflight (sys c) →
  currentScenario
    (store (sys (acts c [CallClearScenario;
                         Base (RunFulfilled id params response)]))) = None ∧
  tensors
    (store (sys (acts c [CallClearScenario;
                         Base (RunFulfilled id params response)])))
  = r_tensors response.
Proof.
  intros Hin. unfold acts. simpl. unfold settle. simpl.
  by rewrite decide_True.
Qed.

Lemma clearScenario_keeps_requests_witness :
  tensors
    (store (sys (acts {| sys := switchedToB; loads := 0 |}
                   [CallClearScenario;
                    Base (RunFulfilled "A" ∅ (responseOf "A" "x"))])))
  = r_tensors (responseOf "A" "x").
Proof.
  refine (proj2 (clearScenario_keeps_requests
    {| sys := switchedToB; loads := 0 |} "A"%string ∅
    (responseOf "A" "x") _)).
  apply (bool_decide_unpack _). vm_compute. exact I.
Defined.

End StoreActionsFacts.

(* ===================================================================== *)
(** * Facts about the slider over any sequence of changes                 *)
(* ===================================================================== *)
Module SliderTraceFacts.
Import Slider SliderTrace SliderFacts.

Section facts.
Context {V : Type}.
Implicit Types (s : Slider V) (v : V) (evs : list (Event V)).

Lemma run_snoc debounceMs s evs ev :
  run debounceMs s (evs ++ [ev]) = step debounceMs (run debounceMs s evs) ev.
Proof. unfold run. by rewrite foldl_snoc. Qed.

Lemma run_app debounceMs s evs evs' :
  run debounceMs s (evs ++ evs') =
  run debounceMs (run debounceMs s evs) evs'.
Proof. unfold run. by rewrite foldl_app. Qed.

Lemma changes_snoc evs ev :
  changes (evs ++ [ev]) =
  changes evs ++ match ev with Change v => [v] | Wait _ => [] end.
Proof. unfold changes. rewrite bind_app. simpl. by rewrite app_nil_r. Qed.

Lemma armed_owned debounceMs v sent0 s : armed debounceMs v sent0 s → owned s.
Proof.
  intros (t & Ht & Href & _) tm Htm. rewrite Ht in Htm.
  apply list_elem_of_singleton in Htm as ->. by exists t.
Qed.

Lemma owned_advance ms s : owned s → owned (advance ms s).
Proof.
  intros Hown tm Htm. simpl in Htm.
  apply list_elem_of_filter in Htm as [_ Htm]. by apply Hown.
Qed.

Lemma owned_unmount s : owned s → timers (unmount s) = [].
Proof.
  intros Hown. unfold unmount.
  destruct (debounceRef s) as [[|t]|] eqn:Href.
  - apply elem_of_nil_inv. intros tm Htm.
    destruct (Hown tm Htm) as (t & _ & ?). congruence.
  - simpl. apply filter_none. intros tm Htm.
    destruct (Hown tm Htm) as (t' & Hid & ?). simplify_eq. tauto.
  - apply elem_of_nil_inv. intros tm Htm.
    destruct (Hown tm Htm) as (t & _ & ?). congruence.
Qed.

Lemma run_keeps debounceMs s0 evs :
  timers s0 = [] →
  owned (run debounceMs s0 evs) ∧
  length (timers (run debounceMs s0 evs)) ≤ 1 ∧
  ∃ l, sent (run debounceMs s0 evs) = sent s0 ++ l ∧
       sublist (l ++ (payload <$> timers (run debounceMs s0 evs)))
               (changes evs).
Proof.
  intros Ht0. induction evs as [|ev evs IH] using rev_ind.
  { simpl. split_and!.
    - intros tm Htm. rewrite Ht0 in Htm. by apply elem_of_nil in Htm.
    - rewrite Ht0. simpl. lia.
    - exists []. rewrite Ht0, app_nil_r. done. }
  destruct IH as (Hown & Hlen & l & Hsent & Hsub).
  rewrite run_snoc, changes_snoc. destruct ev as [v|ms]; cbn [step].
  - pose proof (handleChange_armed debounceMs v _ Hown) as Harmed.
    split; [by eapply armed_owned|].
    destruct Harmed as (t & Htm & _ & Hs & _). rewrite Htm, Hs.
    split; [simpl; lia|]. exists l. split; [done|]. simpl.
    apply sublist_app; [|done].
    etrans; [|exact Hsub]. by apply sublist_inserts_r.
  - split; [by apply owned_advance|]. rewrite app_nil_r.
    unfold advance. cbn [timers sent].
    destruct (timers (run debounceMs s0 evs)) as [|tm [|tm' tms]] eqn:Htm;
      [| |simpl in Hlen; lia].
    + rewrite !filter_nil. simpl. split; [lia|]. exists l.
      rewrite !app_nil_r. split; [done|]. by rewrite app_nil_r in Hsub.
    + rewrite !filter_cons, !filter_nil. simpl in Hsub.
      destruct (decide (now (run debounceMs s0 evs) + ms < deadline tm)).
      * rewrite decide_False by lia. simpl. split; [lia|].
        exists l. by rewrite app_nil_r.
      * rewrite decide_True by lia. simpl. split; [lia|].
        exists (l ++ [payload tm]). rewrite Hsent, app_nil_r.
        by rewrite (assoc (++)).
Qed.

(** Whatever the user does and however long the pauses are, [onChange] is
    only ever called with values the user picked, in the order they were
    picked and each at most once; and never more than one timer is
    pending. *)
Theorem slider_sends_only_changes debounceMs s0 evs :
  timers s0 = [] →
  length (timers (run debounceMs s0 evs)) ≤ 1 ∧
  ∃ l, sent (run debounceMs s0 evs) = sent s0 ++ l ∧ sublist l (changes evs).
Proof.
  intros Ht0.
  destruct (run_keeps debounceMs s0 evs Ht0) as (_ & Hlen & l & Hs & Hsub).
  split; [done|]. exists l. split; [done|].
  etrans; [|exact Hsub]. by apply sublist_inserts_r.
Qed.

(** After any history, a change that is followed by a pause of at least the
    quiet window reaches [onChange]: the call with that value is the next
    and last one, and no timer is left. A pending earlier value is not
    sent. *)
Theorem slider_settles debounceMs s0 evs v ms :
  timers s0 = [] → debounceMs ≤ ms →
  sent (run debounceMs s0 (evs ++ [Change v; Wait ms])) =
    sent (run debounceMs s0 evs) ++ [v] ∧
  timers (run debounceMs s0 (evs ++ [Change v; Wait ms])) = [].
Proof.
  intros Ht0 Hms.
  destruct (run_keeps debounceMs s0 evs Ht0) as (Hown & _).
  rewrite run_app.
  change (run debounceMs (run debounceMs s0 evs) [Change v; Wait ms])
    with (advance ms (handleChange debounceMs v (run debounceMs s0 evs))).
  apply (advance_due debounceMs v); [|done]. by apply handleChange_armed.
Qed.

(** The clean-up of the component clears the pending timer: after it
    [onChange] is never called again, so a value picked less than the quiet
    window before the component went away is never sent. *)
Theorem unmount_drops_pending debounceMs s0 evs ms :
  timers s0 = [] →
  timers (unmount (run debounceMs s0 evs)) = [] ∧
  sent (advance ms (unmount (run debounceMs s0 evs))) =
    sent (run debounceMs s0 evs).
Proof.
  intros Ht0.
  destruct (run_keeps debounceMs s0 evs Ht0) as (Hown & _).
  pose proof (owned_unmount _ Hown) as Hnil. split; [done|].
  unfold advance. cbn [sent]. rewrite Hnil, filter_nil, app_nil_r.
  unfold unmount. by destruct (debounceRef _) as [[|t]|].
Qed.

End facts.

Lemma slider_sends_only_changes_witness :
  length (timers (run defaultDebounceMs restingSlider
                    [Change 1; Wait 40; Change 2; Wait 200; Change 3])) ≤ 1.
Proof.
  refine (proj1 (slider_sends_only_changes defaultDebounceMs restingSlider
    [Change 1; Wait 40; Change 2; Wait 200; Change 3] _)).
  reflexivity.
Defined.

Lemma slider_settles_witness :
  sent (run defaultDebounceMs restingSlider
          ([Change 1; Wait 40] ++ [Change 2; Wait 150])) =
  sent (run defaultDebounceMs restingSlider [Change 1; Wait 40]) ++ [2].
Proof.
  refine (proj1 (slider_settles defaultDebounceMs restingSlider
    [Change 1; Wait 40] 2 150 _ _)).
  - reflexivity.
  - unfold defaultDebounceMs. lia.
Defined.

Lemma unmount_drops_pending_witness :
  sent (advance 1000 (unmount (run defaultDebounceMs restingSlider
                                 [Change 1; Wait 40]))) =
  sent (run defaultDebounceMs restingSlider [Change 1; Wait 40]).
Proof.
  refine (proj2 (unmount_drops_pending defaultDebounceMs restingSlider
    [Change 1; Wait 40] 1000 _)).
  reflexivity.
Defined.

End SliderTraceFacts.

(* ===================================================================== *)
(** * Facts about the text of an integer                                  *)
(* ===================================================================== *)
Module SelectTextFacts.
Import Select SelectText SelectFacts.

Lemma digitValue_char d :
  (d < 10)%N → digitValue (pretty_N_char d) = Some d.
Proof.
  intros Hd.
  assert (∃ n : nat, n < 10 ∧ d = N.of_nat n) as (n & Hn & ->)
    by (exists (N.to_nat d); lia).
  do 10 (destruct n as [|n]; [reflexivity|]). lia.
Qed.

Lemma go_append x : ∀ s rest,
  pretty_N_go x s +:+ rest = pretty_N_go x (s +:+ rest).
Proof.
  induction x as [x IH] using (well_founded_induction N.lt_wf_0).
  intros s rest. destruct (decide (x = 0%N)) as [->|Hx].
  - by rewrite !pretty_N_go_0.
  - rewrite !(pretty_N_go_step x) by lia. rewrite IH; [done|].
    apply N.div_lt; lia.
Qed.

Lemma decimalValue_snoc ds d :
  decimalValue (ds ++ [d]) = (10 * decimalValue ds + d)%N.
Proof. unfold decimalValue. by rewrite foldl_snoc. Qed.

(** The digits [pretty_N_go] writes in front of a text are read back by
    [digits], and are worth the number written. *)
Lemma digits_go x : ∀ s ds r,
  digits s = (ds, r) →
  ∃ ds', digits (pretty_N_go x s) = (ds' ++ ds, r) ∧
         decimalValue ds' = x ∧ ((0 < x)%N → ds' ≠ []).
Proof.
  induction x as [x IH] using (well_founded_induction N.lt_wf_0).
  intros s ds r Hs. destruct (decide (x = 0%N)) as [->|Hx].
  - exists []. rewrite pretty_N_go_0. split_and!; [done|done|lia].
  - rewrite pretty_N_go_step by lia.
    destruct (IH (x `div` 10)%N) with
      (s := String (pretty_N_char (x `mod` 10)) s)
      (ds := (x `mod` 10)%N :: ds) (r := r) as (ds' & Hd & Hv & _).
    { apply N.div_lt; lia. }
    { cbn [digits]. rewrite digitValue_char by (apply N.mod_lt; lia).
      by rewrite Hs. }
    exists (ds' ++ [(x `mod` 10)%N]). split_and!.
    + by rewrite <- (assoc (++)).
    + rewrite decimalValue_snoc, Hv. symmetry. apply N.div_mod. lia.
    + intros _. by destruct ds'.
Qed.

Lemma digits_head s d ds r :
  digits s = (d :: ds, r) → ∃ c s', s = String c s' ∧ digitValue c = Some d.
Proof.
  destruct s as [|c s']; [done|]. cbn [digits].
  destruct (digitValue c) as [d'|] eqn:Hc; [|done].
  destruct (digits s') as [ds' r']. intros [= -> _ _]. by exists c, s'.
Qed.

Lemma endsInteger_digits rest : endsInteger rest → digits rest = ([], rest).
Proof.
  destruct rest as [|c r]; [done|]. intros (Hd & _). cbn [digits].
  by rewrite Hd.
Qed.

Lemma endsInteger_literal neg ds rest :
  ds ≠ [] → endsInteger rest →
  integerLiteral neg ds rest = Finite neg (decimalValue ds) 0 ∧
  match rest with
  | String c _ => Ascii.eqb c "." = false
  | EmptyString => True
  end.
Proof.
  intros Hds Hrest. destruct ds as [|d ds]; [done|]. unfold integerLiteral.
  destruct rest as [|c r]; [done|]. destruct Hrest as (_ & Hdot & He & HE).
  apply Ascii.eqb_neq in Hdot, He, HE. cbn [exponentPart].
  by rewrite He, HE, Hdot.
Qed.

Lemma skipWhiteSpace_append ws s :
  allWhiteSpace ws = true → skipWhiteSpace (ws +:+ s) = skipWhiteSpace s.
Proof.
  induction ws as [|c ws IH]; [done|]. cbn [allWhiteSpace].
  intros [Hc Hws]%andb_true_iff.
  change (skipWhiteSpace (String c (ws +:+ s)) = skipWhiteSpace s).
  cbn [skipWhiteSpace]. rewrite Hc. by apply IH.
Qed.

(** Digits at the head of a text that stops the integer there. *)
Lemma parseFloat_digits s ds rest :
  digits s = (ds, rest) → ds ≠ [] → endsInteger rest →
  parseFloat s = Finite false (decimalValue ds) 0 ∧
  parseFloat (String "-" s) = Finite true (decimalValue ds) 0.
Proof.
  intros Hs Hds Hrest. destruct ds as [|d ds]; [done|].
  destruct (digits_head s d ds rest Hs) as (c & s' & -> & Hc).
  destruct (endsInteger_literal false (d :: ds) rest) as [Hpos Hdot];
    [done..|].
  destruct (endsInteger_literal true (d :: ds) rest) as [Hneg _]; [done..|].
  assert (String.prefix "Infinity" (String c s') = false) as Hinf.
  { cbn [String.prefix].
    destruct (ascii_dec "I" c) as [<-|_]; [by vm_compute in Hc|done]. }
  unfold parseFloat. cbn [skipWhiteSpace].
  rewrite (digit_not_whiteSpace c d Hc).
  change (isWhiteSpace "-") with false. cbn [sign].
  rewrite (digit_not_char c d "-" Hc), (digit_not_char c d "+" Hc);
    [|left; vm_compute; reflexivity|left; vm_compute; reflexivity].
  change (Ascii.eqb "-" "-") with true. cbv iota.
  rewrite Hinf, Hs. destruct rest as [|c' r]; [done|]. by rewrite Hdot.
Qed.

Lemma parseFloat_N x rest :
  endsInteger rest →
  parseFloat (pretty x +:+ rest) = Finite false x 0 ∧
  parseFloat (String "-" (pretty x +:+ rest)) = Finite true x 0.
Proof.
  intros Hrest. pose proof (endsInteger_digits rest Hrest) as Hd.
  unfold pretty, pretty_N. case_decide as Hx.
  - subst x. apply (parseFloat_digits _ [0%N] rest); [|done..].
    change (digits (String "0" rest) = ([0%N], rest)).
    cbn [digits]. change (digitValue "0") with (Some 0%N).
    cbv iota. by rewrite Hd.
  - rewrite go_append. change (String.app EmptyString rest) with rest.
    destruct (digits_go x rest [] rest Hd) as (ds & Hds & Hv & Hne).
    rewrite app_nil_r in Hds. rewrite <- Hv at 2 4.
    apply (parseFloat_digits _ ds rest); [done| |done]. apply Hne. lia.
Qed.

(** An option whose text is the decimal text of a safe integer, as [String]
    prints a numeric option, is passed to [onChange] by [handleChange] as
    that number and not as text; also after white space and before any
    text that cannot continue the number. *)
Theorem handleChange_integer ws (z : Z) rest :
  (Z.abs z ≤ MAX_SAFE_INTEGER)%Z →
  allWhiteSpace ws = true → endsInteger rest →
  handleChange (ws +:+ pretty z +:+ rest) =
    PNum (Finite (bool_decide (z < 0)%Z) (Z.abs_N z) 0).
Proof.
  intros _ Hws Hrest.
  assert (parseFloat (ws +:+ pretty z +:+ rest) =
          Finite (bool_decide (z < 0)%Z) (Z.abs_N z) 0) as Hp.
  { unfold parseFloat at 1. rewrite skipWhiteSpace_append by done.
    change (parseFloat (pretty z +:+ rest) =
            Finite (bool_decide (z < 0)%Z) (Z.abs_N z) 0).
    destruct z as [|p|p].
    - apply (parseFloat_N 0 rest Hrest).
    - apply (parseFloat_N (N.pos p) rest Hrest).
    - apply (parseFloat_N (N.pos p) rest Hrest). }
  unfold handleChange. by rewrite Hp.
Qed.

Lemma handleChange_integer_witness :
  handleChange ("" +:+ pretty (-42)%Z +:+ "") = PNum (Finite true 42 0).
Proof.
  apply (handleChange_integer "" (-42)%Z "").
  - unfold MAX_SAFE_INTEGER. lia.
  - reflexivity.
  - exact I.
Defined.

End SelectTextFacts.

(* ===================================================================== *)
(** * Facts about the page when the effect runs again                     *)
(* ===================================================================== *)
Module AppRerun.
Import App.

Lemma cleanup_not_live h :
  Connection.currentReadyState (Connection.cleanup h) ≠ Some Connection.OPEN ∧
  Connection.currentReadyState (Connection.cleanup h)
    ≠ Some Connection.CONNECTING ∧
  Connection.isConnected (Connection.cleanup h) = Connection.isConnected h.
Proof.
  unfold Connection.cleanup.
  set (h1 := match Connection.reconnectTimeoutRef h with
             | Some (S t) => Connection.clearTimeout (S t) h
             | _ => h
             end).
  assert (Connection.sockets h1 = Connection.sockets h ∧
          Connection.wsRef h1 = Connection.wsRef h ∧
          Connection.isConnected h1 = Connection.isConnected h)
    as (Hs & Hw & Hc).
  { subst h1. by destruct (Connection.reconnectTimeoutRef h) as [[|t]|]. }
  cbv zeta. rewrite <- Hc. clearbody h1. clear Hs Hw Hc h.
  destruct (Connection.wsRef h1) as [i|] eqn:Hw.
  - unfold Connection.closeSocket.
    destruct (Connection.sockets h1 !! i) as [r|] eqn:Hi.
    + assert (<[i := Connection.CLOSING]> (Connection.sockets h1) !! i
              = Some Connection.CLOSING) as Hnew.
      { apply list_lookup_insert_Some. left. split_and!; [done..|].
        by eapply lookup_lt_Some. }
      destruct r; unfold Connection.currentReadyState; simpl;
        rewrite Hw; simpl; rewrite ?Hnew, ?Hi; done.
    + unfold Connection.currentReadyState. rewrite Hw. simpl.
      by rewrite Hi.
  - unfold Connection.currentReadyState. by rewrite Hw.
Qed.

Lemma connect_fresh h :
  Connection.currentReadyState h ≠ Some Connection.OPEN →
  Connection.currentReadyState h ≠ Some Connection.CONNECTING →
  Connection.currentReadyState (Connection.connect h)
    = Some Connection.CONNECTING ∧
  Connection.wsRef (Connection.connect h)
    = Some (length (Connection.sockets h)) ∧
  Connection.isConnected (Connection.connect h) = Connection.isConnected h.
Proof.
  intros Ho Hc. unfold Connection.connect.
  assert (Connection.currentReadyState
            {| Connection.sockets := Connection.sockets h ++ [Connection.CONNECTING];
               Connection.wsRef := Some (length (Connection.sockets h));
               Connection.reconnectAttemptsRef := Connection.reconnectAttemptsRef h;
               Connection.reconnectTimeoutRef := Connection.reconnectTimeoutRef h;
               Connection.isConnected := Connection.isConnected h;
               Connection.timers := Connection.timers h;
               Connection.timerCount := Connection.timerCount h |}
          = Some Connection.CONNECTING) as Hnew.
  { unfold Connection.currentReadyState. simpl.
    rewrite lookup_app_r by lia. by rewrite Nat.sub_diag. }
  destruct (Connection.currentReadyState h) as [[]|]; done.
Qed.

(** When the effect of the hook runs again, the socket is replaced by one
    that is still connecting while [isConnected] keeps its value. An edit
    made then, with [isConnected] still true and a scenario loaded, is
    written to the store and marked as updating, but [send] drops its
    message: nothing reaches a socket. *)
Theorem rerun_drops_edit maxReconnectAttempts pg name value scenario :
  Connection.isConnected (hook pg) = true →
  Store.currentScenario (store pg) = Some scenario →
  Connection.currentReadyState (hook (rerunEffect maxReconnectAttempts pg))
    = Some Connection.CONNECTING ∧
  outbox (handleParameterChange name value
            (rerunEffect maxReconnectAttempts pg)) = outbox pg ∧
  dropped (handleParameterChange name value
             (rerunEffect maxReconnectAttempts pg)) = S (dropped pg) ∧
  isUpdatingRef (handleParameterChange name value
                   (rerunEffect maxReconnectAttempts pg)) = true ∧
  Store.parameters (store (handleParameterChange name value
                             (rerunEffect maxReconnectAttempts pg))) =
    <[name := value]> (Store.parameters (store pg)).
Proof.
  intros Hc Hs.
  destruct (cleanup_not_live (hook pg)) as (Hno & Hnc & Hic).
  destruct (connect_fresh (Connection.cleanup (hook pg)) Hno Hnc)
    as (Hcr & Hw & Hic').
  unfold handleParameterChange, rerunEffect.
  cbn [onStore hook store Connection.run foldl Connection.step].
  change (Store.currentScenario (Store.updateParameter name value (store pg)))
    with (Store.currentScenario (store pg)).
  rewrite Hic', Hic, Hc, Hs. unfold updateParam, send.
  cbn [set_isUpdatingRef onStore hook store outbox dropped isUpdatingRef].
  rewrite Hcr, Hw. done.
Qed.

Lemma rerun_drops_edit_witness :
  dropped
    (handleParameterChange "alpha" (PStr "fast")
       (rerunEffect Connection.defaultMaxReconnectAttempts
          {| store := Store.store Store.switchedToB;
             hook := mountedHook Connection.defaultMaxReconnectAttempts
                       [Connection.Opened 0];
             outbox := []; dropped := 0; isUpdatingRef := false |})) = 1.
Proof.
  refine (proj1 (proj2 (proj2 (rerun_drops_edit
    Connection.defaultMaxReconnectAttempts
    {| store := Store.store Store.switchedToB;
       hook := mountedHook Connection.defaultMaxReconnectAttempts
                 [Connection.Opened 0];
       outbox := []; dropped := 0; isUpdatingRef := false |}
    "alpha"%string (PStr "fast") (Store.scenarioOf "B") _ _))));
    vm_compute; reflexivity.
Defined.

End AppRerun.

(* ===================================================================== *)
(** * Facts about the frame of the drawing                                *)
(* ===================================================================== *)
Module LayoutFrame.
Import Layout LayoutFacts.

Lemma layer_le_max (ls : list (list string)) i l :
  ls !! i = Some l → length l ≤ maxLayerSize ls.
Proof.
  intros Hi. unfold maxLayerSize. apply max_list_elem_of_le.
  apply list_elem_of_fmap. exists l. split; [done|].
  by eapply list_elem_of_lookup_2.
Qed.

Lemma placeOf_y maxSize i l j :
  length l ≤ maxSize →
  y (placeOf maxSize i l j) =
  ((Z.of_nat maxSize - Z.of_nat (length l)) * 50 + Z.of_nat j * 100)%Z.
Proof.
  intros Hle. unfold placeOf, VERTICAL_SPACING. simpl. f_equal.
  replace (Z.of_nat maxSize * 100 - Z.of_nat (length l) * 100)%Z
    with ((Z.of_nat maxSize - Z.of_nat (length l)) * 50 * 2)%Z by lia.
  apply Z.div_mul. lia.
Qed.

(** The drawing stays in its frame: on a graph with distinct node ids every
    node is placed at non-negative coordinates, left of [280 * number of
    layers], and with its row of height 100 inside the height of the
    tallest layer; the gap above the first node of a layer equals the gap
    below its last node, so every layer is centred. *)
Theorem calculateLayout_in_frame nodes edges fuel positions :
  NoDup (id <$> nodes) →
  calculateLayout fuel nodes edges = Ok positions →
  (∀ v p, positions !! v = Some p →
     (0 ≤ x p < 280 * Z.of_nat (length (drawnLayers fuel nodes edges)))%Z ∧
     (0 ≤ y p)%Z ∧
     (y p + 100 ≤ 100 * Z.of_nat (maxLayerSize (drawnLayers fuel nodes edges)))%Z) ∧
  (∀ i l first final, drawnLayers fuel nodes edges !! i = Some l →
     head l = Some first → last l = Some final →
     ∃ p q, positions !! first = Some p ∧ positions !! final = Some q ∧
            (y p = 100 * Z.of_nat (maxLayerSize (drawnLayers fuel nodes edges))
                   - (y q + 100))%Z).
Proof.
  intros Hnd Hc.
  destruct (LayoutOrder.places_of_layout nodes edges fuel positions Hnd Hc)
    as [Hplace Hkeys].
  split.
  - intros v p Hp. destruct (Hkeys v p Hp) as (i & l & j & Hi & Hj & ->).
    pose proof (layer_le_max _ i l Hi) as Hle.
    pose proof (lookup_lt_Some _ _ _ Hi) as Hlti.
    pose proof (lookup_lt_Some _ _ _ Hj) as Hltj.
    rewrite placeOf_y by done. unfold placeOf, HORIZONTAL_SPACING. simpl. lia.
  - intros i l first final Hi Hfirst Hlast.
    pose proof (layer_le_max _ i l Hi) as Hle.
    rewrite head_lookup in Hfirst. rewrite last_lookup in Hlast.
    exists (placeOf (maxLayerSize (drawnLayers fuel nodes edges)) i l 0),
      (placeOf (maxLayerSize (drawnLayers fuel nodes edges)) i l
         (pred (length l))).
    split_and!; [by apply Hplace..|].
    pose proof (lookup_lt_Some _ _ _ Hfirst) as Hlen.
    rewrite !placeOf_y by done. lia.
Qed.

Lemma calculateLayout_in_frame_witness :
  (∀ v p, finalPositions (drawnLayers 9 diamondNodes diamondEdges) !! v = Some p →
     (0 ≤ x p < 280 * Z.of_nat (length (drawnLayers 9 diamondNodes diamondEdges)))%Z ∧
     (0 ≤ y p)%Z ∧
     (y p + 100 ≤
      100 * Z.of_nat (maxLayerSize (drawnLayers 9 diamondNodes diamondEdges)))%Z) ∧
  (∀ i l first final,
     drawnLayers 9 diamondNodes diamondEdges !! i = Some l →
     head l = Some first → last l = Some final →
     ∃ p q, finalPositions (drawnLayers 9 diamondNodes diamondEdges) !! first
            = Some p ∧
            finalPositions (drawnLayers 9 diamondNodes diamondEdges) !! final
            = Some q ∧
            (y p = 100 * Z.of_nat (maxLayerSize
                                     (drawnLayers 9 diamondNodes diamondEdges))
                   - (y q + 100))%Z).
Proof.
  apply (calculateLayout_in_frame diamondNodes diamondEdges 9
           (finalPositions (drawnLayers 9 diamondNodes diamondEdges))).
  - apply (bool_decide_unpack (NoDup (id <$> diamondNodes))).
    vm_compute. exact I.
  - vm_compute. reflexivity.
Defined.

End LayoutFrame.

(* ===================================================================== *)
(** * Facts about the hook of a mounted component                         *)
(* ===================================================================== *)
Module HandshakeFacts.
Import Connection Handshake.

Lemma current_lookup h i :
  wsRef h = Some i → currentReadyState h = sockets h !! i.
Proof. unfold currentReadyState. by intros ->. Qed.

Lemma mounted_current maxReconnectAttempts h i r :
  mountedInv maxReconnectAttempts h →
  sockets h !! i = Some r → r ≠ CLOSED → wsRef h = Some i.
Proof.
  intros [Ho _ _ _ _] Hi Hr.
  destruct (decide (wsRef h = Some i)) as [|Hne]; [done|].
  destruct Hr. by apply (Ho i r).
Qed.

Lemma insert_current (l : list ReadyState) i r r' :
  l !! i = Some r → <[i := r']> l !! i = Some r'.
Proof.
  intros Hi. apply list_lookup_insert_Some. left. split_and!; [done..|].
  by eapply lookup_lt_Some.
Qed.

Lemma mountedInv_mount maxReconnectAttempts :
  mountedInv maxReconnectAttempts (connect initialHook).
Proof.
  unfold connect. simpl. split; simpl.
  - intros [|i] r Hi Hne; [done|by destruct i].
  - by exists CONNECTING.
  - unfold currentReadyState. simpl. split; [done|]. by intros [|].
  - by left.
  - lia.
Qed.

Lemma mountedInv_onopen maxReconnectAttempts i h :
  sockets h !! i = Some CONNECTING →
  mountedInv maxReconnectAttempts h →
  mountedInv maxReconnectAttempts (onopen i h).
Proof.
  intros Hi Hinv.
  assert (wsRef h = Some i) as Hw
    by by apply (mounted_current maxReconnectAttempts h i CONNECTING).
  destruct Hinv as [Ho Hc Hconn Ht Ha].
  assert (currentReadyState (onopen i h) = Some OPEN) as Hcr.
  { rewrite (current_lookup _ i) by done. simpl. by eapply insert_current. }
  split.
  - simpl. intros j r Hj Hne.
    rewrite list_lookup_insert_ne in Hj by congruence. by apply (Ho j r).
  - by exists OPEN.
  - rewrite Hcr. simpl. split; [by left|done].
  - simpl. left. destruct Ht as [|(t & _ & Hcl)]; [done|].
    rewrite (current_lookup h i) in Hcl by done. congruence.
  - simpl. lia.
Qed.

Lemma mountedInv_onclose maxReconnectAttempts i h r :
  sockets h !! i = Some r → r ≠ CLOSED →
  mountedInv maxReconnectAttempts h →
  mountedInv maxReconnectAttempts (onclose maxReconnectAttempts i h) ∧
  isConnected (onclose maxReconnectAttempts i h) = false ∧
  currentReadyState (onclose maxReconnectAttempts i h) = Some CLOSED.
Proof.
  intros Hi Hr Hinv.
  assert (wsRef h = Some i) as Hw
    by by apply (mounted_current maxReconnectAttempts h i r).
  destruct Hinv as [Ho Hc Hconn Ht Ha].
  assert (timers h = []) as Hnil.
  { destruct Ht as [|(t & _ & Hcl)]; [done|].
    rewrite (current_lookup h i) in Hcl by done. congruence. }
  pose proof (insert_current _ i r CLOSED Hi) as Hnew.
  assert (currentReadyState (onclose maxReconnectAttempts i h) = Some CLOSED)
    as Hcr.
  { rewrite (current_lookup _ i); unfold onclose; case_decide; done. }
  assert (isConnected (onclose maxReconnectAttempts i h) = false) as Hic
    by (unfold onclose; by case_decide).
  split; [|done]. split.
  - intros j r' Hj Hne.
    assert (wsRef h ≠ Some j) as Hne'
      by (revert Hne; unfold onclose; by case_decide).
    assert (sockets h !! j = Some r') as Hj'.
    { revert Hj. unfold onclose. case_decide; simpl;
        rewrite list_lookup_insert_ne by congruence; done. }
    by apply (Ho j r').
  - by exists CLOSED.
  - rewrite Hcr, Hic. split; [done|]. by intros [|].
  - rewrite Hcr. unfold onclose. case_decide; simpl.
    + right. rewrite Hnil. by eexists.
    + by left.
  - unfold onclose. case_decide; simpl; lia.
Qed.

Lemma mountedInv_timer maxReconnectAttempts t h :
  t ∈ timers h →
  mountedInv maxReconnectAttempts h →
  mountedInv maxReconnectAttempts (connect (clearTimeout t h)).
Proof.
  intros Ht [Ho Hc Hconn Htm Ha].
  destruct Htm as [Hnil|(t' & Htm & Hcl)].
  { rewrite Hnil in Ht. by apply elem_of_nil in Ht. }
  rewrite Htm in Ht. apply list_elem_of_singleton in Ht as ->.
  unfold connect.
  assert (currentReadyState (clearTimeout t' h) = Some CLOSED) as -> by done.
  split; simpl.
  - intros j r Hj Hne. apply lookup_app_Some in Hj as [Hj|[Hge Hj]].
    + destruct (decide (wsRef h = Some j)) as [Hw|Hw]; [|by apply (Ho j r)].
      rewrite (current_lookup h j) in Hcl by done. congruence.
    + apply list_lookup_singleton_Some in Hj as [Hj _].
      destruct Hne. f_equal. lia.
  - exists CONNECTING. unfold currentReadyState. simpl.
    rewrite lookup_app_r by lia. by rewrite Nat.sub_diag.
  - unfold currentReadyState. simpl.
    rewrite lookup_app_r by lia. rewrite Nat.sub_diag. simpl. split.
    + intros Hcn%Hconn. rewrite Hcl in Hcn. by destruct Hcn.
    + by intros [|].
  - left. rewrite Htm. by rewrite filter_cons_False, filter_nil by naive_solver.
  - done.
Qed.

Lemma mountedInv_startClosing maxReconnectAttempts i h :
  mountedInv maxReconnectAttempts h →
  mountedInv maxReconnectAttempts (startClosing i h).
Proof.
  intros Hinv. unfold startClosing.
  destruct (sockets h !! i) as [r|] eqn:Hi; [|done].
  destruct r; try done.
  assert (wsRef h = Some i) as Hw
    by by apply (mounted_current maxReconnectAttempts h i OPEN).
  destruct Hinv as [Ho Hc Hconn Ht Ha].
  pose proof (insert_current _ i OPEN CLOSING Hi) as Hnew.
  pose proof (current_lookup h i Hw) as Hcur. rewrite Hi in Hcur.
  split; simpl.
  - intros j r' Hj Hne.
    rewrite list_lookup_insert_ne in Hj by congruence. by apply (Ho j r').
  - exists CLOSING. by rewrite (current_lookup _ i).
  - rewrite (current_lookup _ i) by done. simpl. rewrite Hnew. split.
    + by right.
    + intros _. apply Hconn. by left.
  - left. destruct Ht as [|(t & _ & Hcl)]; [done|]. congruence.
  - done.
Qed.

Lemma mountedInv_run maxReconnectAttempts evs :
  staysMounted evs →
  mountedInv maxReconnectAttempts (mountedHook maxReconnectAttempts evs).
Proof.
  intros [Hm Hu]. unfold mountedHook, run. simpl.
  apply foldl_inv; [apply mountedInv_mount|].
  intros h ev Hev Hinv. destruct ev as [[| |i|i|t]|i]; simpl; try done.
  - destruct (sockets h !! i) as [[]|] eqn:Hi; try done.
    by apply mountedInv_onopen.
  - destruct (sockets h !! i) as [r|] eqn:Hi; [|done].
    destruct r; try done; by eapply mountedInv_onclose.
  - case_decide; [|done]. by apply mountedInv_timer.
  - by apply mountedInv_startClosing.
Qed.

(** While the component stays mounted, with the server free to start the
    closing handshake at any time: [isConnected] is true exactly when the
    current socket is open or closing, so it is true whenever the socket is
    open, and false exactly when the socket is connecting or closed. At
    most one reconnection timer is pending, and only while the current
    socket is closed; the attempts never pass the cap. *)
Theorem mounted_hook_consistent maxReconnectAttempts evs :
  staysMounted evs →
  (isConnected (mountedHook maxReconnectAttempts evs) = true ↔
   currentReadyState (mountedHook maxReconnectAttempts evs) = Some OPEN ∨
   currentReadyState (mountedHook maxReconnectAttempts evs) = Some CLOSING) ∧
  (isConnected (mountedHook maxReconnectAttempts evs) = false ↔
   currentReadyState (mountedHook maxReconnectAttempts evs) = Some CONNECTING ∨
   currentReadyState (mountedHook maxReconnectAttempts evs) = Some CLOSED) ∧
  length (timers (mountedHook maxReconnectAttempts evs)) ≤ 1 ∧
  (timers (mountedHook maxReconnectAttempts evs) ≠ [] →
   currentReadyState (mountedHook maxReconnectAttempts evs) = Some CLOSED) ∧
  reconnectAttemptsRef (mountedHook maxReconnectAttempts evs)
    ≤ maxReconnectAttempts.
Proof.
  intros Hst.
  destruct (mountedInv_run maxReconnectAttempts evs Hst)
    as [_ [r Hr] Hconn Ht Ha].
  split_and!; [done| | | |done].
  - rewrite Hr in Hconn |- *. split.
    + intros Hf. destruct r; [by left| | |by right].
      * rewrite (proj2 Hconn (or_introl eq_refl)) in Hf. done.
      * rewrite (proj2 Hconn (or_intror eq_refl)) in Hf. done.
    + intros Hcase. destruct (isConnected _) eqn:E; [|done].
      destruct (proj1 Hconn eq_refl), Hcase; congruence.
  - destruct Ht as [->|(t & -> & _)]; simpl; lia.
  - destruct Ht as [->|(t & _ & Hcl)]; done.
Qed.

Lemma mounted_hook_consistent_witness :
  length (timers (mountedHook defaultMaxReconnectAttempts
                    [OfHook (Opened 0); ClosingStarted 0;
                     OfHook (Closed 0)])) ≤ 1.
Proof.
  refine (proj1 (proj2 (proj2 (mounted_hook_consistent
    defaultMaxReconnectAttempts
    [OfHook (Opened 0); ClosingStarted 0; OfHook (Closed 0)] _)))).
  split; apply (bool_decide_unpack _); vm_compute; exact I.
Defined.

(** The closing window: between the start of the closing handshake and the
    close event the hook still says it is connected. *)
Example closing_window :
  isConnected (mountedHook defaultMaxReconnectAttempts
                 [OfHook (Opened 0); ClosingStarted 0]) = true ∧
  currentReadyState (mountedHook defaultMaxReconnectAttempts
                       [OfHook (Opened 0); ClosingStarted 0]) = Some CLOSING.
Proof. split; reflexivity. Qed.

End HandshakeFacts.

(* ===================================================================== *)
(** * Facts about edits on a mounted page                                 *)
(* ===================================================================== *)
Module AppFacts.
Import App.

Lemma handleParameterChange_current name value pg :
  handleParameterChange name value pg =
  handleParameterChangeOf (Connection.isConnected (hook pg))
    (Store.currentScenario (store pg)) name value pg.
Proof. reflexivity. Qed.

Lemma send_keeps message pg :
  store (send message pg) = store pg ∧
  isUpdatingRef (send message pg) = isUpdatingRef pg.
Proof.
  unfold send. destruct (Connection.wsRef (hook pg)) as [i|]; [|done].
  by destruct (Connection.currentReadyState (hook pg)) as [[]|].
Qed.

Lemma send_open message pg i :
  Connection.wsRef (hook pg) = Some i →
  Connection.currentReadyState (hook pg) = Some Connection.OPEN →
  outbox (send message pg) = outbox pg ++ [(i, message)] ∧
  dropped (send message pg) = dropped pg.
Proof. intros Hw Ho. unfold send. by rewrite Hw, Ho. Qed.

Lemma send_not_open message pg :
  Connection.currentReadyState (hook pg) ≠ Some Connection.OPEN →
  outbox (send message pg) = outbox pg ∧
  dropped (send message pg) = S (dropped pg).
Proof.
  intros Ho. unfold send.
  destruct (Connection.wsRef (hook pg)) as [i|]; [|done].
  by destruct (Connection.currentReadyState (hook pg)) as [[]|].
Qed.

(** On a page whose hook stays mounted, with the callback of a render that
    saw the [isConnected] the hook has now: the edit is always written to
    the store. When the callback saw no connection or no scenario, nothing
    is sent, nothing is dropped and [isUpdatingRef] is untouched. When it
    saw both, [isUpdatingRef] is set and exactly one [update_param] message
    for the scenario it saw goes to the current socket, unless that socket
    is in the closing window: then [send] drops the message. *)
Theorem edit_reaches_server maxReconnectAttempts evs pg isConnected0
    scenario0 name value :
  Handshake.staysMounted evs →
  hook pg = Handshake.mountedHook maxReconnectAttempts evs →
  isConnected0 = Connection.isConnected (hook pg) →
  Store.parameters
    (store (handleParameterChangeOf isConnected0 scenario0 name value pg)) =
    <[name := value]> (Store.parameters (store pg)) ∧
  match isConnected0, scenario0 with
  | true, Some scenario =>
      isUpdatingRef (handleParameterChangeOf isConnected0 scenario0
                       name value pg) = true ∧
      ((Connection.currentReadyState (hook pg) = Some Connection.OPEN ∧
        dropped (handleParameterChangeOf isConnected0 scenario0
                   name value pg) = dropped pg ∧
        ∃ i, Connection.wsRef (hook pg) = Some i ∧
             outbox (handleParameterChangeOf isConnected0 scenario0
                       name value pg) =
             outbox pg ++
             [(i, UpdateParam (Store.sd_id scenario) name value)]) ∨
       (Connection.currentReadyState (hook pg) = Some Connection.CLOSING ∧
        dropped (handleParameterChangeOf isConnected0 scenario0
                   name value pg) = S (dropped pg) ∧
        outbox (handleParameterChangeOf isConnected0 scenario0
                  name value pg) = outbox pg))
  | _, _ =>
      outbox (handleParameterChangeOf isConnected0 scenario0 name value pg)
        = outbox pg ∧
      dropped (handleParameterChangeOf isConnected0 scenario0 name value pg)
        = dropped pg ∧
      isUpdatingRef (handleParameterChangeOf isConnected0 scenario0
                       name value pg) = isUpdatingRef pg
  end.
Proof.
  intros Hst Hh Hfresh.
  destruct (HandshakeFacts.mountedInv_run maxReconnectAttempts evs Hst)
    as [_ _ Hconn _ _].
  rewrite <- Hh in Hconn. unfold handleParameterChangeOf.
  destruct isConnected0; [|done].
  destruct scenario0 as [scenario|]; [|done].
  set (pg1 := set_isUpdatingRef true
                (onStore (Store.updateParameter name value) pg)).
  assert (hook pg1 = hook pg ∧ outbox pg1 = outbox pg ∧
          dropped pg1 = dropped pg) as (Hh1 & Ho1 & Hd1) by done.
  unfold updateParam.
  destruct (send_keeps (UpdateParam (Store.sd_id scenario) name value) pg1)
    as [Hst1 Hup1].
  split; [by rewrite Hst1|]. split; [by rewrite Hup1|].
  destruct (proj1 Hconn (eq_sym Hfresh)) as [Hopen|Hclosing].
  - left. split; [done|].
    assert (∃ i, Connection.wsRef (hook pg) = Some i) as [i Hw].
    { unfold Connection.currentReadyState in Hopen.
      destruct (Connection.wsRef (hook pg)) as [i|]; [by exists i|done]. }
    destruct (send_open (UpdateParam (Store.sd_id scenario) name value)
                pg1 i) as [Hout Hdr]; [by rewrite Hh1..|].
    rewrite Hout, Hdr, Ho1, Hd1. split; [done|]. by exists i.
  - right. split; [done|].
    destruct (send_not_open (UpdateParam (Store.sd_id scenario) name value)
                pg1) as [Hout Hdr].
    { rewrite Hh1, Hclosing. done. }
    by rewrite Hout, Hdr, Ho1, Hd1.
Qed.

Lemma edit_reaches_server_witness :
  Store.parameters
    (store (handleParameterChangeOf true (Some (Store.scenarioOf "B"))
              "alpha" (PStr "fast") Pages.connectedPage)) =
  <[ "alpha"%string := PStr "fast" ]>
    (Store.parameters (store Pages.connectedPage)).
Proof.
  apply (edit_reaches_server Connection.defaultMaxReconnectAttempts
           [Handshake.OfHook (Connection.Opened 0)] Pages.connectedPage
           true (Some (Store.scenarioOf "B")) "alpha"%string (PStr "fast")).
  - split; apply (bool_decide_unpack _); vm_compute; exact I.
  - reflexivity.
  - reflexivity.
Defined.

(** A callback that is called late, as the debounced slider does: when the
    render that made it saw the hook connected and the current socket has
    closed since, on a hook that stays mounted, the edit is written to the
    store and [isUpdatingRef] is set, but [send] drops the message, though
    the hook itself already says it is not connected. *)
Theorem stale_callback_drops_edit maxReconnectAttempts evs pg i scenario
    name value :
  Handshake.staysMounted evs →
  Connection.isConnected (Handshake.mountedHook maxReconnectAttempts evs)
    = true →
  Connection.wsRef (Handshake.mountedHook maxReconnectAttempts evs) = Some i →
  hook pg = Handshake.run maxReconnectAttempts
              (Handshake.mountedHook maxReconnectAttempts evs)
              [Handshake.OfHook (Connection.Closed i)] →
  Connection.isConnected (hook pg) = false ∧
  Store.parameters
    (store (handleParameterChangeOf true (Some scenario) name value pg)) =
    <[name := value]> (Store.parameters (store pg)) ∧
  isUpdatingRef (handleParameterChangeOf true (Some scenario) name value pg)
    = true ∧
  outbox (handleParameterChangeOf true (Some scenario) name value pg)
    = outbox pg ∧
  dropped (handleParameterChangeOf true (Some scenario) name value pg)
    = S (dropped pg).
Proof.
  intros Hst Hc Hw Hh.
  pose proof (HandshakeFacts.mountedInv_run maxReconnectAttempts evs Hst)
    as Hinv.
  set (h0 := Handshake.mountedHook maxReconnectAttempts evs) in *.
  assert (∃ r, Connection.sockets h0 !! i = Some r ∧ r ≠ Connection.CLOSED)
    as (r & Hi & Hr).
  { destruct Hinv as [_ _ Hconn _ _].
    rewrite (HandshakeFacts.current_lookup h0 i Hw) in Hconn.
    destruct (proj1 Hconn Hc) as [Ho|Ho]; eexists; split; done. }
  destruct (HandshakeFacts.mountedInv_onclose maxReconnectAttempts i h0 r
              Hi Hr Hinv) as (_ & Hic & Hcr).
  assert (hook pg = Connection.onclose maxReconnectAttempts i h0) as Hh'.
  { rewrite Hh. unfold Handshake.run. simpl. rewrite Hi. by destruct r. }
  rewrite <- Hh' in Hic, Hcr. split; [done|].
  unfold handleParameterChangeOf, updateParam.
  set (pg1 := set_isUpdatingRef true
                (onStore (Store.updateParameter name value) pg)).
  assert (hook pg1 = hook pg ∧ outbox pg1 = outbox pg ∧
          dropped pg1 = dropped pg) as (Hh1 & Ho1 & Hd1) by done.
  destruct (send_not_open (UpdateParam (Store.sd_id scenario) name value) pg1)
    as [Hout Hdr].
  { rewrite Hh1, Hcr. done. }
  destruct (send_keeps (UpdateParam (Store.sd_id scenario) name value) pg1)
    as [Hst1 Hup1].
  rewrite Hout, Hdr, Ho1, Hd1, Hst1, Hup1. by split_and!.
Qed.

Lemma stale_callback_drops_edit_witness :
  dropped (handleParameterChangeOf true (Some (Store.scenarioOf "B"))
             "alpha" (PStr "fast") Pages.closedPage)
  = S (dropped Pages.closedPage).
Proof.
  apply (stale_callback_drops_edit Connection.defaultMaxReconnectAttempts
           [Handshake.OfHook (Connection.Opened 0)] Pages.closedPage 0
           (Store.scenarioOf "B") "alpha"%string (PStr "fast")).
  - split; apply (bool_decide_unpack _); vm_compute; exact I.
  - reflexivity.
  - reflexivity.
  - reflexivity.
Defined.

End AppFacts.

(* ===================================================================== *)
(** * Facts about the runs of the layout engine                           *)
(* ===================================================================== *)
Module LayoutRunsFacts.
Import Layout LayoutRuns LayoutFacts.














(** Stability is what decides ties: without it a sorted result could put
    two entries of equal barycenter in either order. *)
Example unstable_sort_differs :
  let input := [("B"%string, 0%Q); ("C"%string, 0%Q)] in
  let other := [("C"%string, 0%Q); ("B"%string, 0%Q)] in
  StronglySorted (λ a b : string * Q, (a.2 <= b.2)%Q) other ∧
  other ≡ₚ input ∧ ¬ sortsTo input other ∧ sortBc input = input.
Proof.
  split_and!.
  - repeat constructor; simpl; apply Qle_refl.
  - apply Permutation_swap.
  - intros [_ Hf]. specialize (Hf 0%Q). vm_compute in Hf. discriminate.
  - reflexivity.
Qed.



End LayoutRunsFacts.
